(** * MyPyFEM: element force/stiffness evaluation, analysis context, beam stiffness

    A shallow embedding of three source files of the finite-element code

      - [element_calculation/ElementForceAndStiffness.py]
      - [femdb/NLDomain.py]
      - [element/Beam.py]

    Conventions of the embedding.

    - numpy [float64] arithmetic is idealised as arithmetic on the real
      numbers [R] ([np.log] is [ln], [np.sqrt] is [sqrt]); rounding, infinities
      and NaN are outside the model.
    - Python floats, which [element/Beam.py] computes with, raise where numpy
      does not: a division by zero raises [ZeroDivisionError] and a power
      beyond the largest float raises [OverflowError], while a power too small
      for a float is zero ([Beam_py.fdiv], [Beam_py.fpow]).
    - numpy arrays are nested lists in C order (a 2-D array is the list of its
      rows); shape errors and index errors are raised as in numpy, size-1
      broadcasting included.
    - Python exceptions are values of [Py.exn]; a call either returns or raises
      ([Py.result]).  Code that mutates shared objects threads a store, and the
      store survives a raise, as it does in Python.
    - Functions of the repository whose source is not part of the three files
      are fields of a record of callees ([EFS.Callees]), so every statement
      holds for all of their behaviours unless it says otherwise. *)

From Stdlib Require Import Reals Lra ZArith Lia.
From stdpp Require Import base option list gmap strings.

Local Open Scope R_scope.

(** ** Python results and exceptions *)

Module Py.

Inductive exn : Type :=
| NoImplSuchMaterial (name : string)
| IndexError
| KeyError
| ValueError
| TypeError
| AttributeError
| AssertionError
| ZeroDivisionError
| OverflowError
| SystemExit (code : Z)
| Foreign (origin : string).

Inductive result (A : Type) : Type :=
| Ok (a : A)
| Raise (e : exn).

Arguments Ok {A} a.
Arguments Raise {A} e.

#[export] Instance result_ret : MRet result := fun A a => Ok a.

#[export] Instance result_bind : MBind result := fun A B f r =>
  match r with
  | Ok a => f a
  | Raise e => Raise e
  end.

(** [d[k]] on a dict, [l[i]] on a list with a non-negative position. *)
Definition of_option {A} (e : exn) (o : option A) : result A :=
  match o with
  | Some a => Ok a
  | None => Raise e
  end.

Definition dict_getitem {V} (d : gmap string V) (k : string) : result V :=
  of_option KeyError (d !! k).

Definition is_Ok {A} (r : result A) : bool :=
  match r with
  | Ok _ => true
  | Raise _ => false
  end.

(** A left-to-right loop over [xs] carrying an accumulator: the shape of
    [for x in xs: acc = body(acc, x)]. *)
Fixpoint foldM {M : Type -> Type} `{MBind M, MRet M} {A B}
    (body : A -> B -> M A) (acc : A) (xs : list B) : M A :=
  match xs with
  | [] => mret acc
  | x :: xs' => acc' ← body acc x; foldM body acc' xs'
  end.

(** [range(n)] *)
Definition range (n : nat) : list nat := seq 0 n.

(** Computations on a store of shared mutable objects.  A raise keeps the
    store as it was when the exception left the failing statement. *)
Definition ST (S A : Type) : Type := S -> result A * S.

#[export] Instance ST_ret {S} : MRet (ST S) := fun A a s => (Ok a, s).

#[export] Instance ST_bind {S} : MBind (ST S) := fun A B f m s =>
  match m s with
  | (Ok a, s') => f a s'
  | (Raise e, s') => (Raise e, s')
  end.

Definition get {S} : ST S S := fun s => (Ok s, s).
Definition modify {S} (f : S -> S) : ST S unit := fun s => (Ok tt, f s).
Definition raise {S A} (e : exn) : ST S A := fun s => (Raise e, s).
Definition lift {S A} (r : result A) : ST S A := fun s => (r, s).

End Py.

Export Py.

(** ** The fragment of numpy used by the three files *)

Module np.

Abbreviation vec := (list R).
Abbreviation matrix := (list (list R)).
Abbreviation tensor3 := (list (list (list R))).
Abbreviation tensor4 := (list (list (list (list R)))).

(** [np.zeros((n, 1))] and [np.zeros((m, n))] *)
Definition zeros (n : nat) : vec := replicate n 0.
Definition zeros2 (m n : nat) : matrix := replicate m (zeros n).

(** [np.eye(n)] *)
Definition eye (n : nat) : matrix :=
  (fun i => (fun j => if Nat.eqb i j then 1 else 0) <$> seq 0 n) <$> seq 0 n.

(** [a[i]] for a position produced by [range]. *)
Definition getitem {A} (a : list A) (i : nat) : result A :=
  of_option IndexError (a !! i).

(** [a[i]] for an arbitrary integer: negative positions count from the end. *)
Definition wrap_index (n : nat) (i : Z) : result nat :=
  if decide (0 <= i < Z.of_nat n)%Z then Ok (Z.to_nat i)
  else if decide (- Z.of_nat n <= i < 0)%Z then Ok (Z.to_nat (i + Z.of_nat n))
  else Raise IndexError.

Definition getitemZ {A} (a : list A) (i : Z) : result A :=
  k ← wrap_index (length a) i; getitem a k.

(** [a[:, j]], [a[:, :, k]] and [a[:, :, :, l]]: the index is applied to the
    last axis. *)
Definition col {A} (a : list (list A)) (j : nat) : result (list A) :=
  mapM (fun row => getitem row j) a.

Definition colZ {A} (a : list (list A)) (j : Z) : result (list A) :=
  mapM (fun row => getitemZ row j) a.

Definition slice3 {A} (a : list (list (list A))) (k : nat) : result (list (list A)) :=
  mapM (fun plane => col plane k) a.

Definition slice4Z {A} (a : list (list (list (list A)))) (l : Z)
  : result (list (list (list A))) :=
  mapM (fun cube => mapM (fun plane => colZ plane l) cube) a.

(** [a.shape == (m, n)] as a proposition. *)
Definition shaped (m n : nat) (a : matrix) : Prop :=
  length a = m /\ Forall (fun row : vec => length row = n) a.

(** [a.T] on a 2-D array: the number of columns is read off the first row. *)
Definition transpose {A} (a : list (list A)) : list (list A) :=
  match a with
  | [] => []
  | r :: _ => (fun j => omap (fun row => row !! j) a) <$> seq 0 (length r)
  end.

(** [a.flatten()] on a 2-D array (C order). *)
Definition flatten {A} (a : list (list A)) : list A := concat a.

Definition dot (u v : vec) : R :=
  foldr Rplus 0 (zip_with Rmult u v).

(** [np.matmul(a, b)] on 2-D arrays: the columns of [a] must be as many as the
    rows of [b]. *)
Definition matmul (a b : matrix) : result matrix :=
  if forallb (fun row => Nat.eqb (length row) (length b)) a
  then Ok ((fun row => (fun c => dot row c) <$> transpose b) <$> a)
  else Raise ValueError.

(** [np.outer(u, v)] *)
Definition outer (u v : vec) : matrix :=
  (fun x => (fun y => x * y) <$> v) <$> u.

(** A column [a[:, k]] of a 2-D table keeps the class of the table: on an
    [ndarray] it is a 1-D array of shape (n,), on an [np.matrix] it is a
    matrix of shape (n, 1). *)
Inductive column (A : Type) : Type :=
| Flat (v : list A)
| Upright (v : list A).

Arguments Flat {A} v.
Arguments Upright {A} v.

Definition entries {A} (c : column A) : list A :=
  match c with
  | Flat v => v
  | Upright v => v
  end.

(** [np.tile(c, (1, reps))]: a 1-D array becomes one row holding [reps]
    copies of it, an (n, 1) matrix becomes n rows of [reps] equal entries. *)
Definition tile_1 {A} (c : column A) (reps : nat) : list (list A) :=
  match c with
  | Flat v => [concat (replicate reps v)]
  | Upright v => (fun x => replicate reps x) <$> v
  end.

(** Broadcasting of a binary operation along one axis: equal lengths combine
    position by position, a length-1 operand is stretched, anything else is
    a [ValueError]. *)
Definition bcast {A B C} (f : A -> B -> result C) (xs : list A) (ys : list B)
  : result (list C) :=
  if decide (length xs = length ys) then mapM (fun p => f p.1 p.2) (zip xs ys)
  else match xs, ys with
       | [x], _ => mapM (f x) ys
       | _, [y] => mapM (fun x => f x y) xs
       | _, _ => Raise ValueError
       end.

(** The in-place variant ([out += xs]): [out] keeps its shape, so only the
    right operand may be stretched. *)
Definition ibcast {A B} (f : A -> B -> result A) (out : list A) (xs : list B)
  : result (list A) :=
  if decide (length xs = length out) then mapM (fun p => f p.1 p.2) (zip out xs)
  else match xs with
       | [x] => mapM (fun o => f o x) out
       | _ => Raise ValueError
       end.

Definition radd (x y : R) : result R := Ok (x + y).
Definition rsub (x y : R) : result R := Ok (x - y).

(** [a + b] on 2-D and 4-D arrays, [a - b] on 4-D arrays, [out += a] on a
    column vector and on a 2-D array. *)
Definition add2 : matrix -> matrix -> result matrix := bcast (bcast radd).
Definition add4 : tensor4 -> tensor4 -> result tensor4 :=
  bcast (bcast (bcast (bcast radd))).
Definition sub4 : tensor4 -> tensor4 -> result tensor4 :=
  bcast (bcast (bcast (bcast rsub))).
Definition iadd1 : vec -> vec -> result vec := ibcast radd.
Definition iadd2 : matrix -> matrix -> result matrix := ibcast (ibcast radd).

(** scalar [*] array and array [/] scalar *)
Definition scale1 (s : R) (a : vec) : vec := Rmult s <$> a.
Definition scale2 (s : R) (a : matrix) : matrix := scale1 s <$> a.
Definition scale4 (s : R) (a : tensor4) : tensor4 :=
  (fun cube : tensor3 => scale2 s <$> cube) <$> a.
Definition rscale2 (a : matrix) (s : R) : matrix :=
  (fun row : vec => (fun x => x * s) <$> row) <$> a.
Definition div2 (a : matrix) (s : R) : matrix :=
  (fun row : vec => (fun x => x / s) <$> row) <$> a.

(** Bounds of a slice [a[start:stop]] of an axis of length [n]. *)
Definition clip (n : nat) (i : Z) : nat :=
  if decide (i < 0)%Z then Z.to_nat (Z.max 0 (i + Z.of_nat n))
  else Z.to_nat (Z.min i (Z.of_nat n)).

(** [buf[start:stop, 0] = v] on a buffer of shape (N, 1): the clipped slice
    must have the length of [v], or [v] must have length 1. *)
Definition slice_assign {A} (buf : list A) (start stop : Z) (v : list A)
  : result (list A) :=
  let lo := clip (length buf) start in
  let hi := clip (length buf) stop in
  let k := (hi - lo)%nat in
  if decide (length v = k) then Ok (take lo buf ++ v ++ drop (lo + k) buf)
  else match v with
       | [x] => Ok (take lo buf ++ replicate k x ++ drop (lo + k) buf)
       | _ => Raise ValueError
       end.

(** [a[i, j]], [t[i, j, k, l]] and [t[i, j, k, l] = x] for positions produced
    by [range], and [np.zeros((n, n, n, n))]. *)
Definition getitem2 (a : matrix) (i j : nat) : result R :=
  row ← getitem a i; getitem row j.

Definition getitem4 (t : tensor4) (i j k l : nat) : result R :=
  cube ← getitem t i; plane ← getitem cube j; row ← getitem plane k;
  getitem row l.

Definition setitem4 (t : tensor4) (i j k l : nat) (x : R) : result tensor4 :=
  cube ← getitem t i; plane ← getitem cube j; row ← getitem plane k;
  _ ← getitem row l;
  Ok (<[i := <[j := <[k := <[l := x]> row]> plane]> cube]> t).

Definition zeros4 (n : nat) : tensor4 :=
  replicate n (replicate n (replicate n (zeros n))).

(** The product of a 2-D array with a 1-D array, row by row. *)
Definition matvec (a : matrix) (u : vec) : vec := (fun row => dot row u) <$> a.

End np.

(** ** femdb/NLDomain.py *)

Module NLDomain_py.
Import np.

(** *** class IdentityTensor *)

Record IdentityTensor : Type := {
  I : matrix;
  c1 : tensor4;
  c2 : tensor4
}.

Definition entry (a : matrix) (i j : nat) : R :=
  default 0 (row ← a !! i; row !! j).

Definition table4 (n : nat) (f : nat -> nat -> nat -> nat -> R) : tensor4 :=
  (fun i => (fun j => (fun k => (fun l => f i j k l)
     <$> seq 0 n) <$> seq 0 n) <$> seq 0 n) <$> seq 0 n.

(** [IdentityTensor.__init__]: the four nested loops visit every index
    (i, j, k, l) once and add the products of Kronecker deltas to the zero
    entry. *)
Definition IdentityTensor_init (dimension : nat) : IdentityTensor :=
  let I := eye dimension in
  {| I := I;
     c1 := table4 dimension (fun i j k l => 0 + entry I i j * entry I k l);
     c2 := table4 dimension (fun i j k l =>
             0 + entry I i k * entry I j l + entry I i l * entry I j k) |}.

(** [IdentityTensor.__init__] as the source runs it: four nested loops, [l]
    outermost and [i] innermost, each round reading and rewriting one entry
    of [c1] and one of [c2], both of which start as zero arrays. *)
Definition IdentityTensor_round (I : matrix) (l k j : nat)
    (acc : tensor4 * tensor4) (i : nat) : result (tensor4 * tensor4) :=
  let '(c1, c2) := acc in
  c1_ijkl ← getitem4 c1 i j k l;
  I_ij ← getitem2 I i j;
  I_kl ← getitem2 I k l;
  c1 ← setitem4 c1 i j k l (c1_ijkl + I_ij * I_kl);
  c2_ijkl ← getitem4 c2 i j k l;
  I_ik ← getitem2 I i k;
  I_jl ← getitem2 I j l;
  I_il ← getitem2 I i l;
  I_jk ← getitem2 I j k;
  c2 ← setitem4 c2 i j k l (c2_ijkl + I_ik * I_jl + I_il * I_jk);
  Ok (c1, c2).

Definition IdentityTensor_loops (dimension : nat) : result IdentityTensor :=
  let I := eye dimension in
  let c1 := zeros4 dimension in
  let c2 := zeros4 dimension in
  '(c1, c2) ←
     foldM (fun acc l =>
       foldM (fun acc k =>
         foldM (fun acc j =>
           foldM (IdentityTensor_round I l k j) acc (range dimension))
           acc (range dimension))
         acc (range dimension))
       (c1, c2) (range dimension);
  Ok {| I := I; c1 := c1; c2 := c2 |}.

(** The Kronecker delta, the entry of a fourth-order array with zero for a
    position outside it, the sum of [f 0], ..., [f (n - 1)], the double
    contraction [t : A] of a fourth-order tensor with a matrix and the trace
    of a matrix. *)
Definition kron (i j : nat) : R := if Nat.eqb i j then 1 else 0.

Definition entry4 (t : tensor4) (i j k l : nat) : R :=
  default 0 (cube ← t !! i; plane ← cube !! j; row ← plane !! k; row !! l).

Definition sum_range (n : nat) (f : nat -> R) : R :=
  foldr Rplus 0 (f <$> seq 0 n).

Definition ddot (n : nat) (t : tensor4) (A : matrix) (i j : nat) : R :=
  sum_range n (fun k => sum_range n (fun l => entry4 t i j k l * entry A k l)).

Definition tr (n : nat) (A : matrix) : R := sum_range n (fun k => entry A k k).

(** The state of the loops of [IdentityTensor.__init__] between two rounds:
    [visited L K J I] holds of the positions the loops have been through when
    they are about to run round (l, k, j, i) = (L, K, J, I), and a partial
    table holds its final entry at the visited positions and zero elsewhere. *)
Definition c1_entry (n i j k l : nat) : R :=
  0 + entry (eye n) i j * entry (eye n) k l.

Definition c2_entry (n i j k l : nat) : R :=
  0 + entry (eye n) i k * entry (eye n) j l
    + entry (eye n) i l * entry (eye n) j k.

Definition at4 (i j k l i' j' k' l' : nat) : bool :=
  Nat.eqb i' i && Nat.eqb j' j && Nat.eqb k' k && Nat.eqb l' l.

Definition visited (L K J I i j k l : nat) : bool :=
  Nat.ltb l L
  || (Nat.eqb l L
      && (Nat.ltb k K
          || (Nat.eqb k K
              && (Nat.ltb j J || (Nat.eqb j J && Nat.ltb i I))))).

Definition partial_table (n : nat) (v : nat -> nat -> nat -> nat -> bool)
    (f : nat -> nat -> nat -> nat -> R) : tensor4 :=
  table4 n (fun i j k l => if v i j k l then f i j k l else 0).

Definition partial_tables (n : nat) (v : nat -> nat -> nat -> nat -> bool)
  : tensor4 * tensor4 :=
  (partial_table n v (c1_entry n), partial_table n v (c2_entry n)).

(** *** class AuxVariant and class GlobalK: every attribute starts as [None] *)

Record AuxVariant : Type := {
  aux_ngauss : option nat;
  aux_n_dofs_elem : option nat;
  aux_weight : option vec;
  aux_DN_Dchi : option tensor3;
  aux_n_nodes_element : option nat;
  aux_n_face_dofs_elem : option nat;
  aux_boundary_ngauss : option nat
}.

Definition AuxVariant_init : AuxVariant :=
  {| aux_ngauss := None; aux_n_dofs_elem := None; aux_weight := None;
     aux_DN_Dchi := None; aux_n_nodes_element := None;
     aux_n_face_dofs_elem := None; aux_boundary_ngauss := None |}.

Record GlobalK : Type := {
  indexi : option (list Z);
  indexj : option (list Z);
  counter : option Z;
  stiffness : option (list R)
}.

Definition GlobalK_init : GlobalK :=
  {| indexi := None; indexj := None; counter := None; stiffness := None |}.

(** Rebinding one attribute of a [GlobalK] object. *)
Definition set_indexi (b : list Z) (g : GlobalK) : GlobalK :=
  {| indexi := Some b; indexj := indexj g; counter := counter g;
     stiffness := stiffness g |}.
Definition set_indexj (b : list Z) (g : GlobalK) : GlobalK :=
  {| indexi := indexi g; indexj := Some b; counter := counter g;
     stiffness := stiffness g |}.
Definition set_stiffness (b : list R) (g : GlobalK) : GlobalK :=
  {| indexi := indexi g; indexj := indexj g; counter := counter g;
     stiffness := Some b |}.
Definition set_counter (c : option Z) (g : GlobalK) : GlobalK :=
  {| indexi := indexi g; indexj := indexj g; counter := c;
     stiffness := stiffness g |}.

(** *** class NLDomain

    Objects live in a heap and are referred to by their position in it.  The
    class variable [NLDomain._instance] is part of the heap. *)

Definition ref := nat.

Record NLDomainAttrs : Type := {
  fem_db : ref;
  identity_tensor : ref;
  right_hand_item : ref;
  kinematics : ref;
  plastics : ref;
  aux_variant : ref;
  global_k : ref
}.

Inductive pyobj : Type :=
| NLDomain_obj (attrs : option NLDomainAttrs)
| IdentityTensor_obj (t : IdentityTensor)
| AuxVariant_obj (a : AuxVariant)
| GlobalK_obj (g : GlobalK)
| Foreign_obj (class_name : string).

Record Heap : Type := {
  objects : list pyobj;
  _instance : option ref
}.

Definition alloc (o : pyobj) : ST Heap ref := fun h =>
  (Ok (length (objects h)),
   {| objects := objects h ++ [o]; _instance := _instance h |}).

Definition set_instance (r : ref) : ST Heap unit :=
  modify (fun h => {| objects := objects h; _instance := Some r |}).

Definition set_attrs (self : ref) (a : NLDomainAttrs) : ST Heap unit :=
  modify (fun h => {| objects := <[self := NLDomain_obj (Some a)]> (objects h);
                      _instance := _instance h |}).

(** Constructors of the classes imported from other files: [NLFEMDataBase()],
    [RightHandItem()], [Kinematics()] and [Plasticity()]. *)
Record ForeignClasses : Type := {
  NLFEMDataBase : ST Heap ref;
  RightHandItem : ST Heap ref;
  Kinematics : ST Heap ref;
  Plasticity : ST Heap ref
}.

(** A foreign class with the default [object.__new__] and an [__init__] that
    stays inside its own object. *)
Definition plain_classes : ForeignClasses :=
  {| NLFEMDataBase := alloc (Foreign_obj "NLFEMDataBase");
     RightHandItem := alloc (Foreign_obj "RightHandItem");
     Kinematics := alloc (Foreign_obj "Kinematics");
     Plasticity := alloc (Foreign_obj "Plasticity") |}.

(** [NLDomain.__new__(cls)] *)
Definition NLDomain_new : ST Heap ref := fun h =>
  match _instance h with
  | None => (r ← alloc (NLDomain_obj None); set_instance r;; mret r) h
  | Some r => (Ok r, h)
  end.

(** [NLDomain.__init__(self)]; [Dimension] is [GlobalInfor[GlobalVariant.Dimension]]. *)
Definition NLDomain_init (F : ForeignClasses) (Dimension : nat) (self : ref)
  : ST Heap unit :=
  fem_db ← NLFEMDataBase F;
  identity_tensor ← alloc (IdentityTensor_obj (IdentityTensor_init Dimension));
  right_hand_item ← RightHandItem F;
  kinematics ← Kinematics F;
  plastics ← Plasticity F;
  aux_variant ← alloc (AuxVariant_obj AuxVariant_init);
  global_k ← alloc (GlobalK_obj GlobalK_init);
  set_attrs self
    {| fem_db := fem_db; identity_tensor := identity_tensor;
       right_hand_item := right_hand_item; kinematics := kinematics;
       plastics := plastics; aux_variant := aux_variant;
       global_k := global_k |}.

(** The call [NLDomain()]: [type.__call__] runs [__new__] and, since the object
    it returns is an instance of the class, runs [__init__] on it. *)
Definition NLDomain (F : ForeignClasses) (Dimension : nat) : ST Heap ref :=
  self ← NLDomain_new;
  NLDomain_init F Dimension self;;
  mret self.

(** Attribute reads through a reference. *)
Definition attrs_of (h : Heap) (r : ref) : option NLDomainAttrs :=
  match objects h !! r with
  | Some (NLDomain_obj a) => a
  | _ => None
  end.

Definition GlobalK_of (h : Heap) (r : ref) : option GlobalK :=
  match objects h !! r with
  | Some (GlobalK_obj g) => Some g
  | _ => None
  end.

(** Foreign constructors that leave [NLDomain._instance] alone and only ever
    add objects to the heap. *)
Definition allocates_only (c : ST Heap ref) : Prop :=
  forall h r h', c h = (Ok r, h') ->
    _instance h' = _instance h /\ objects h `prefix_of` objects h'.

Definition well_behaved (F : ForeignClasses) : Prop :=
  allocates_only (NLFEMDataBase F) /\ allocates_only (RightHandItem F) /\
  allocates_only (Kinematics F) /\ allocates_only (Plasticity F).

(** [NLDomain._instance], when set, refers to an object of the heap. *)
Definition instance_in_heap (h : Heap) : Prop :=
  forall r, _instance h = Some r -> (r < length (objects h))%nat.

(** The heap of a fresh interpreter, and the heaps after the first and the
    second evaluation of [NLDomain()] in two dimensions. *)
Definition empty_heap : Heap := {| objects := []; _instance := None |}.
Definition heap_after_first : Heap := (NLDomain plain_classes 2 empty_heap).2.
Definition heap_after_second : Heap :=
  (NLDomain plain_classes 2 heap_after_first).2.

(** *** NLDomain.ChooseIncrementalAlgorithm *)

Record SolveControl : Type := {
  arcln : R;
  searc : bool
}.

(** The three solver drivers, imported from [solver/]; [W] is whatever they
    act on. *)
Record Solvers (W : Type) : Type := {
  NewtonRaphsonAlgorithm : ST W unit;
  LineSearchNewtonRaphsonAlgorithm : ST W unit;
  ArcLengthNewtonRaphsonAlgorithm : ST W unit
}.

Arguments NewtonRaphsonAlgorithm {W}.
Arguments LineSearchNewtonRaphsonAlgorithm {W}.
Arguments ArcLengthNewtonRaphsonAlgorithm {W}.

Definition ChooseIncrementalAlgorithm {W} (S : Solvers W) (CON : SolveControl)
  : ST W unit :=
  if Req_dec_T (Rabs (arcln CON)) 0 then
    if negb (searc CON) then NewtonRaphsonAlgorithm S
    else LineSearchNewtonRaphsonAlgorithm S
  else ArcLengthNewtonRaphsonAlgorithm S.

(** Drivers that only record that they ran. *)
Inductive Algorithm : Type :=
| NewtonRaphson
| LineSearchNewtonRaphson
| ArcLengthNewtonRaphson.

Definition ran (a : Algorithm) : ST (list Algorithm) unit :=
  modify (fun log => log ++ [a]).

(** Load control without line search. *)
Definition load_control : SolveControl := {| arcln := 0; searc := false |}.

Definition recording : Solvers (list Algorithm) :=
  {| NewtonRaphsonAlgorithm := ran NewtonRaphson;
     LineSearchNewtonRaphsonAlgorithm := ran LineSearchNewtonRaphson;
     ArcLengthNewtonRaphsonAlgorithm := ran ArcLengthNewtonRaphson |}.

(** *** NLDomain.initialisation *)

(** [GlobalInfor[GlobalVariant.InputFileSuffix]] *)
Inductive InputFileType : Type :=
| FlagSHyP
| OtherInputFile (suffix : string).

(** The attributes of an element group that the method reads, with
    [grp_eles_e_type] for [[e.e_type for e in grp.eles]], and what it reads of
    [fem_db.Mesh] and [fem_db.ElementGroupHash] (the items in dict order). *)
Record Group : Type := {
  grp_ngauss : nat;
  grp_n_dofs_elem : nat;
  grp_eles_e_type : list string;
  grp_nodes_count : nat;
  grp_n_face_dofs_elem : nat;
  grp_boundary_ngauss : nat
}.

Record MeshData : Type := {
  Mesh_n_dofs : nat;
  Mesh_n_nodes_elem : nat;
  ElementGroupHash : list (string * Group)
}.

(** The calls into other files, with their arguments; ghost state that
    records the order in which the method makes them. *)
Inductive InitCall : Type :=
| Call_Geom_InitX
| Call_RightHandItem_Init (n_dofs : nat)
| Call_GetElementDNDchi (e_type : string)
| Call_Kinematics_Init (Dimension n_nodes_elem : nat) (ngauss : option nat)
| Call_Geom_InitialVolume
| Call_ResidualAndStiffnessAssembly.

(** Assignments to the attributes of [self.aux_variant]. *)
Definition set_aux_ngauss (v : nat) (a : AuxVariant) : AuxVariant :=
  {| aux_ngauss := Some v; aux_n_dofs_elem := aux_n_dofs_elem a;
     aux_weight := aux_weight a; aux_DN_Dchi := aux_DN_Dchi a;
     aux_n_nodes_element := aux_n_nodes_element a;
     aux_n_face_dofs_elem := aux_n_face_dofs_elem a;
     aux_boundary_ngauss := aux_boundary_ngauss a |}.

Definition set_aux_n_dofs_elem (v : nat) (a : AuxVariant) : AuxVariant :=
  {| aux_ngauss := aux_ngauss a; aux_n_dofs_elem := Some v;
     aux_weight := aux_weight a; aux_DN_Dchi := aux_DN_Dchi a;
     aux_n_nodes_element := aux_n_nodes_element a;
     aux_n_face_dofs_elem := aux_n_face_dofs_elem a;
     aux_boundary_ngauss := aux_boundary_ngauss a |}.

Definition set_aux_weight_DN_Dchi (w : vec) (DN : tensor3) (a : AuxVariant)
  : AuxVariant :=
  {| aux_ngauss := aux_ngauss a; aux_n_dofs_elem := aux_n_dofs_elem a;
     aux_weight := Some w; aux_DN_Dchi := Some DN;
     aux_n_nodes_element := aux_n_nodes_element a;
     aux_n_face_dofs_elem := aux_n_face_dofs_elem a;
     aux_boundary_ngauss := aux_boundary_ngauss a |}.

Definition set_aux_n_nodes_element (v : nat) (a : AuxVariant) : AuxVariant :=
  {| aux_ngauss := aux_ngauss a; aux_n_dofs_elem := aux_n_dofs_elem a;
     aux_weight := aux_weight a; aux_DN_Dchi := aux_DN_Dchi a;
     aux_n_nodes_element := Some v;
     aux_n_face_dofs_elem := aux_n_face_dofs_elem a;
     aux_boundary_ngauss := aux_boundary_ngauss a |}.

Definition set_aux_n_face_dofs_elem (v : nat) (a : AuxVariant) : AuxVariant :=
  {| aux_ngauss := aux_ngauss a; aux_n_dofs_elem := aux_n_dofs_elem a;
     aux_weight := aux_weight a; aux_DN_Dchi := aux_DN_Dchi a;
     aux_n_nodes_element := aux_n_nodes_element a;
     aux_n_face_dofs_elem := Some v;
     aux_boundary_ngauss := aux_boundary_ngauss a |}.

Definition set_aux_boundary_ngauss (v : nat) (a : AuxVariant) : AuxVariant :=
  {| aux_ngauss := aux_ngauss a; aux_n_dofs_elem := aux_n_dofs_elem a;
     aux_weight := aux_weight a; aux_DN_Dchi := aux_DN_Dchi a;
     aux_n_nodes_element := aux_n_nodes_element a;
     aux_n_face_dofs_elem := aux_n_face_dofs_elem a;
     aux_boundary_ngauss := Some v |}.

(** How the body of a [for] loop ends: by falling through to the next item or
    by [break]. *)
Inductive flow : Type :=
| Continue
| Break.

Fixpoint for_each {S B} (body : B -> ST S flow) (items : list B) : ST S unit :=
  match items with
  | [] => mret tt
  | x :: rest =>
      f ← body x;
      match f with
      | Break => mret tt
      | Continue => for_each body rest
      end
  end.

Section Initialisation.

(** [W] stands for the objects of the other files that the calls work on:
    [self.fem_db], [self.right_hand_item], [self.kinematics] and whatever they
    reach. *)
Context {W : Type}.

Record Domain : Type := {
  world : W;
  aux : AuxVariant;
  calls : list InitCall
}.

(** The methods and functions of other files.  Each may raise and may change
    the objects of the other files; [GetElementDNDchi] is a static method that
    is given the element type only.  None of them is handed
    [self.aux_variant]. *)
Record InitCallees : Type := {
  Geom_InitX : W -> result unit * W;
  RightHandItem_Init : nat -> W -> result unit * W;
  GetElementDNDchi : string -> result (vec * tensor3);
  Kinematics_Init : nat -> nat -> option nat -> W -> result unit * W;
  Geom_InitialVolume : W -> result unit * W;
  run_ResidualAndStiffnessAssembly : W -> result unit * W
}.

Context (ext : InitCallees) (mesh : MeshData).

Definition call (c : InitCall) (f : W -> result unit * W) : ST Domain unit :=
  fun d =>
    let '(r, w) := f (world d) in
    (r, {| world := w; aux := aux d; calls := calls d ++ [c] |}).

Definition call_GetElementDNDchi (e_type : string)
  : ST Domain (vec * tensor3) := fun d =>
  (GetElementDNDchi ext e_type,
   {| world := world d; aux := aux d;
      calls := calls d ++ [Call_GetElementDNDchi e_type] |}).

Definition set_aux (f : AuxVariant -> AuxVariant) : ST Domain unit :=
  modify (fun d => {| world := world d; aux := f (aux d); calls := calls d |}).

(** Lines 98-105: the body of the loop over the element groups; it ends in
    [break]. *)
Definition AuxFromGroup (item : string * Group) : ST Domain flow :=
  let grp := item.2 in
  set_aux (set_aux_ngauss (grp_ngauss grp));;
  set_aux (set_aux_n_dofs_elem (grp_n_dofs_elem grp));;
  e_type ← lift (getitem (grp_eles_e_type grp) 0);
  '(weight, DN_Dchi) ← call_GetElementDNDchi e_type;
  set_aux (set_aux_weight_DN_Dchi weight DN_Dchi);;
  set_aux (set_aux_n_nodes_element (grp_nodes_count grp));;
  set_aux (set_aux_n_face_dofs_elem (grp_n_face_dofs_elem grp));;
  set_aux (set_aux_boundary_ngauss (grp_boundary_ngauss grp));;
  mret Break.

(** [NLDomain.initialisation(self)]; [InputFileSuffix] and [Dimension] are the
    entries of [GlobalInfor]. *)
Definition initialisation (InputFileSuffix : InputFileType) (Dimension : nat)
  : ST Domain unit :=
  call Call_Geom_InitX (Geom_InitX ext);;
  call (Call_RightHandItem_Init (Mesh_n_dofs mesh))
       (RightHandItem_Init ext (Mesh_n_dofs mesh));;
  match InputFileSuffix with
  | FlagSHyP => for_each AuxFromGroup (ElementGroupHash mesh)
  | OtherInputFile _ => mret tt
  end;;
  d ← get;
  call (Call_Kinematics_Init Dimension (Mesh_n_nodes_elem mesh)
          (aux_ngauss (aux d)))
       (Kinematics_Init ext Dimension (Mesh_n_nodes_elem mesh)
          (aux_ngauss (aux d)));;
  call Call_Geom_InitialVolume (Geom_InitialVolume ext);;
  call Call_ResidualAndStiffnessAssembly (run_ResidualAndStiffnessAssembly ext).

End Initialisation.

Arguments Domain : clear implicits.
Arguments InitCallees : clear implicits.

(** Concrete data for running [initialisation]: a mesh of quadrilaterals and
    triangles in two groups, a mesh whose first group has no element, callees
    that return at once, and a domain as [NLDomain.__init__] leaves it. *)
Definition quad_group : Group :=
  {| grp_ngauss := 4; grp_n_dofs_elem := 8;
     grp_eles_e_type := ["quad4"; "quad4"];
     grp_nodes_count := 4; grp_n_face_dofs_elem := 4;
     grp_boundary_ngauss := 2 |}.

Definition tria_group : Group :=
  {| grp_ngauss := 1; grp_n_dofs_elem := 6;
     grp_eles_e_type := ["tria3"];
     grp_nodes_count := 3; grp_n_face_dofs_elem := 4;
     grp_boundary_ngauss := 2 |}.

Definition empty_group : Group :=
  {| grp_ngauss := 4; grp_n_dofs_elem := 8; grp_eles_e_type := [];
     grp_nodes_count := 4; grp_n_face_dofs_elem := 4;
     grp_boundary_ngauss := 2 |}.

Definition mixed_mesh : MeshData :=
  {| Mesh_n_dofs := 12; Mesh_n_nodes_elem := 4;
     ElementGroupHash := [("1", quad_group); ("2", tria_group)] |}.

Definition hollow_mesh : MeshData :=
  {| Mesh_n_dofs := 12; Mesh_n_nodes_elem := 4;
     ElementGroupHash := [("1", empty_group); ("2", quad_group)] |}.

Definition bare_mesh : MeshData :=
  {| Mesh_n_dofs := 12; Mesh_n_nodes_elem := 4; ElementGroupHash := [] |}.

Definition quiet_callees : InitCallees unit :=
  {| Geom_InitX := fun w => (Ok tt, w);
     RightHandItem_Init := fun _ w => (Ok tt, w);
     GetElementDNDchi := fun _ => Ok ([1; 1; 1; 1], [[[0]]]);
     Kinematics_Init := fun _ _ _ w => (Ok tt, w);
     Geom_InitialVolume := fun w => (Ok tt, w);
     run_ResidualAndStiffnessAssembly := fun w => (Ok tt, w) |}.

Definition fresh_domain : Domain unit :=
  {| world := tt; aux := AuxVariant_init; calls := [] |}.

End NLDomain_py.

(** ** element/Beam.py *)

Module Beam_py.
Import np.

Inductive BeamSectionType : Type :=
| SectionI
| SectionRectangle
| SectionCircleSolid
| SectionOther (name : string).

(** Python floats.  [x / y] raises [ZeroDivisionError] for a zero divisor, and
    [pow(x, n)], also written [x ** n], raises [OverflowError] when the power
    lies beyond the largest float, while a power too small for a float is
    [0.0] (and makes a later division by it raise).  These are the
    operations of the section calculators that can raise.  Apart from the
    range of the powers the arithmetic is that of the real numbers: rounding
    is outside the model, and so are the sums, products and quotients that
    leave the range, which give [inf], [nan] or [0.0] without raising. *)
Definition float_max : R := (2 - / 2 ^ 52) * 2 ^ 1023.
Definition float_tiny : R := / 2 ^ 1075.

Definition fdiv (x y : R) : result R :=
  if Req_dec_T y 0 then Raise ZeroDivisionError else Ok (x / y).

Definition fpow (x : R) (n : nat) : result R :=
  if Rlt_dec float_max (Rabs (x ^ n)) then Raise OverflowError
  else if Rle_dec (Rabs (x ^ n)) float_tiny then Ok 0
  else Ok (x ^ n).

(** [assert cond] *)
Definition assert (cond : bool) : result unit :=
  if cond then Ok tt else Raise AssertionError.

(** [BeamCalculator.CalculateMomentOfInertiaOfArea]; the dict it returns is
    keyed by [SectionKey.It], [SectionKey.Is] and [SectionKey.Tor].  The
    powers and divisions are bound in the order in which Python evaluates
    them. *)
Definition CalculateMomentOfInertiaOfArea (sec_type : BeamSectionType)
    (sec_data : list R) : result (gmap string R) :=
  match sec_type with
  | SectionI =>
      assert (Nat.eqb (length sec_data) 6);;
      let w := nth 0 sec_data 0 in
      let h := nth 2 sec_data 0 in
      let tf := nth 3 sec_data 0 in
      let tw := nth 5 sec_data 0 in
      h3 ← fpow h 3;
      e3 ← fpow (h - 2 * tf) 3;
      let It := w * h3 / 12 - (w - tw) * e3 / 12 in
      tw3 ← fpow tw 3;
      w3 ← fpow w 3;
      let Is := (h - 2 * tf) * tw3 / 12 + tf * w3 / 6 in
      let a := nth 0 sec_data 0 in
      let b := nth 3 sec_data 0 in
      let c := nth 2 sec_data 0 - 2 * nth 3 sec_data 0 in
      let d := nth 5 sec_data 0 in
      b3 ← fpow b 3;
      b4 ← fpow b 4;
      b8 ← fpow b 8;
      a4 ← fpow a 4;
      q ← fdiv (175 / 10000 * b8) a4;
      let K1 := a * b3 / 3 - 21 / 100 * b4 - q in
      d3 ← fpow d 3;
      let K2 := c * d3 / 3 in
      b2 ← fpow b 2;
      D ← fdiv (b2 + d * d * (25 / 100)) b;
      alpha ← (if Rlt_dec b d
               then r ← fdiv b d; Ok (r * (15 / 100))
               else r ← fdiv d b; Ok (r * (15 / 100)));
      D4 ← fpow D 4;
      let Torsional := 2 * K1 + K2 + 2 * alpha * D4 in
      Ok (<["SectionKey.It" := It]> (<["SectionKey.Is" := Is]>
            (<["SectionKey.Tor" := Torsional]> ∅)))
  | SectionRectangle =>
      assert (Nat.eqb (length sec_data) 2);;
      let a := Rmax (nth 0 sec_data 0) (nth 1 sec_data 0) in
      let b := Rmin (nth 0 sec_data 0) (nth 1 sec_data 0) in
      b3 ← fpow b 3;
      let It := b3 * a / 12 in
      a3 ← fpow a 3;
      let Is := a3 * b / 12 in
      Torsional ← (if Req_dec_T a b
                   then a4 ← fpow a 4; Ok (9 * a4 / 64)
                   else b3 ← fpow b 3;
                        q ← fdiv (336 / 100 * b) a;
                        r ← fdiv b a;
                        r4 ← fpow r 4;
                        Ok (a * b3 * (16 / 3 - q * (1 - r4 / 12)) / 16));
      Ok (<["SectionKey.It" := It]> (<["SectionKey.Is" := Is]>
            (<["SectionKey.Tor" := Torsional]> ∅)))
  | SectionCircleSolid =>
      assert (Nat.eqb (length sec_data) 1);;
      x4 ← fpow (nth 0 sec_data 0) 4;
      let I := 25 / 100 * PI * x4 in
      let Torsional := I * 2 in
      Ok (<["SectionKey.It" := I]> (<["SectionKey.Is" := I]>
            (<["SectionKey.Tor" := Torsional]> ∅)))
  | SectionOther _ => Raise (SystemExit 1)
  end.

(** The attributes of a [Beam188] object that [ElementStiffness] reads. *)
Record Beam188 : Type := {
  node_coords : matrix;
  cha_dict : gmap string R;
  sec_type : BeamSectionType;
  sec_data : list R
}.

(** [a.shape == (m, n)] *)
Definition has_shape (a : matrix) (m n : nat) : bool :=
  Nat.eqb (length a) m && forallb (fun row : vec => Nat.eqb (length row) n) a.

(** [np.diff(a, axis=0)]: differences of consecutive rows. *)
Fixpoint diff0 (a : matrix) : matrix :=
  match a with
  | r0 :: (r1 :: _) as rest => zip_with Rminus r1 r0 :: diff0 rest
  | _ => []
  end.

(** [E * I] with [E] a float and [I] a dict: no such operation. *)
Definition float_times_dict (x : R) (d : gmap string R) : result R :=
  Raise TypeError.

(** [np.zeros(12, 12)]: the second positional argument is the dtype, and 12
    is not one. *)
Definition zeros_with_dtype (shape dtype : nat) : result matrix :=
  Raise TypeError.

(** [K[i, j] = x] on a 2-D array *)
Definition setitem2 (K : matrix) (i j : nat) (x : R) : result matrix :=
  row ← getitem K i;
  _ ← getitem row j;
  Ok (<[i := <[j := x]> row]> K).

(** [a, b, c = v] *)
Definition unpack3 (v : vec) : result (R * R * R) :=
  match v with
  | [a; b; c] => Ok (a, b, c)
  | _ => Raise ValueError
  end.

Section ElementStiffness.

(** [BeamCalculator.GetEquivalentCoff] is called but the class as defined in
    this file has no such attribute (the call raises [AttributeError]); the
    model leaves it open so that statements do not depend on it. *)
Variable GetEquivalentCoff : BeamSectionType -> result (R * R).

(** [Beam188.ElementStiffness]: the result is the value the call evaluates to,
    [None] standing for Python's [None]. *)
Definition ElementStiffness (self : Beam188) : result (option matrix) :=
  assert (has_shape (node_coords self) 3 3);;
  delta ← getitem (diff0 (node_coords self)) 0;
  E ← dict_getitem (cha_dict self) "MaterialKey.E";
  A ← dict_getitem (cha_dict self) "PropertyKey.ThicknessOrArea";
  G ← dict_getitem (cha_dict self) "MaterialKey.G";
  let L := sqrt (dot delta delta) in
  I ← CalculateMomentOfInertiaOfArea (sec_type self) (sec_data self);
  '(k1, k2) ← GetEquivalentCoff (sec_type self);
  EI ← float_times_dict E I;
  let EA_L := EI / L in
  let GA_kL := G * A / (k1 * L) in
  let GA_2K := G * A * (5 / 10) / k1 in
  let GAL_4k := G * A * L * (25 / 100) / k1 in
  K ← zeros_with_dtype 12 12;
  K ← setitem2 K 0 0 EA_L;
  K ← setitem2 K 0 6 (- EA_L);
  K ← setitem2 K 6 0 (- EA_L);
  K ← setitem2 K 6 6 EA_L;
  let Tor := 3 in
  K ← setitem2 K 3 3 Tor;
  K ← setitem2 K 3 9 (- Tor);
  let Ks := [[GA_kL; GA_2K; - GA_kL; GA_2K];
             [GA_2K; GAL_4k; - GA_2K; GAL_4k];
             [- GA_kL; - GA_2K; GA_kL; - GA_2K];
             [GA_2K; GAL_4k; - GA_2K; GAL_4k]] in
  let Kb := [[0; 0; 0; 0];
             [0; EA_L; 0; - EA_L];
             [0; 0; 0; 0];
             [0; - EA_L; 0; EA_L]] in
  K ← add2 Ks Kb;
  '(Cx, Cy, Cz) ← unpack3 ((fun x => x / L) <$> delta);
  '(Cx, Cy, Cz) ← unpack3 ((fun x => x / L) <$> delta);
  '(Cx, Cy, Cz) ← unpack3 ((fun x => x / L) <$> delta);
  Ok None.

End ElementStiffness.

(** [BeamCalculator.CalEffectiveShearArea]; the dict it returns is keyed by
    [SectionKey.Area], [SectionKey.Is] and [SectionKey.It]. *)
Definition CalEffectiveShearArea (sec_type : BeamSectionType)
    (sec_data : list R) : result (gmap string R) :=
  match sec_type with
  | SectionRectangle =>
      assert (Nat.eqb (length sec_data) 2);;
      let Area := nth 0 sec_data 0 * nth 1 sec_data 0 in
      let E_Area := 5 / 6 * nth 0 sec_data 0 * nth 1 sec_data 0 in
      Ok (<["SectionKey.Area" := Area]> (<["SectionKey.Is" := E_Area]>
            (<["SectionKey.It" := E_Area]> ∅)))
  | SectionCircleSolid =>
      assert (Nat.eqb (length sec_data) 1);;
      x2 ← fpow (nth 0 sec_data 0) 2;
      let Area := PI * x2 in
      x2 ← fpow (nth 0 sec_data 0) 2;
      let E_Area := 9 / 10 * PI * x2 in
      Ok (<["SectionKey.Area" := Area]> (<["SectionKey.Is" := E_Area]>
            (<["SectionKey.It" := E_Area]> ∅)))
  | SectionI =>
      assert (Nat.eqb (length sec_data) 6);;
      let h := nth 2 sec_data 0 - 2 * nth 3 sec_data 0 in
      let Area :=
        2 * nth 0 sec_data 0 * nth 3 sec_data 0 + h * nth 5 sec_data 0 in
      let E_Area_t := nth 0 sec_data 0 * nth 5 sec_data 0 in
      let E_Area_s := 5 / 6 * (2 * nth 0 sec_data 0 * nth 3 sec_data 0) in
      Ok (<["SectionKey.Area" := Area]> (<["SectionKey.Is" := E_Area_t]>
            (<["SectionKey.It" := E_Area_s]> ∅)))
  | SectionOther _ => Raise (SystemExit 1)
  end.

(** The class [BeamCalculator] of this file has the two static methods above
    and no other attribute, so the expression
    [BeamCalculator.GetEquivalentCoff] raises before anything is called. *)
Definition BeamCalculator_GetEquivalentCoff (sec_type : BeamSectionType)
  : result (R * R) := Raise AttributeError.

(** A [Beam189] object carries the attributes of a [Beam188] object as far as
    [ElementStiffness] reads them. *)
Abbreviation Beam189 := Beam188.

Section Beam189_ElementStiffness.

(** The two functions that are called but not defined in this file:
    [BeamCalculator.GetEquivalentCoff] (see above) and
    [GaussIntegrationPoint.GetSamplePointAndWeight], imported from
    [element/ElementBase.py]. *)
Variable GetEquivalentCoff : BeamSectionType -> result (R * R).
Variable GetSamplePointAndWeight : nat -> result (vec * vec).

(** Lines 234-246: one round of the loop over the two sample points. *)
Definition Beam189_GaussRound (L : R) (spt weight : vec) (K : matrix) (i : nat)
  : result matrix :=
  spt_i ← getitem spt i;
  let Ks1 := 2 * spt_i / L - 1 / L in
  let Ks2 := spt_i - 1 / 12 in
  let Ks3 := - 4 * spt_i / L in
  let Ks4 := - 2 / 3 in
  let Ks5 := 1 / L + 2 * spt_i / L in
  let Ks6 := - 1 / 6 - spt_i * (5 / 10) in
  let Ks := [[Ks1 * Ks1; Ks1 * Ks2; Ks1 * Ks3; Ks1 * Ks4; Ks1 * Ks5; Ks1 * Ks6];
             [Ks2 * Ks1; Ks2 * Ks2; Ks2 * Ks3; Ks2 * Ks4; Ks2 * Ks5; Ks2 * Ks6];
             [Ks3 * Ks1; Ks3 * Ks2; Ks3 * Ks3; Ks3 * Ks4; Ks3 * Ks5; Ks3 * Ks6];
             [Ks4 * Ks1; Ks4 * Ks2; Ks4 * Ks3; Ks4 * Ks4; Ks4 * Ks5; Ks4 * Ks6];
             [Ks5 * Ks1; Ks5 * Ks2; Ks5 * Ks3; Ks5 * Ks4; Ks5 * Ks5; Ks5 * Ks6];
             [Ks6 * Ks1; Ks6 * Ks2; Ks6 * Ks3; Ks6 * Ks4; Ks6 * Ks5; Ks6 * Ks6]] in
  weight_i ← getitem weight i;
  iadd2 K (scale2 weight_i Ks).

(** [Beam189.ElementStiffness] *)
Definition Beam189_ElementStiffness (self : Beam189) : result matrix :=
  assert (has_shape (node_coords self) 4 3);;
  delta ← getitem (diff0 (node_coords self)) 0;
  E ← dict_getitem (cha_dict self) "MaterialKey.E";
  A ← dict_getitem (cha_dict self) "PropertyKey.ThicknessOrArea";
  G ← dict_getitem (cha_dict self) "MaterialKey.G";
  let L := sqrt (dot delta delta) in
  I ← CalculateMomentOfInertiaOfArea (sec_type self) (sec_data self);
  k ← GetEquivalentCoff (sec_type self);
  '(spt, weight) ← GetSamplePointAndWeight 2;
  let K := zeros2 6 6 in
  K ← foldM (Beam189_GaussRound L spt weight) K (range 2);
  '(Cx, Cy, Cz) ← unpack3 ((fun x => x / L) <$> delta);
  let Cx2 := Cx ^ 2 in
  let Cy2 := Cy ^ 2 in
  let Cz2 := Cz ^ 2 in
  let CxCy := Cx * Cy in
  let CxCz := Cx * Cz in
  let CyCz := Cy * Cz in
  Ok (scale2 (E * A / L)
        [[Cx2; CxCy; CxCz; - Cx2; - CxCy; - CxCz];
         [CxCy; Cy2; CyCz; - CxCy; - Cy2; - CyCz];
         [CxCz; CyCz; Cz2; - CxCz; - CyCz; - Cz2];
         [- Cx2; - CxCy; - CxCz; Cx2; CxCy; CxCz];
         [- CxCy; - Cy2; - CyCz; CxCy; Cy2; CyCz];
         [- CxCz; - CyCz; - Cz2; CxCz; CyCz; Cz2]]).

End Beam189_ElementStiffness.

(** Concrete data: a beam of length 2 along the x axis with a solid circular
    section, as a [Beam189] (end nodes, middle node, direction node) and as a
    [Beam188] (end nodes, direction node); stand-ins for the two functions
    that this file does not define. *)
Definition steel_bar : gmap string R :=
  <["MaterialKey.E" := 210]>
    (<["PropertyKey.ThicknessOrArea" := 3]> {["MaterialKey.G" := 80]}).

Definition beam189_x : Beam189 :=
  {| node_coords := [[0; 0; 0]; [2; 0; 0]; [1; 0; 0]; [1; 1; 0]];
     cha_dict := steel_bar;
     sec_type := SectionCircleSolid;
     sec_data := [1] |}.

Definition beam188_x : Beam188 :=
  {| node_coords := [[0; 0; 0]; [2; 0; 0]; [1; 1; 0]];
     cha_dict := steel_bar;
     sec_type := SectionCircleSolid;
     sec_data := [1] |}.

Definition unit_coff (sec_type : BeamSectionType) : result (R * R) :=
  Ok (1, 1).

Definition two_points (n : nat) : result (vec * vec) :=
  Ok ([- 1; 1], [1; 1]).

End Beam_py.

(** ** element_calculation/ElementForceAndStiffness.py *)

Module EFS.
Import np.
Export NLDomain_py(GlobalK, IdentityTensor, I, c1, c2).

(** A material object: its class is, or derives from,
    [HyperElasticPlasticInPrincipal] or not. *)
Record Material : Type := {
  GetName : string;
  isinstance_HyperElasticPlasticInPrincipal : bool;
  value_dict : gmap string R
}.

Record PlasticDeformationState : Type := {
  epbar : vec;
  invCp : tensor3
}.

Record ElementInfo : Type := {
  n_dofs_elem : nat;
  n_nodes_elem : nat;
  ngauss : nat
}.

(** The attributes of an element group read by the evaluation;
    [grp.quadrature.element_w] and [grp.interpolation.quadrature.element_w]
    are reached through different objects and are kept apart. *)
Record ElementGroup : Type := {
  element_info : ElementInfo;
  interpolation_element_DN_chi : tensor3;
  quadrature_element_w : vec;
  interpolation_quadrature_element_w : vec;
  global_plasticity_epbar : matrix;
  global_plasticity_invCp : tensor4
}.

Record Element : Type := {
  node_ids : list Z
}.

(** The conditionals of the function, by source line, and the calls that hand
    stiffness terms to the assembly helpers.  The trace is ghost state: it
    records which arm ran and what the helpers were given. *)
Inductive event : Type :=
| Arm (line : nat) (taken : bool)
| Call_ConstitutiveMatrix (igauss : nat) (c : tensor4) (JW : R)
| Call_GeometricMatrix (DN_sigma_DN : matrix) (JW : R).

Section Evaluation.

(** [PlastGauss] is the type of the Gauss-point plastic data returned by the
    constitutive law; [KinOther] stands for the attributes of the kinematics
    object that this file does not read. *)
Context {PlastGauss KinOther : Type}.

Record Kinematics : Type := {
  Jx_chi : vec;
  DN_Dx : tensor3;
  kin_other : KinOther
}.

(** The shared objects the call works on: [fem_db.kinematics], the triplet
    store [fem_db.global_k] (whose three buffers the module also knows as
    [element_indexi], [element_indexj] and [element_stiffness]) and the
    trace. *)
Record Store : Type := {
  KINEMATICS : Kinematics;
  GLOBAL_K : GlobalK;
  trace : list event
}.

(** What is read but never written: the module constant [dim] (also the value
    of [GetDomainDimension()]), the material table, the identity tensors and
    the DOF map of the mesh, a 2-D table with one column per node that is
    either an [ndarray] or an [np.matrix]. *)
Record Database : Type := {
  dim : nat;
  Material_Mat : gmap Z Material;
  IDENTITY_TENSOR : IdentityTensor;
  MESH_dof_nodes : list (list Z);
  MESH_dof_nodes_is_matrix : bool
}.

(** Functions imported from files outside this development.  The kinematics
    update may change the kinematics object, the constitutive law may update
    the plastic state of the element, the two assembly helpers may change the
    triplet store; none of them touches anything else of the store, and any
    of them may raise. *)
Record Callees : Type := {
  ComputeGradients :
    matrix -> matrix -> tensor3 -> Kinematics -> result unit * Kinematics;
  CauchyTypeSelection :
    PlasticDeformationState -> nat -> Material -> Kinematics ->
    result (matrix * PlastGauss * PlasticDeformationState);
  ElasticityModulusSelection :
    PlasticDeformationState -> PlastGauss -> nat -> Z -> Kinematics ->
    result tensor4;
  ConstitutiveMatrix :
    ElementGroup -> Element -> nat -> tensor4 -> R -> Kinematics ->
    GlobalK -> result unit * GlobalK;
  GeometricMatrix :
    ElementGroup -> Element -> matrix -> R -> Kinematics ->
    GlobalK -> result unit * GlobalK
}.

Context (db : Database) (ext : Callees).

Definition mark (e : event) : ST Store unit :=
  modify (fun s => {| KINEMATICS := KINEMATICS s; GLOBAL_K := GLOBAL_K s;
                      trace := trace s ++ [e] |}).

Definition set_GLOBAL_K (g : GlobalK) : ST Store unit :=
  modify (fun s => {| KINEMATICS := KINEMATICS s; GLOBAL_K := g;
                      trace := trace s |}).

Definition call_ComputeGradients (xlocal Xlocal : matrix) (DN_chi : tensor3)
  : ST Store unit := fun s =>
  let '(r, k) := ComputeGradients ext xlocal Xlocal DN_chi (KINEMATICS s) in
  (r, {| KINEMATICS := k; GLOBAL_K := GLOBAL_K s; trace := trace s |}).

Definition call_ConstitutiveMatrix (grp : ElementGroup) (ele : Element)
    (igauss : nat) (c : tensor4) (JW : R) : ST Store unit := fun s =>
  let '(r, g) :=
    ConstitutiveMatrix ext grp ele igauss c JW (KINEMATICS s) (GLOBAL_K s) in
  (r, {| KINEMATICS := KINEMATICS s; GLOBAL_K := g;
         trace := trace s ++ [Call_ConstitutiveMatrix igauss c JW] |}).

Definition call_GeometricMatrix (grp : ElementGroup) (ele : Element)
    (DN_sigma_DN : matrix) (JW : R) : ST Store unit := fun s =>
  let '(r, g) :=
    GeometricMatrix ext grp ele DN_sigma_DN JW (KINEMATICS s) (GLOBAL_K s) in
  (r, {| KINEMATICS := KINEMATICS s; GLOBAL_K := g;
         trace := trace s ++ [Call_GeometricMatrix DN_sigma_DN JW] |}).

(** [KINEMATICS.Jx_chi[ii] * element_w[ii]]: the integration multiplier of a
    Gauss point, the determinant of the Jacobian times the quadrature
    weight. *)
Definition integration_multiplier (KIN : Kinematics) (element_w : vec)
    (ii : nat) : result R :=
  Jx ← getitem (Jx_chi KIN) ii;
  w ← getitem element_w ii;
  Ok (Jx * w).

(** Lines 46-53: one round of the loop that accumulates the deformed volume
    and the volume-weighted shape derivatives. *)
Definition MeanLoopBody (grp : ElementGroup) (acc : R * matrix) (ii : nat)
  : ST Store (R * matrix) :=
  let '(ve, DN_x_mean) := acc in
  s ← get;
  JW ← lift (integration_multiplier (KINEMATICS s)
               (quadrature_element_w grp) ii);
  let ve := ve + JW in
  DN_chi_ii ← lift (slice3 (interpolation_element_DN_chi grp) ii);
  DN_x_mean ← lift (iadd2 DN_x_mean (rscale2 DN_chi_ii JW));
  mret (ve, DN_x_mean).

(** Lines 43-69: mean dilatation kinematics, pressure and bulk modulus.
    Returns [(DN_x_mean, ve, kappa_bar, press)]. *)
Definition MeanDilatation (mat : Material) (grp : ElementGroup) (Ve : R)
  : ST Store (matrix * R * R * R) :=
  let grp_ele_info := element_info grp in
  if isinstance_HyperElasticPlasticInPrincipal mat then
    mark (Arm 43 true);;
    let DN_x_mean := zeros2 (dim db) (n_nodes_elem grp_ele_info) in
    let ve := 0 in
    '(ve, DN_x_mean) ←
       foldM (MeanLoopBody grp) (ve, DN_x_mean) (range (ngauss grp_ele_info));
    let DN_x_mean := div2 DN_x_mean ve in
    let Jbar := ve / Ve in
    if isinstance_HyperElasticPlasticInPrincipal mat then
      mark (Arm 60 true);;
      kappa ← lift (dict_getitem (value_dict mat) "MaterialKey.Kappa");
      let press := kappa * ln Jbar / Jbar in
      let kappa_bar := kappa / Jbar - press in
      mret (DN_x_mean, ve, kappa_bar, press)
    else
      mark (Arm 60 false);;
      let kappa_bar := 0 in
      let press := 0 in
      mret (DN_x_mean, ve, kappa_bar, press)
  else
    mark (Arm 43 false);;
    raise (NoImplSuchMaterial (GetName mat)).

(** Lines 78-83: the plastic state of the element, read out of the arrays of
    the group. *)
Definition ElementPlasticState (mat : Material) (grp : ElementGroup)
    (ele_idx : Z) : ST Store PlasticDeformationState :=
  if isinstance_HyperElasticPlasticInPrincipal mat then
    mark (Arm 78 true);;
    epbar ← lift (colZ (global_plasticity_epbar grp) ele_idx);
    invCp ← lift (slice4Z (global_plasticity_invCp grp) ele_idx);
    mret {| epbar := epbar; invCp := invCp |}
  else
    mark (Arm 78 false);;
    raise (NoImplSuchMaterial (GetName mat)).

(** Lines 88-123: one round of the Gauss quadrature loop. *)
Definition GaussLoopBody (mat : Material) (mat_id : Z) (grp : ElementGroup)
    (ele : Element) (press : R)
    (acc : vec * PlasticDeformationState) (igauss : nat)
  : ST Store (vec * PlasticDeformationState) :=
  let '(T_internal, PLAST_element) := acc in
  s ← get;
  let KIN := KINEMATICS s in
  '(Cauchy, PLAST_gauss, PLAST_element) ←
     lift (CauchyTypeSelection ext PLAST_element igauss mat KIN);
  c ← lift (ElasticityModulusSelection ext PLAST_element PLAST_gauss igauss
              mat_id KIN);
  Cauchy ← lift (add2 Cauchy (scale2 press (I (IDENTITY_TENSOR db))));
  c1_c2 ← lift (sub4 (c1 (IDENTITY_TENSOR db)) (c2 (IDENTITY_TENSOR db)));
  c ← lift (add4 c (scale4 press c1_c2));
  JW ← lift (integration_multiplier KIN
               (interpolation_quadrature_element_w grp) igauss);
  DN ← lift (slice3 (DN_Dx KIN) igauss);
  T ← lift (matmul Cauchy DN);
  T_internal ← lift (iadd1 T_internal (flatten (transpose T)));
  call_ConstitutiveMatrix grp ele igauss c JW;;
  sigma_DN ← lift (matmul Cauchy DN);
  DN_sigma_DN ← lift (matmul (transpose DN) sigma_DN);
  call_GeometricMatrix grp ele DN_sigma_DN JW;;
  mret (T_internal, PLAST_element).

(** [buf[counter:counter + dim ** 2, 0] = v] on one of the three buffers. *)
Definition write_block {A} (buf : option (list A)) (counter : option Z)
    (v : list A) : result (list A) :=
  match counter, buf with
  | Some c, Some b => slice_assign b c (c + Z.of_nat (dim db ^ 2)) v
  | _, _ => Raise TypeError
  end.

(** [counter += dim ** 2] on the local variable. *)
Definition advance (counter : option Z) : result (option Z) :=
  match counter with
  | Some c => Ok (Some (c + Z.of_nat (dim db ^ 2))%Z)
  | None => Raise TypeError
  end.

(** [MESH.dof_nodes[:, k]] *)
Definition dof_column (k : Z) : result (column Z) :=
  v ← colZ (MESH_dof_nodes db) k;
  Ok (if MESH_dof_nodes_is_matrix db then Upright v else Flat v).

(** Lines 133-140 and the right-hand sides of lines 143, 146 and 149: the
    row indices, column indices and values of the block of the node pair
    (anode, bnode). *)
Definition PairTriplets (ele : Element) (DN_x_mean : matrix) (ve kappa_bar : R)
    (bnode anode : nat) : result (list Z * list Z * list R) :=
  DN_a ← col DN_x_mean anode;
  DN_b ← col DN_x_mean bnode;
  let DN_x_meana_DN_x_meanb := outer DN_a DN_b in
  node_a ← getitem (node_ids ele) anode;
  indexi ← dof_column (node_a - 1);
  let indexi := tile_1 indexi (dim db) in
  node_b ← getitem (node_ids ele) bnode;
  indexj ← dof_column (node_b - 1);
  let indexj := tile_1 indexj (dim db) in
  let indexj := transpose indexj in
  Ok (flatten indexi, flatten indexj,
      scale1 (kappa_bar * ve) (flatten DN_x_meana_DN_x_meanb)).

(** Lines 133-151: the block of one node pair is written into the three
    buffers at the position held by the local variable [counter], which is
    then advanced; the new value of the local variable is returned. *)
Definition PairBlock (ele : Element) (DN_x_mean : matrix) (ve kappa_bar : R)
    (bnode : nat) (counter : option Z) (anode : nat) : ST Store (option Z) :=
  '(rows, cols, values) ←
     lift (PairTriplets ele DN_x_mean ve kappa_bar bnode anode);
  s ← get;
  bi ← lift (write_block (NLDomain_py.indexi (GLOBAL_K s)) counter rows);
  set_GLOBAL_K (NLDomain_py.set_indexi bi (GLOBAL_K s));;
  s ← get;
  bj ← lift (write_block (NLDomain_py.indexj (GLOBAL_K s)) counter cols);
  set_GLOBAL_K (NLDomain_py.set_indexj bj (GLOBAL_K s));;
  s ← get;
  bs ← lift (write_block (NLDomain_py.stiffness (GLOBAL_K s)) counter values);
  set_GLOBAL_K (NLDomain_py.set_stiffness bs (GLOBAL_K s));;
  lift (advance counter).



(** [MESH.dof_nodes[i, node - 1]]: degree of freedom [i] of the node numbered
    [node]. *)
Definition dof_of_node (i : nat) (node : Z) : result Z :=
  row ← getitem (MESH_dof_nodes db) i; getitemZ row (node - 1).


(** The integration multipliers [Jx_chi[ii] * element_w[ii]] of the first [n]
    Gauss points, and the sum [gs[0] * JWs[0] + gs[1] * JWs[1] + ...] built
    from the left, starting at zero, as the loops of the function build
    their sums. *)
Definition gauss_multipliers (KIN : Kinematics) (element_w : vec) (n : nat)
  : vec :=
  zip_with Rmult (take n (Jx_chi KIN)) (take n element_w).


(** What a sequence of calls of the two assembly helpers can make of the
    triplet store [g], whatever their arguments and whether they return or
    raise. *)
Inductive helper_moves (g : GlobalK) : GlobalK -> Prop :=
| moves_none : helper_moves g g
| moves_ConstitutiveMatrix g1 g2 grp ele igauss c JW kin r :
    helper_moves g g1 ->
    ConstitutiveMatrix ext grp ele igauss c JW kin g1 = (r, g2) ->
    helper_moves g g2
| moves_GeometricMatrix g1 g2 grp ele DN_sigma_DN JW kin r :
    helper_moves g g1 ->
    GeometricMatrix ext grp ele DN_sigma_DN JW kin g1 = (r, g2) ->
    helper_moves g g2.


(** Lines 129-151: the mean dilatation term of the stiffness matrix. *)
Definition MeanDilatationStiffness (mat : Material) (grp : ElementGroup)
    (ele : Element) (DN_x_mean : matrix) (ve kappa_bar : R) : ST Store unit :=
  let grp_ele_info := element_info grp in
  s ← get;
  let counter := NLDomain_py.counter (GLOBAL_K s) in
  if isinstance_HyperElasticPlasticInPrincipal mat then
    mark (Arm 130 true);;
    foldM (fun counter bnode =>
             foldM (PairBlock ele DN_x_mean ve kappa_bar bnode) counter
                   (range (n_nodes_elem grp_ele_info)))
          counter (range (n_nodes_elem grp_ele_info));;
    mret tt
  else
    mark (Arm 130 false);;
    mret tt.

(** The function itself. *)
Definition ElementForceAndStiffness (xlocal Xlocal : matrix) (mat_id : Z)
    (Ve : R) (ele : Element) (grp : ElementGroup) (ele_idx : Z)
  : ST Store (vec * PlasticDeformationState) :=
  let grp_ele_info := element_info grp in
  let T_internal := zeros (n_dofs_elem grp_ele_info) in
  call_ComputeGradients xlocal Xlocal (interpolation_element_DN_chi grp);;
  mat ← lift (of_option KeyError (Material_Mat db !! mat_id));
  '(DN_x_mean, ve, kappa_bar, press) ← MeanDilatation mat grp Ve;
  PLAST_element ← ElementPlasticState mat grp ele_idx;
  '(T_internal, PLAST_element) ←
     foldM (GaussLoopBody mat mat_id grp ele press)
           (T_internal, PLAST_element) (range (ngauss grp_ele_info));
  MeanDilatationStiffness mat grp ele DN_x_mean ve kappa_bar;;
  mret (T_internal, PLAST_element).

(** The trace of [s'] is the trace of [s] followed by events that satisfy
    [P]. *)
Definition extends (P : event -> Prop) (s s' : Store) : Prop :=
  exists evs, trace s' = trace s ++ evs /\ Forall P evs.

(** The events of the Gauss loop: calls of the two assembly helpers. *)
Definition is_call (e : event) : Prop :=
  match e with
  | Arm _ _ => False
  | _ => True
  end.

(** What the helper calls of the Gauss loop are handed when the pressure is
    [press]: the elasticity tensor of the constitutive law plus
    [press * (c1 - c2)], and the product of the shape derivatives with the
    Cauchy stress of the constitutive law plus [press * I]. *)
Definition pressure_added (mat : Material) (mat_id : Z) (press : R)
    (KIN : Kinematics) (e : event) : Prop :=
  match e with
  | Arm _ _ => True
  | Call_ConstitutiveMatrix igauss c JW =>
      exists P PG c0 c1_c2,
        ElasticityModulusSelection ext P PG igauss mat_id KIN = Ok c0 /\
        sub4 (c1 (IDENTITY_TENSOR db)) (c2 (IDENTITY_TENSOR db)) = Ok c1_c2 /\
        add4 c0 (scale4 press c1_c2) = Ok c
  | Call_GeometricMatrix DN_sigma_DN JW =>
      exists igauss P Cauchy0 PG P' Cauchy DN sigma_DN,
        CauchyTypeSelection ext P igauss mat KIN = Ok (Cauchy0, PG, P') /\
        add2 Cauchy0 (scale2 press (I (IDENTITY_TENSOR db))) = Ok Cauchy /\
        slice3 (DN_Dx KIN) igauss = Ok DN /\
        matmul Cauchy DN = Ok sigma_DN /\
        matmul (transpose DN) sigma_DN = Ok DN_sigma_DN
  end.

Definition constitutive_call_index (e : event) : option nat :=
  match e with
  | Call_ConstitutiveMatrix igauss _ _ => Some igauss
  | _ => None
  end.

(** The vector that round [igauss] of the Gauss loop adds to [T_internal],
    together with the integration multiplier of the Gauss point: the
    pressure-corrected Cauchy stress times the shape derivatives, flattened
    node by node. *)
Definition round_force (mat : Material) (grp : ElementGroup) (press : R)
    (KIN : Kinematics) (igauss : nat) (tw : vec * R) : Prop :=
  exists P Cauchy0 PG P' Cauchy DN T,
    CauchyTypeSelection ext P igauss mat KIN = Ok (Cauchy0, PG, P') /\
    add2 Cauchy0 (scale2 press (I (IDENTITY_TENSOR db))) = Ok Cauchy /\
    slice3 (DN_Dx KIN) igauss = Ok DN /\
    matmul Cauchy DN = Ok T /\
    tw.1 = flatten (transpose T) /\
    integration_multiplier KIN (interpolation_quadrature_element_w grp) igauss
      = Ok tw.2.

(** [T_internal] after the rounds have added their vectors, as the code adds
    them, and as a Gauss-weighted sum would add them. *)
Definition plain_sum (T0 : vec) (tws : list (vec * R)) : result vec :=
  foldM (fun T tw => iadd1 T tw.1) T0 tws.

Definition weighted_sum (T0 : vec) (tws : list (vec * R)) : result vec :=
  foldM (fun T tw => iadd1 T (scale1 tw.2 tw.1)) T0 tws.

(** The arguments of one call of [ElementForceAndStiffness]. *)
Record ElementCall : Type := {
  call_xlocal : matrix;
  call_Xlocal : matrix;
  call_mat_id : Z;
  call_Ve : R;
  call_ele : Element;
  call_grp : ElementGroup;
  call_ele_idx : Z
}.

Definition run_call (e : ElementCall)
  : ST Store (vec * PlasticDeformationState) :=
  ElementForceAndStiffness (call_xlocal e) (call_Xlocal e) (call_mat_id e)
    (call_Ve e) (call_ele e) (call_grp e) (call_ele_idx e).


(** The two assembly helpers move the shared cursor by a fixed number of
    entries per call, [cm grp] for the constitutive and [gm grp] for the
    geometric term. *)
Definition cursor_steps (cm gm : ElementGroup -> Z) : Prop :=
  (forall grp ele igauss c JW kin g g',
     ConstitutiveMatrix ext grp ele igauss c JW kin g = (Ok tt, g') ->
     NLDomain_py.counter g' =
       (fun k => (k + cm grp)%Z) <$> NLDomain_py.counter g) /\
  (forall grp ele DN_sigma_DN JW kin g g',
     GeometricMatrix ext grp ele DN_sigma_DN JW kin g = (Ok tt, g') ->
     NLDomain_py.counter g' =
       (fun k => (k + gm grp)%Z) <$> NLDomain_py.counter g).



(** The two helper calls of round [igauss] of the Gauss loop, given the
    elasticity tensor, the geometric term and the integration multiplier of
    the round. *)
Definition round_calls (igauss : nat) (p : tensor4 * matrix * R) : list event :=
  [Call_ConstitutiveMatrix igauss p.1.1 p.2; Call_GeometricMatrix p.1.2 p.2].

End Evaluation.

Arguments Kinematics : clear implicits.
Arguments Store : clear implicits.
Arguments Callees : clear implicits.

(** *** Concrete data: a bar element with one node, one Gauss point and one
    degree of freedom in a one-dimensional domain *)

Definition steel : Material :=
  {| GetName := "steel";
     isinstance_HyperElasticPlasticInPrincipal := true;
     value_dict := {["MaterialKey.Kappa" := 5]} |}.

Definition foam : Material :=
  {| GetName := "foam";
     isinstance_HyperElasticPlasticInPrincipal := false;
     value_dict := {["MaterialKey.Kappa" := 5]} |}.

Definition bar_db : Database :=
  {| dim := 1;
     Material_Mat := <[1%Z := steel]> {[2%Z := foam]};
     IDENTITY_TENSOR := NLDomain_py.IdentityTensor_init 1;
     MESH_dof_nodes := [[0%Z]];
     MESH_dof_nodes_is_matrix := false |}.

Definition bar_grp : ElementGroup :=
  {| element_info := {| n_dofs_elem := 1; n_nodes_elem := 1; ngauss := 1 |};
     interpolation_element_DN_chi := [[[1]]];
     quadrature_element_w := [1];
     interpolation_quadrature_element_w := [1];
     global_plasticity_epbar := [[0]];
     global_plasticity_invCp := [[[[1]]]] |}.

Definition bar_ele : Element := {| node_ids := [1%Z] |}.

(** Callees for running the evaluation on the bar: the kinematics update
    leaves the kinematics as given, the constitutive law returns the stress
    [[3]] and a zero elasticity tensor.  With [silent_callees] the two
    assembly helpers leave the triplet store alone; with [counting_callees]
    [ConstitutiveMatrix] moves the shared cursor forward by
    [n_dofs_elem ** 2]. *)
Definition silent_callees : Callees unit unit :=
  {| ComputeGradients := fun _ _ _ k => (Ok tt, k);
     CauchyTypeSelection := fun P _ _ _ => Ok ([[3]], tt, P);
     ElasticityModulusSelection := fun _ _ _ _ _ => Ok [[[[0]]]];
     ConstitutiveMatrix := fun _ _ _ _ _ _ g => (Ok tt, g);
     GeometricMatrix := fun _ _ _ _ _ g => (Ok tt, g) |}.

Definition dofs_squared (grp : ElementGroup) : Z :=
  Z.of_nat (n_dofs_elem (element_info grp) ^ 2).

Definition counting_callees : Callees unit unit :=
  {| ComputeGradients := fun _ _ _ k => (Ok tt, k);
     CauchyTypeSelection := fun P _ _ _ => Ok ([[3]], tt, P);
     ElasticityModulusSelection := fun _ _ _ _ _ => Ok [[[[0]]]];
     ConstitutiveMatrix := fun grp _ _ _ _ _ g =>
       (Ok tt,
        NLDomain_py.set_counter
          ((fun k => (k + dofs_squared grp)%Z) <$> NLDomain_py.counter g) g);
     GeometricMatrix := fun _ _ _ _ _ g => (Ok tt, g) |}.

(** Deformed Jacobian 2 at the Gauss point, buffers with room for four
    triplets, cursor at zero. *)
Definition bar_store : Store unit :=
  {| KINEMATICS := {| Jx_chi := [2]; DN_Dx := [[[1]]]; kin_other := tt |};
     GLOBAL_K := {| NLDomain_py.indexi := Some [0; 0; 0; 0]%Z;
                    NLDomain_py.indexj := Some [0; 0; 0; 0]%Z;
                    NLDomain_py.counter := Some 0%Z;
                    NLDomain_py.stiffness := Some [0; 0; 0; 0] |};
     trace := [] |}.

(** The bar with material 1 (supported) and with material 2 (not supported);
    the reference volume is 2. *)
Definition bar_call : ElementCall :=
  {| call_xlocal := [[0]]; call_Xlocal := [[0]]; call_mat_id := 1;
     call_Ve := 2; call_ele := bar_ele; call_grp := bar_grp;
     call_ele_idx := 0 |}.

Definition foam_call : ElementCall :=
  {| call_xlocal := [[0]]; call_Xlocal := [[0]]; call_mat_id := 2;
     call_Ve := 2; call_ele := bar_ele; call_grp := bar_grp;
     call_ele_idx := 0 |}.

(** *** Concrete data: two nodes in the plane

    Node [k] (numbered from 1) owns the degrees of freedom [2k - 2] and
    [2k - 1]; the DOF table is taken once as an [ndarray] and once as an
    [np.matrix]. *)

Definition plane_db (dof_nodes_is_matrix : bool) : Database :=
  {| dim := 2;
     Material_Mat := {[1%Z := steel]};
     IDENTITY_TENSOR := NLDomain_py.IdentityTensor_init 2;
     MESH_dof_nodes := [[0; 2]; [1; 3]]%Z;
     MESH_dof_nodes_is_matrix := dof_nodes_is_matrix |}.

Definition plane_ele : Element := {| node_ids := [1; 2]%Z |}.

(** Averaged shape derivatives: column 0 is [1, 3], column 1 is [2, 4]. *)
Definition plane_DN_x_mean : matrix := [[1; 2]; [3; 4]].

(** The bar with a reference volume of 1: the deformed volume is 2, so
    [Jbar = 2] and the pressure is [5 * ln 2 / 2]. *)
Definition swollen_call : ElementCall :=
  {| call_xlocal := [[0]]; call_Xlocal := [[0]]; call_mat_id := 1;
     call_Ve := 1; call_ele := bar_ele; call_grp := bar_grp;
     call_ele_idx := 0 |}.

(** Modelled from the spec: the kinematics engine of section 4.1, where "a
    non-positive Jacobian fails with an element-inversion error that aborts
    the current increment's assembly".  [KINEMATICS.ComputeGradients] is not
    among the three files; here it raises, the other callees are those of
    [silent_callees]. *)
Definition inverting_callees : Callees unit unit :=
  {| ComputeGradients := fun _ _ _ k => (Raise (Foreign "ElementInversion"), k);
     CauchyTypeSelection := fun P _ _ _ => Ok ([[3]], tt, P);
     ElasticityModulusSelection := fun _ _ _ _ _ => Ok [[[[0]]]];
     ConstitutiveMatrix := fun _ _ _ _ _ _ g => (Ok tt, g);
     GeometricMatrix := fun _ _ _ _ _ g => (Ok tt, g) |}.

(** *** Concrete data: a rod with two nodes and three Gauss points in a
    one-dimensional domain *)

Definition rod_db : Database :=
  {| dim := 1;
     Material_Mat := {[1%Z := steel]};
     IDENTITY_TENSOR := NLDomain_py.IdentityTensor_init 1;
     MESH_dof_nodes := [[0; 1]]%Z;
     MESH_dof_nodes_is_matrix := true |}.

Definition rod_grp : ElementGroup :=
  {| element_info := {| n_dofs_elem := 2; n_nodes_elem := 2; ngauss := 3 |};
     interpolation_element_DN_chi := [[[-1; -1; -1]; [1; 1; 1]]];
     quadrature_element_w := [1; 2; 1];
     interpolation_quadrature_element_w := [1; 2; 1];
     global_plasticity_epbar := [[0]; [0]; [0]];
     global_plasticity_invCp := [[[[1]; [1]; [1]]]] |}.

Definition rod_ele : Element := {| node_ids := [1; 2]%Z |}.

Definition rod_store : Store unit :=
  {| KINEMATICS := {| Jx_chi := [2; 2; 2];
                      DN_Dx := [[[-1; -1; -1]; [1; 1; 1]]];
                      kin_other := tt |};
     GLOBAL_K := {| NLDomain_py.indexi := Some (replicate 16 0%Z);
                    NLDomain_py.indexj := Some (replicate 16 0%Z);
                    NLDomain_py.counter := Some 0%Z;
                    NLDomain_py.stiffness := Some (replicate 16 0) |};
     trace := [] |}.

Definition rod_call : ElementCall :=
  {| call_xlocal := [[0]; [2]]; call_Xlocal := [[0]; [1]]; call_mat_id := 1;
     call_Ve := 4; call_ele := rod_ele; call_grp := rod_grp;
     call_ele_idx := 0 |}.

(** *** Concrete data: an element with two nodes and two Gauss points in the
    plane *)





End EFS.

(** * Properties *)

(** ** The store monad *)

Module Py_facts.

Lemma bind_Ok {S A B} (m : ST S A) (f : A -> ST S B) s b s' :
  (m ≫= f) s = (Ok b, s') ->
  exists a s1, m s = (Ok a, s1) /\ f a s1 = (Ok b, s').
Proof.
  unfold mbind, ST_bind. destruct (m s) as [[a|e] s1]; [eauto | discriminate].
Qed.

Lemma bind_step {S A B} (m : ST S A) (f : A -> ST S B) s a s1 :
  m s = (Ok a, s1) -> (m ≫= f) s = f a s1.
Proof. intros E. unfold mbind, ST_bind. rewrite E. reflexivity. Qed.

Lemma bind_Raise {S A B} (m : ST S A) (f : A -> ST S B) s e s1 :
  m s = (Raise e, s1) -> (m ≫= f) s = (Raise e, s1).
Proof. intros E. unfold mbind, ST_bind. rewrite E. reflexivity. Qed.

(** A sequence either stops at the exception of its first part or goes on
    with the second. *)
Lemma bind_inv {S A B} (m : ST S A) (f : A -> ST S B) s r s' :
  (m ≫= f) s = (r, s') ->
  (exists e, m s = (Raise e, s') /\ r = Raise e) \/
  (exists a s1, m s = (Ok a, s1) /\ f a s1 = (r, s')).
Proof.
  unfold mbind, ST_bind. destruct (m s) as [[a|e] s1].
  - right. eauto.
  - intros [= <- <-]. left. eauto.
Qed.

Lemma get_bind {S B} (f : S -> ST S B) s : (get ≫= f) s = f s s.
Proof. reflexivity. Qed.

Lemma modify_bind {S B} (g : S -> S) (f : unit -> ST S B) s :
  (modify g ≫= f) s = f tt (g s).
Proof. reflexivity. Qed.

Lemma lift_bind_Ok {S A B} (a : A) (f : A -> ST S B) (s : S) :
  (lift (Ok a) ≫= f) s = f a s.
Proof. reflexivity. Qed.

Lemma lift_bind_Raise {S A B} (e : exn) (f : A -> ST S B) (s : S) :
  (lift (Raise e) ≫= f) s = (Raise e, s).
Proof. reflexivity. Qed.

Lemma raise_bind {S A B} (e : exn) (f : A -> ST S B) (s : S) :
  (raise e ≫= f) s = (Raise e, s).
Proof. reflexivity. Qed.

(** A relation between the store before and the store after that every round
    of a loop maintains is maintained by the loop. *)
Lemma foldM_rel {S A B} (Rl : S -> S -> Prop) (body : A -> B -> ST S A) :
  (forall s, Rl s s) ->
  (forall s1 s2 s3, Rl s1 s2 -> Rl s2 s3 -> Rl s1 s3) ->
  (forall acc x s r s', body acc x s = (r, s') -> Rl s s') ->
  forall xs acc s r s', foldM body acc xs s = (r, s') -> Rl s s'.
Proof.
  intros Hrefl Htrans Hbody. induction xs as [|x xs IH]; intros acc s r s' E.
  - injection E as <- <-. apply Hrefl.
  - cbn in E. apply bind_inv in E as [(e & E & ->)|(a & s1 & E1 & E2)].
    + eapply Hbody, E.
    + eapply Htrans; [eapply Hbody, E1 | eapply IH, E2].
Qed.

Lemma bind_assoc {S A B C} (m : ST S A) (f : A -> ST S B) (g : B -> ST S C) (s : S) :
  ((m ≫= f) ≫= g) s = (m ≫= fun a => f a ≫= g) s.
Proof.
  unfold mbind, ST_bind. destruct (m s) as [[a|e] s1]; reflexivity.
Qed.

Lemma bind_ext {S A B} (m m' : ST S A) (f g : A -> ST S B) (s : S) :
  m s = m' s -> (forall a s1, f a s1 = g a s1) -> (m ≫= f) s = (m' ≫= g) s.
Proof.
  intros Hm H. unfold mbind, ST_bind. rewrite Hm.
  destruct (m' s) as [[a|e] s1]; auto.
Qed.

Lemma foldM_app {S A B} (f : A -> B -> ST S A) (xs ys : list B) (acc : A) (s : S) :
  foldM f acc (xs ++ ys) s = (foldM f acc xs ≫= fun a => foldM f a ys) s.
Proof.
  revert acc s. induction xs as [|x xs IH]; intros acc s; [reflexivity|].
  cbn [app foldM]. rewrite bind_assoc. apply bind_ext; [reflexivity|].
  intros a s1. apply IH.
Qed.



Lemma bind_rel {S A B} (Rl : S -> S -> Prop) (m : ST S A) (f : A -> ST S B) :
  (forall s1 s2 s3, Rl s1 s2 -> Rl s2 s3 -> Rl s1 s3) ->
  (forall s r s', m s = (r, s') -> Rl s s') ->
  (forall a s r s', f a s = (r, s') -> Rl s s') ->
  forall s r s', (m ≫= f) s = (r, s') -> Rl s s'.
Proof.
  intros Htrans Hm Hf s r s' E.
  apply bind_inv in E as [(e & E & ->)|(a & s1 & E1 & E2)].
  - eapply Hm, E.
  - eapply Htrans; [eapply Hm, E1 | eapply Hf, E2].
Qed.

(** Loops in the exception monad. *)
Lemma foldM_app_result {A B} (f : A -> B -> result A) (xs ys : list B) (acc : A) :
  foldM f acc (xs ++ ys) = foldM f acc xs ≫= fun a => foldM f a ys.
Proof.
  revert acc. induction xs as [|x xs IH]; intros acc; [reflexivity|].
  cbn. destruct (f acc x); cbn; auto.
Qed.

(** A loop over [range(n)] whose round [m] takes the state [St m] to the state
    [St (m + 1)] takes [St 0] to [St n]. *)
Lemma foldM_seq_steps {A} (step : A -> nat -> result A) (St : nat -> A) (n : nat) :
  (forall m, (m < n)%nat -> step (St m) m = Ok (St (S m))) ->
  foldM step (St 0%nat) (seq 0 n) = Ok (St n).
Proof.
  induction n as [|n IH]; intros H; [reflexivity|].
  rewrite seq_S, foldM_app_result, IH by (intros; apply H; lia).
  cbn. rewrite H by lia. reflexivity.
Qed.

End Py_facts.

(** ** Arrays *)

Module np_facts.
Import np.

Lemma mapM_Ok {A B} (f : A -> result B) (l : list A) (l' : list B) :
  mapM f l = Ok l' -> Forall2 (fun x y => f x = Ok y) l l'.
Proof.
  revert l'. induction l as [|x l IH]; intros l' H.
  - injection H as <-. constructor.
  - cbn in H. destruct (f x) as [y|] eqn:Ex; [|discriminate]. cbn in H.
    destruct (mapM f l) as [k|] eqn:Ek; [|discriminate]. cbn in H.
    injection H as <-. constructor; auto.
Qed.

Lemma mapM_Ok_length {A B} (f : A -> result B) (l : list A) (l' : list B) :
  mapM f l = Ok l' -> length l' = length l.
Proof. intros H. symmetry. eapply Forall2_length, mapM_Ok, H. Qed.

(** An in-place operation returns an array of the length of its target, and
    every entry comes from the entry it replaces. *)
Lemma ibcast_Ok {A B} (f : A -> B -> result A) (out : list A) (xs : list B)
    (out' : list A) :
  ibcast f out xs = Ok out' ->
  Forall2 (fun o o' => exists x, f o x = Ok o') out out'.
Proof.
  unfold ibcast. destruct (decide (length xs = length out)) as [E|E].
  - intros H. apply mapM_Ok in H.
    assert (G : forall ps (os : list A),
              Forall2 (fun (p : A * B) y => f p.1 p.2 = Ok y) ps os ->
              Forall2 (fun o o' => exists x, f o x = Ok o') ps.*1 os).
    { induction 1; constructor; eauto. }
    apply G in H. rewrite fst_zip in H by lia. exact H.
  - destruct xs as [|x [|]]; try discriminate.
    intros H. apply mapM_Ok in H. eapply Forall2_impl; [exact H|].
    cbn. eauto.
Qed.

Lemma iadd1_length (T t T' : vec) : iadd1 T t = Ok T' -> length T' = length T.
Proof. intros H. symmetry. eapply Forall2_length, ibcast_Ok, H. Qed.

Lemma iadd2_shaped m n (a b a' : matrix) :
  iadd2 a b = Ok a' -> shaped m n a -> shaped m n a'.
Proof.
  intros H [L F]. apply ibcast_Ok in H.
  split; [rewrite <- L; symmetry; eapply Forall2_length, H|].
  clear L. revert F. induction H as [|o o' out out' (x & Hx) _ IH];
    intros F; [constructor|].
  apply Forall_cons in F as [F1 F2]. constructor; [|auto].
  apply ibcast_Ok, Forall2_length in Hx. congruence.
Qed.

Lemma zeros2_shaped m n : shaped m n (zeros2 m n).
Proof.
  unfold zeros2, zeros. split; [apply length_replicate|].
  apply Forall_replicate. apply length_replicate.
Qed.

Lemma div2_shaped m n (a : matrix) (x : R) :
  shaped m n a -> shaped m n (div2 a x).
Proof.
  intros [L F]. unfold div2. split; [rewrite length_fmap; exact L|].
  apply Forall_fmap. eapply Forall_impl; [exact F|].
  intros row Hr. cbn. rewrite length_fmap. exact Hr.
Qed.


Lemma length_flatten_outer (u v : vec) :
  length (flatten (outer u v)) = (length u * length v)%nat.
Proof.
  unfold flatten, outer. induction u as [|x u IH]; [reflexivity|].
  cbn. rewrite length_app, length_fmap, IH. reflexivity.
Qed.

Lemma length_concat_replicate {A} (d : nat) (v : list A) :
  length (concat (replicate d v)) = (d * length v)%nat.
Proof. induction d as [|d IH]; cbn; [reflexivity|]. rewrite length_app, IH. reflexivity. Qed.

Lemma lookup_seq_concat {A} (w : list A) :
  concat ((fun j => omap (fun row : list A => row !! j) [w]) <$> seq 0 (length w)) = w.
Proof.
  induction w as [|x w IH] using rev_ind; [reflexivity|].
  rewrite length_app, Nat.add_1_r, seq_S, fmap_app, concat_app. cbn.
  rewrite list_lookup_middle by reflexivity. cbn. f_equal.
  rewrite <- IH at 2. f_equal. apply list_fmap_ext.
  intros i j Hj. apply lookup_seq in Hj as [-> Hlt]. cbn.
  rewrite lookup_app_l by lia. reflexivity.
Qed.

Lemma concat_replicate_nil {A} (d : nat) : concat (replicate d (@nil A)) = [].
Proof. induction d; cbn; auto. Qed.

Lemma omap_lookup_replicate {A} (d j : nat) (v : list A) :
  (j < d)%nat ->
  omap (fun row : list A => row !! j) ((fun x => replicate d x) <$> v) = v.
Proof.
  intros Hj. induction v as [|x v IH]; [reflexivity|].
  cbn. rewrite lookup_replicate_2 by exact Hj. cbn. f_equal. exact IH.
Qed.

Lemma fmap_const_seq {A} (a : A) (k d : nat) :
  (fun _ => a) <$> seq k d = replicate d a.
Proof. revert k. induction d as [|d IH]; intros k; cbn; [reflexivity|]. f_equal. apply IH. Qed.

Lemma flatten_transpose_tile {A} (c : column A) (d : nat) :
  flatten (transpose (tile_1 c d)) = concat (replicate d (entries c)).
Proof.
  destruct c as [v|v]; cbn [tile_1 entries].
  - unfold flatten, transpose. apply lookup_seq_concat.
  - destruct v as [|x v]; [cbn; symmetry; apply concat_replicate_nil|].
    unfold flatten, transpose. cbn [fmap list_fmap].
    rewrite length_replicate. f_equal.
    rewrite <- (fmap_const_seq (x :: v) 0 d). apply list_fmap_ext.
    intros i j Hj. apply lookup_seq in Hj as [-> Hlt].
    apply (omap_lookup_replicate d (0 + i) (x :: v)). exact Hlt.
Qed.

Lemma elem_of_concat_replicate {A} (d : nat) (v : list A) (x : A) :
  x ∈ concat (replicate d v) -> x ∈ v.
Proof.
  induction d as [|d IH]; cbn; [intros H; inversion H|].
  rewrite elem_of_app. intros [H|H]; auto.
Qed.

Lemma elem_of_flatten_tile {A} (c : column A) (d : nat) (x : A) :
  x ∈ flatten (tile_1 c d) -> x ∈ entries c.
Proof.
  destruct c as [v|v]; cbn [tile_1 entries]; unfold flatten.
  - cbn. rewrite app_nil_r. apply elem_of_concat_replicate.
  - induction v as [|y v IH]; cbn; [intros H; inversion H|].
    rewrite elem_of_app. intros [H|H].
    + apply elem_of_replicate in H as [-> _]. left.
    + right. auto.
Qed.

Lemma length_flatten_tile {A} (c : column A) (d : nat) :
  length (flatten (tile_1 c d)) = (d * length (entries c))%nat.
Proof.
  destruct c as [v|v]; cbn [tile_1 entries]; unfold flatten.
  - cbn. rewrite app_nil_r. apply length_concat_replicate.
  - induction v as [|y v IH]; cbn; [lia|].
    rewrite length_app, length_replicate, IH. lia.
Qed.

Lemma col_length {A} (a : list (list A)) (j : nat) (v : list A) :
  col a j = Ok v -> length v = length a.
Proof. apply mapM_Ok_length. Qed.


(** Tables over [range(n)]. *)
Lemma lookup_fmap_seq {A} (f : nat -> A) (n i : nat) :
  (i < n)%nat -> (f <$> seq 0 n) !! i = Some (f i).
Proof.
  intros H. rewrite list_lookup_fmap, lookup_seq_lt by exact H. reflexivity.
Qed.

Lemma fmap_seq_ext {A} (f g : nat -> A) (n : nat) :
  (forall i, (i < n)%nat -> f i = g i) -> f <$> seq 0 n = g <$> seq 0 n.
Proof.
  intros H. apply list_fmap_ext. intros i x Hx.
  apply lookup_seq in Hx as [-> Hlt]. apply H. exact Hlt.
Qed.

Lemma insert_fmap_seq {A} (g : nat -> A) (n i : nat) (y : A) :
  <[i := y]> (g <$> seq 0 n)
  = (fun i' => if Nat.eqb i' i then y else g i') <$> seq 0 n.
Proof.
  apply list_eq. intros p.
  destruct (decide (p < n)%nat) as [Hp|Hp].
  - rewrite lookup_fmap_seq by exact Hp.
    destruct (Nat.eqb_spec p i) as [->|Hne].
    + apply list_lookup_insert_eq. rewrite length_fmap, length_seq. exact Hp.
    + rewrite list_lookup_insert_ne by congruence. apply lookup_fmap_seq, Hp.
  - rewrite !lookup_ge_None_2; [reflexivity| |];
      rewrite ?length_insert, length_fmap, length_seq; lia.
Qed.

(** Positions in a flattened array whose rows all have length [m]. *)
Lemma lookup_concat_uniform {A} (m : nat) (ls : list (list A)) (i j : nat) :
  Forall (fun r => length r = m) ls -> (j < m)%nat ->
  concat ls !! (i * m + j)%nat = ls !! i ≫= (fun r => r !! j).
Proof.
  revert i. induction ls as [|r ls IH]; intros i HF Hj; [reflexivity|].
  apply Forall_cons in HF as [Hr HF]. destruct i as [|i]; cbn.
  - apply lookup_app_l. lia.
  - rewrite lookup_app_r by lia.
    replace (m + i * m + j - length r)%nat with (i * m + j)%nat by lia.
    apply IH; assumption.
Qed.

Lemma lookup_concat_replicate {A} (d m : nat) (v : list A) (i j : nat) :
  length v = m -> (i < d)%nat -> (j < m)%nat ->
  concat (replicate d v) !! (i * m + j)%nat = v !! j.
Proof.
  intros Hm Hi Hj. rewrite lookup_concat_uniform.
  - rewrite lookup_replicate_2 by exact Hi. reflexivity.
  - apply Forall_replicate. exact Hm.
  - exact Hj.
Qed.

Lemma lookup_concat_upright {A} (d : nat) (v : list A) (i j : nat) :
  (j < d)%nat ->
  concat ((fun x => replicate d x) <$> v) !! (i * d + j)%nat = v !! i.
Proof.
  intros Hj. rewrite lookup_concat_uniform.
  - rewrite list_lookup_fmap. destruct (v !! i) as [x|]; [|reflexivity].
    cbn. apply lookup_replicate_2, Hj.
  - apply Forall_fmap, Forall_forall. intros x _. cbn. apply length_replicate.
  - exact Hj.
Qed.

Lemma lookup_flatten_outer (m : nat) (u v : vec) (i j : nat) (x y : R) :
  length v = m -> u !! i = Some x -> v !! j = Some y ->
  flatten (outer u v) !! (i * m + j)%nat = Some (x * y).
Proof.
  intros Hm Hx Hy. unfold flatten, outer. rewrite lookup_concat_uniform.
  - rewrite list_lookup_fmap, Hx. cbn. rewrite list_lookup_fmap, Hy. reflexivity.
  - apply Forall_fmap, Forall_forall. intros z _. cbn. rewrite length_fmap.
    exact Hm.
  - rewrite <- Hm. eapply lookup_lt_Some, Hy.
Qed.

Lemma col_lookup (a : matrix) (j i : nat) (v : vec) :
  col a j = Ok v -> (i < length a)%nat ->
  exists x, v !! i = Some x /\ getitem2 a i j = Ok x.
Proof.
  unfold col. intros H Hi. apply mapM_Ok in H.
  destruct (lookup_lt_is_Some_2 a i Hi) as [row Hrow].
  destruct (Forall2_lookup_l _ _ _ _ _ H Hrow) as (x & Hx & Hg).
  exists x. split; [exact Hx|]. unfold getitem2. unfold getitem in *.
  rewrite Hrow. exact Hg.
Qed.

(** An index that numpy accepts lies between minus the length and the
    length. *)
Lemma wrap_index_Ok (n : nat) (i : Z) (k : nat) :
  wrap_index n i = Ok k -> (- Z.of_nat n <= i < Z.of_nat n)%Z.
Proof.
  unfold wrap_index.
  destruct (decide (0 <= i < Z.of_nat n)%Z); [lia|].
  destruct (decide (- Z.of_nat n <= i < 0)%Z); [lia|discriminate].
Qed.

Lemma colZ_Ok {A} (a : list (list A)) (k : Z) (v : list A) :
  colZ a k = Ok v ->
  Forall (fun row => (- Z.of_nat (length row) <= k < Z.of_nat (length row))%Z) a.
Proof.
  unfold colZ. intros H. apply mapM_Ok in H.
  induction H as [|row y a v Hy _ IH]; constructor; [|exact IH].
  unfold getitemZ in Hy.
  destruct (wrap_index (length row) k) as [p|] eqn:E; [|discriminate].
  eapply wrap_index_Ok, E.
Qed.

(** Multiples of one array: adding in place, the zero multiple, dividing the
    scale out again. *)
Lemma ibcast_radd_scaled (row : vec) (v w : R) :
  ibcast radd ((fun x => x * v) <$> row) ((fun x => x * w) <$> row)
  = Ok ((fun x => x * (v + w)) <$> row).
Proof.
  unfold ibcast. rewrite !length_fmap.
  destruct (decide (length row = length row)) as [_|]; [|contradiction].
  induction row as [|x row IH]; [reflexivity|].
  cbn. cbn in IH. rewrite IH. cbn. do 2 f_equal. ring.
Qed.

Lemma iadd2_rscale2 (D : matrix) (v w : R) :
  iadd2 (rscale2 D v) (rscale2 D w) = Ok (rscale2 D (v + w)).
Proof.
  unfold iadd2, ibcast at 1, rscale2. rewrite !length_fmap.
  destruct (decide (length D = length D)) as [_|]; [|contradiction].
  induction D as [|row D IH]; [reflexivity|].
  cbn. rewrite ibcast_radd_scaled. cbn. cbn in IH. rewrite IH. reflexivity.
Qed.

Lemma zeros2_rscale2 (m n : nat) (D : matrix) :
  shaped m n D -> zeros2 m n = rscale2 D 0.
Proof.
  intros [L F]. subst m. unfold zeros2, zeros, rscale2.
  induction F as [|row D Hrow _ IH]; [reflexivity|].
  cbn. f_equal; [|exact IH]. subst n. clear.
  induction row as [|x row IH]; [reflexivity|]. cbn. f_equal; [ring|exact IH].
Qed.

Lemma div2_rscale2 (D : matrix) (v : R) : v <> 0 -> div2 (rscale2 D v) v = D.
Proof.
  intros Hv. unfold div2, rscale2. rewrite <- list_fmap_compose.
  rewrite <- (list_fmap_id D) at 2. apply list_fmap_ext. intros _ row _. cbn.
  rewrite <- list_fmap_compose. rewrite <- (list_fmap_id row) at 2.
  apply list_fmap_ext. intros _ x _. cbn. field. exact Hv.
Qed.










End np_facts.

(** ** Beam188.ElementStiffness *)

Module Beam_facts.
Import np Beam_py Py_facts np_facts.

(** Whatever the section data and the equivalent coefficients are, the product
    of the Young modulus with the dict of section moments raises, so the call
    never gets as far as its last statement. *)
Lemma ElementStiffness_raises GetEquivalentCoff (self : Beam188) :
  exists e, ElementStiffness GetEquivalentCoff self = Raise e.
Proof.
  unfold ElementStiffness.
  repeat match goal with
  | |- exists e, mbind _ ?r = Raise e =>
      destruct r as [?|?] eqn:?; cbn; [|eexists; reflexivity]
  | |- context [let '(_, _) := ?p in _] => destruct p
  end.
  unfold float_times_dict; cbn. eexists; reflexivity.
Qed.

(** C9.  [Beam188.ElementStiffness] never produces a stiffness matrix: every
    call either raises or runs off the end of the body and evaluates to
    [None]. *)
Theorem ElementStiffness_no_matrix GetEquivalentCoff (self : Beam188) :
  ((exists e, ElementStiffness GetEquivalentCoff self = Raise e) \/
   ElementStiffness GetEquivalentCoff self = Ok None) /\
  (forall K, ElementStiffness GetEquivalentCoff self <> Ok (Some K)).
Proof.
  destruct (ElementStiffness_raises GetEquivalentCoff self) as [e He].
  split; [left; eauto|]. intros K. rewrite He. discriminate.
Qed.

(** *** BeamCalculator: section properties *)

Lemma fdiv_Ok (x y : R) : y <> 0 -> fdiv x y = Ok (x / y).
Proof.
  intros H. unfold fdiv. destruct (Req_dec_T y 0); [contradiction|reflexivity].
Qed.

Lemma fdiv_zero (x y : R) : y = 0 -> fdiv x y = Raise ZeroDivisionError.
Proof.
  intros H. unfold fdiv. destruct (Req_dec_T y 0); [reflexivity|contradiction].
Qed.

(** The range of the floats: [float_tiny], half the smallest positive float,
    is below [2 ^ -20] and [float_max] is above [2 ^ 20]. *)
Lemma float_tiny_pos : 0 < float_tiny.
Proof. unfold float_tiny. apply Rinv_0_lt_compat, pow_lt. lra. Qed.

Lemma float_tiny_small : float_tiny < / 2 ^ 20.
Proof.
  unfold float_tiny. apply Rinv_0_lt_contravar; [apply pow_lt; lra|].
  apply Rlt_pow; [lra|lia].
Qed.

Lemma float_max_large : 2 ^ 20 <= float_max.
Proof.
  unfold float_max. apply Rle_trans with (1 * 2 ^ 1023).
  - rewrite Rmult_1_l. apply Rle_pow; [lra|lia].
  - apply Rmult_le_compat_r; [apply pow_le; lra|].
    assert (0 < / 2 ^ 52 <= 1); [|lra]. split.
    + apply Rinv_0_lt_compat, pow_lt. lra.
    + rewrite <- Rinv_1. apply Rinv_le_contravar; [lra|].
      apply pow_R1_Rle. lra.
Qed.

Lemma float_tiny_lt_max : float_tiny < float_max.
Proof.
  pose proof float_tiny_small. pose proof float_max_large.
  assert (/ 2 ^ 20 < 2 ^ 20); [|lra].
  assert (0 < / 2 ^ 20 < 1); [|lra]. split.
  - apply Rinv_0_lt_compat. lra.
  - rewrite <- Rinv_1. apply Rinv_0_lt_contravar; lra.
Qed.

Lemma fpow_Ok (x : R) (n : nat) :
  float_tiny < Rabs (x ^ n) <= float_max -> fpow x n = Ok (x ^ n).
Proof.
  intros [H1 H2]. unfold fpow.
  destruct (Rlt_dec float_max (Rabs (x ^ n))); [lra|].
  destruct (Rle_dec (Rabs (x ^ n)) float_tiny); [lra|reflexivity].
Qed.

Lemma fpow_small (x : R) (n : nat) :
  / 2 ^ 20 <= Rabs (x ^ n) <= 2 ^ 20 -> fpow x n = Ok (x ^ n).
Proof.
  intros [H1 H2]. apply fpow_Ok.
  pose proof float_tiny_small. pose proof float_max_large. lra.
Qed.

(** What a power that returns is: the real power, or zero for a real power
    that is at most [float_tiny] in size. *)
Lemma fpow_inv (x : R) (n : nat) (v : R) :
  fpow x n = Ok v ->
  Rabs (x ^ n) <= float_max /\
  (v = x ^ n \/ v = 0 /\ Rabs (x ^ n) <= float_tiny).
Proof.
  unfold fpow. destruct (Rlt_dec float_max (Rabs (x ^ n))); [discriminate|].
  destruct (Rle_dec (Rabs (x ^ n)) float_tiny); intros [= <-];
    (split; [lra|]); auto.
Qed.

Lemma fpow_Raise (x : R) (n : nat) (e : exn) :
  fpow x n = Raise e -> e = OverflowError /\ float_max < Rabs (x ^ n).
Proof.
  unfold fpow. destruct (Rlt_dec float_max (Rabs (x ^ n))).
  - intros [= <-]. auto.
  - destruct (Rle_dec (Rabs (x ^ n)) float_tiny); discriminate.
Qed.

Lemma fpow_zero_iff (x : R) (n : nat) (v : R) :
  fpow x n = Ok v -> (v = 0 <-> Rabs (x ^ n) <= float_tiny).
Proof.
  unfold fpow. destruct (Rlt_dec float_max (Rabs (x ^ n))); [discriminate|].
  destruct (Rle_dec (Rabs (x ^ n)) float_tiny) as [Hs|Hs]; intros [= <-].
  - tauto.
  - split; [|tauto]. intros E. rewrite E, Rabs_R0 in Hs.
    pose proof float_tiny_pos. lra.
Qed.

(** The moments of the solid circle of radius 1. *)
Lemma unit_circle_moments :
  CalculateMomentOfInertiaOfArea SectionCircleSolid [1]
  = Ok (<["SectionKey.It" := 25 / 100 * PI * 1 ^ 4]>
          (<["SectionKey.Is" := 25 / 100 * PI * 1 ^ 4]>
             (<["SectionKey.Tor" := 25 / 100 * PI * 1 ^ 4 * 2]> ∅))).
Proof.
  unfold CalculateMomentOfInertiaOfArea. cbn [length Nat.eqb assert nth].
  cbn [mbind result_bind]. rewrite fpow_small; [reflexivity|].
  rewrite pow1, Rabs_R1. split; [|lra].
  rewrite <- Rinv_1. apply Rinv_le_contravar; lra.
Qed.

Lemma assert_eqb_inv (n m : nat) (r : result unit) :
  assert (Nat.eqb n m) = r ->
  (n = m /\ r = Ok tt) \/ (n <> m /\ r = Raise AssertionError).
Proof.
  unfold assert. destruct (Nat.eqb_spec n m); intros <-; auto.
Qed.

(** Two dicts with the same three keys and equal values. *)
Lemma dict3_ext (k1 k2 k3 : string) (a b c a' b' c' : R) :
  a = a' -> b = b' -> c = c' ->
  @Ok (gmap string R) (<[k1 := a]> (<[k2 := b]> (<[k3 := c]> ∅)))
  = Ok (<[k1 := a']> (<[k2 := b']> (<[k3 := c']> ∅))).
Proof. intros -> -> ->. reflexivity. Qed.

(** X1.  For a rectangle the order of the two side lengths does not matter:
    the larger one is taken as [a] and the smaller one as [b] whichever comes
    first. *)
Theorem Rectangle_moments_symmetric (x y : R) :
  CalculateMomentOfInertiaOfArea SectionRectangle [x; y]
  = CalculateMomentOfInertiaOfArea SectionRectangle [y; x].
Proof.
  unfold CalculateMomentOfInertiaOfArea. cbn [length Nat.eqb assert nth].
  rewrite (Rmax_comm y x), (Rmin_comm y x). reflexivity.
Qed.

Lemma float_max_pow : 2 ^ 1023 <= float_max.
Proof.
  unfold float_max. rewrite <- (Rmult_1_l (2 ^ 1023)) at 1.
  apply Rmult_le_compat_r; [apply pow_le; lra|].
  assert (0 < / 2 ^ 52 <= 1); [|lra]. split.
  - apply Rinv_0_lt_compat, pow_lt. lra.
  - rewrite <- Rinv_1. apply Rinv_le_contravar; [lra|].
    apply pow_R1_Rle. lra.
Qed.

(** A power of a number between [2 ^ -k] and [2 ^ k] lies between
    [2 ^ -(k * n)] and [2 ^ (k * n)], which is within the floats for
    [k * n <= 1023]: the power is then the real one. *)
Lemma pow_range (t : R) (k n : nat) :
  / 2 ^ k <= t <= 2 ^ k -> / 2 ^ (k * n) <= t ^ n <= 2 ^ (k * n).
Proof.
  intros [H1 H2].
  assert (P : 0 < 2 ^ k) by (apply pow_lt; lra).
  assert (Q : 0 < / 2 ^ k) by (apply Rinv_0_lt_compat; exact P).
  rewrite !pow_mult. split.
  - rewrite <- pow_inv. apply pow_incr. lra.
  - apply pow_incr. lra.
Qed.

Lemma fpow_range (t : R) (k n : nat) :
  / 2 ^ k <= t <= 2 ^ k -> (k * n <= 1023)%nat -> fpow t n = Ok (t ^ n).
Proof.
  intros Ht Hk. apply fpow_Ok. destruct (pow_range t k n Ht) as [L U].
  assert (P : 0 < 2 ^ (k * n)) by (apply pow_lt; lra).
  assert (Q : 0 < / 2 ^ (k * n)) by (apply Rinv_0_lt_compat; exact P).
  rewrite Rabs_pos_eq by lra. split.
  - apply Rlt_le_trans with (/ 2 ^ (k * n)); [|exact L]. unfold float_tiny.
    apply Rinv_0_lt_contravar; [exact P|]. apply Rlt_pow; [lra|lia].
  - apply Rle_trans with (2 ^ 1023); [|apply float_max_pow].
    apply Rle_trans with (2 ^ (k * n)); [exact U|]. apply Rle_pow; [lra|exact Hk].
Qed.

(** A power of a number of size at most [2 ^ k] does not overflow for
    [k * n <= 1023]: it returns, the real power or zero. *)
Lemma fpow_bounded (t : R) (k n : nat) :
  Rabs t <= 2 ^ k -> (k * n <= 1023)%nat -> exists v, fpow t n = Ok v.
Proof.
  intros Ht Hk.
  assert (U : Rabs (t ^ n) <= float_max).
  { rewrite <- RPow_abs. apply Rle_trans with (2 ^ 1023); [|apply float_max_pow].
    apply Rle_trans with (2 ^ (k * n)); [|apply Rle_pow; [lra|exact Hk]].
    rewrite pow_mult. apply pow_incr. split; [apply Rabs_pos|exact Ht]. }
  unfold fpow. destruct (Rlt_dec float_max (Rabs (t ^ n))); [lra|].
  destruct (Rle_dec (Rabs (t ^ n)) float_tiny); eexists; reflexivity.
Qed.

Lemma pow2_60_ge_1 : 0 < / 2 ^ 60 <= 1 /\ 1 <= 2 ^ 60.
Proof.
  assert (Q : 1 <= 2 ^ 60) by (apply pow_R1_Rle; lra).
  split; [|exact Q]. split; [apply Rinv_0_lt_compat; lra|].
  rewrite <- Rinv_1. apply Rinv_le_contravar; lra.
Qed.

(** The rectangle branch on sides between [2 ^ -60] and [2 ^ 60]: no power
    leaves the floats, and the call returns the two moments of the larger
    side [a] and the smaller side [b] with a positive torsional constant. *)
Lemma Rectangle_branch (x y : R) :
  / 2 ^ 60 <= x <= 2 ^ 60 -> / 2 ^ 60 <= y <= 2 ^ 60 ->
  exists Tor,
    CalculateMomentOfInertiaOfArea SectionRectangle [x; y]
    = Ok (<["SectionKey.It" := Rmin x y ^ 3 * Rmax x y / 12]>
            (<["SectionKey.Is" := Rmax x y ^ 3 * Rmin x y / 12]>
               (<["SectionKey.Tor" := Tor]> ∅))) /\
    0 < Tor.
Proof.
  intros Hx Hy. destruct pow2_60_ge_1 as [P P1].
  unfold CalculateMomentOfInertiaOfArea.
  cbn [length Nat.eqb assert nth mbind result_bind].
  set (a := Rmax x y). set (b := Rmin x y).
  assert (Hbr : / 2 ^ 60 <= b <= 2 ^ 60).
  { unfold b. split; [apply Rmin_glb; lra|].
    apply Rle_trans with x; [apply Rmin_l|lra]. }
  assert (Har : / 2 ^ 60 <= a <= 2 ^ 60).
  { unfold a. split; [apply Rle_trans with x; [lra|apply Rmax_l]|].
    apply Rmax_lub; lra. }
  assert (Hb : 0 < b) by lra.
  assert (Hba : b <= a)
    by (unfold a, b; apply Rle_trans with x; [apply Rmin_l|apply Rmax_l]).
  assert (Ha : 0 < a) by lra.
  rewrite (fpow_range b 60 3 Hbr) by lia. cbn [mbind result_bind].
  rewrite (fpow_range a 60 3 Har) by lia. cbn [mbind result_bind].
  destruct (Req_dec_T a b) as [E|E].
  - rewrite (fpow_range a 60 4 Har) by lia. cbn [mbind result_bind].
    eexists. split; [reflexivity|].
    assert (0 < a ^ 4) by (apply pow_lt; lra). lra.
  - rewrite !fdiv_Ok by lra. cbn [mbind result_bind].
    set (t := b / a).
    assert (Ht : 0 < t < 1).
    { unfold t. split; [apply Rdiv_lt_0_compat; lra|].
      apply Rmult_lt_reg_r with a; [lra|].
      unfold Rdiv. rewrite Rmult_assoc, Rinv_l by lra. lra. }
    assert (Htr : / 2 ^ 120 <= t <= 2 ^ 120).
    { replace 120%nat with (60 + 60)%nat by reflexivity.
      rewrite pow_add, Rinv_mult. split.
      - unfold t, Rdiv. apply Rmult_le_compat; try lra.
        apply Rinv_le_contravar; lra.
      - apply Rle_trans with 1; [lra|]. nra. }
    rewrite (fpow_range t 120 4 Htr) by lia. cbn [mbind result_bind].
    eexists. split; [reflexivity|].
    replace (336 / 100 * b / a) with (336 / 100 * t) by (unfold t; field; lra).
    assert (H4 : 0 < t ^ 4 < 1).
    { split; [apply pow_lt; lra|].
      assert (t ^ 2 < 1) by nra. assert (0 < t ^ 2) by nra. nra. }
    assert (Hq : 336 / 100 * t * (1 - t ^ 4 / 12) < 336 / 100) by nra.
    assert (0 < a * b ^ 3)
      by (assert (0 < b ^ 3) by (apply pow_lt; lra); nra).
    nra.
Qed.

(** The rectangle and I-section branches at the unit square and at the solid
    I-section of width 1 and height 2. *)
Lemma one_two_in_range : / 2 ^ 60 <= 1 <= 2 ^ 60 /\ / 2 ^ 60 <= 2 <= 2 ^ 60.
Proof.
  destruct pow2_60_ge_1 as [P P1].
  assert (Q : 2 <= 2 ^ 60).
  { rewrite <- (pow_1 2) at 1. apply Rle_pow; [lra|lia]. }
  lra.
Qed.

Lemma fdiv_Raise (x y : R) (e : exn) :
  fdiv x y = Raise e -> e = ZeroDivisionError /\ y = 0.
Proof.
  unfold fdiv. destruct (Req_dec_T y 0); [|discriminate].
  intros [= <-]. auto.
Qed.

Ltac bind_head t :=
  lazymatch t with
  | mbind _ ?r => bind_head r
  | (if ?c then _ else _) => c
  | _ => t
  end.

Ltac chase H :=
  repeat (cbn [mbind result_bind] in H;
          lazymatch type of H with
          | Ok _ = _ => fail
          | Raise _ = _ => fail
          | ?l = _ => let r := bind_head l in destruct r eqn:?
          end);
  cbn [mbind result_bind] in H.

(** Every exception of [CalculateMomentOfInertiaOfArea], with what the
    arguments are when it is raised. *)
Lemma moments_Raise_cases (sec_type : BeamSectionType)
    (sec_data : list R) (e : exn) :
  CalculateMomentOfInertiaOfArea sec_type sec_data = Raise e ->
  (e = SystemExit 1 /\ exists name, sec_type = SectionOther name) \/
  (e = AssertionError /\
     (sec_type = SectionI /\ length sec_data <> 6%nat \/
      sec_type = SectionRectangle /\ length sec_data <> 2%nat \/
      sec_type = SectionCircleSolid /\ length sec_data <> 1%nat)) \/
  (e = ZeroDivisionError /\
     (sec_type = SectionI /\ length sec_data = 6%nat /\
        (Rabs (nth 0 sec_data 0 ^ 4) <= float_tiny \/ nth 3 sec_data 0 = 0 \/
         (nth 3 sec_data 0 < 0 /\ nth 5 sec_data 0 = 0)) \/
      sec_type = SectionRectangle /\ length sec_data = 2%nat /\
        Rmax (nth 0 sec_data 0) (nth 1 sec_data 0) = 0 /\
        Rmin (nth 0 sec_data 0) (nth 1 sec_data 0) <> 0)) \/
  (e = OverflowError /\ forall name, sec_type <> SectionOther name).
Proof.
  destruct sec_type as [| | |name]; unfold CalculateMomentOfInertiaOfArea;
    cbv zeta; intros H.
  - destruct (assert_eqb_inv (length sec_data) 6 _ eq_refl) as [[L E]|[L E]];
      rewrite E in H; cbn [mbind result_bind] in H.
    2: { injection H as <-. right; left. auto. }
    chase H; try discriminate H; injection H as <-.
    all: try match goal with
         | E : fpow _ _ = Raise _ |- _ =>
             apply fpow_Raise in E as [-> _]; right; right; right;
             split; [reflexivity|discriminate]
         end.
    all: match goal with
         | E : fdiv _ _ = Raise _ |- _ => apply fdiv_Raise in E as [-> E]
         end.
    all: right; right; left; split; [reflexivity|]; left;
      split; [reflexivity|]; split; [exact L|].
    all: first
      [ right; left; assumption
      | right; right; split; [lra|assumption]
      | left;
        match goal with
        | E : fpow (nth 0 _ _) 4 = Ok ?v, Z : ?v = 0 |- _ =>
            apply (fpow_zero_iff _ _ _ E); exact Z
        end ].
  - destruct (assert_eqb_inv (length sec_data) 2 _ eq_refl) as [[L E]|[L E]];
      rewrite E in H; cbn [mbind result_bind] in H.
    2: { injection H as <-. right; left. auto 6. }
    chase H; try discriminate H; injection H as <-.
    all: try match goal with
         | E : fpow _ _ = Raise _ |- _ =>
             apply fpow_Raise in E as [-> _]; right; right; right;
             split; [reflexivity|discriminate]
         end.
    all: match goal with
         | E : fdiv _ _ = Raise _ |- _ => apply fdiv_Raise in E as [-> E]
         end.
    all: right; right; left; split; [reflexivity|]; right;
      split; [reflexivity|]; split; [exact L|]; split; [assumption|congruence].
  - destruct (assert_eqb_inv (length sec_data) 1 _ eq_refl) as [[L E]|[L E]];
      rewrite E in H; cbn [mbind result_bind] in H.
    2: { injection H as <-. right; left. auto 6. }
    chase H; try discriminate H; injection H as <-.
    match goal with
    | E : fpow _ _ = Raise _ |- _ =>
        apply fpow_Raise in E as [-> _]; right; right; right;
        split; [reflexivity|discriminate]
    end.
  - injection H as <-. left. eauto.
Qed.

(** X2.  For a rectangle with sides between [2 ^ -60] and [2 ^ 60], where no
    power leaves the range of the floats, the call returns, [It] is the
    smaller of the two moments of inertia and [Is] the larger, both are
    positive, so is the torsional constant, and the two moments coincide
    exactly for a square. *)
Theorem Rectangle_moments_ordered (x y : R) :
  / 2 ^ 60 <= x <= 2 ^ 60 -> / 2 ^ 60 <= y <= 2 ^ 60 ->
  exists It Is Tor,
    CalculateMomentOfInertiaOfArea SectionRectangle [x; y]
    = Ok (<["SectionKey.It" := It]> (<["SectionKey.Is" := Is]>
            (<["SectionKey.Tor" := Tor]> ∅))) /\
    0 < It <= Is /\ 0 < Tor /\ (It = Is <-> x = y).
Proof.
  intros Hx Hy. destruct pow2_60_ge_1 as [P P1].
  destruct (Rectangle_branch x y Hx Hy) as (Tor & -> & HT).
  set (a := Rmax x y). set (b := Rmin x y).
  assert (Hb : 0 < b) by (unfold b; apply Rmin_glb_lt; lra).
  assert (Hba : b <= a)
    by (unfold a, b; apply Rle_trans with x; [apply Rmin_l|apply Rmax_l]).
  assert (Ha : 0 < a) by lra.
  assert (Hxy : a = b <-> x = y).
  { unfold a, b. split.
    - intros E. destruct (Rle_dec x y) as [L|L].
      + rewrite Rmax_right, Rmin_left in E by lra. lra.
      + rewrite Rmax_left, Rmin_right in E by lra. lra.
    - intros ->. rewrite Rmax_left, Rmin_left by lra. reflexivity. }
  assert (Hord : 0 < b ^ 3 * a / 12 <= a ^ 3 * b / 12).
  { split.
    - assert (0 < b ^ 3) by (apply pow_lt; lra). nra.
    - assert (Q : 0 <= (a * b) * ((a - b) * (a + b))).
      { apply Rmult_le_pos; [nra|]. apply Rmult_le_pos; lra. }
      replace (a ^ 3 * b / 12)
        with (b ^ 3 * a / 12 + (a * b) * ((a - b) * (a + b)) / 12) by field.
      lra. }
  assert (Heq : b ^ 3 * a / 12 = a ^ 3 * b / 12 <-> a = b).
  { split; [|intros ->; lra]. intros E.
    assert (E' : (a * b) * ((a - b) * (a + b)) = 0).
    { replace ((a * b) * ((a - b) * (a + b))) with (a ^ 3 * b - b ^ 3 * a)
        by ring. lra. }
    apply Rmult_integral in E' as [E'|E']; [nra|].
    apply Rmult_integral in E' as [E'|E']; lra. }
  do 3 eexists. split; [reflexivity|]. split; [exact Hord|].
  split; [exact HT|]. rewrite Heq. exact Hxy.
Qed.

Lemma Rectangle_moments_ordered_witness :
  exists It Is Tor,
    CalculateMomentOfInertiaOfArea SectionRectangle [1; 2]
    = Ok (<["SectionKey.It" := It]> (<["SectionKey.Is" := Is]>
            (<["SectionKey.Tor" := Tor]> ∅))) /\
    0 < It <= Is /\ 0 < Tor /\ (It = Is <-> 1 = 2).
Proof.
  apply (Rectangle_moments_ordered 1 2); apply one_two_in_range.
Defined.

(** X3.  When [CalculateMomentOfInertiaOfArea] raises, and what: [SystemExit]
    with code 1 exactly for a section type other than the three it knows;
    [AssertionError] exactly for a known type with the wrong number of
    section parameters; [ZeroDivisionError] only for an I-section whose
    flange width has a fourth power that underflows to zero, or whose flange
    thickness is zero, or whose web thickness is zero while the flange
    thickness is negative, and for a rectangle whose larger side is zero and
    whose smaller side is not; and beyond these only [OverflowError], from a
    power that leaves the range of the floats. *)
Theorem CalculateMomentOfInertiaOfArea_raises (sec_type : BeamSectionType)
    (sec_data : list R) :
  (CalculateMomentOfInertiaOfArea sec_type sec_data = Raise (SystemExit 1) <->
     exists name, sec_type = SectionOther name) /\
  (CalculateMomentOfInertiaOfArea sec_type sec_data = Raise AssertionError <->
     sec_type = SectionI /\ length sec_data <> 6%nat \/
     sec_type = SectionRectangle /\ length sec_data <> 2%nat \/
     sec_type = SectionCircleSolid /\ length sec_data <> 1%nat) /\
  (CalculateMomentOfInertiaOfArea sec_type sec_data = Raise ZeroDivisionError ->
     sec_type = SectionI /\ length sec_data = 6%nat /\
       (Rabs (nth 0 sec_data 0 ^ 4) <= float_tiny \/ nth 3 sec_data 0 = 0 \/
        (nth 3 sec_data 0 < 0 /\ nth 5 sec_data 0 = 0)) \/
     sec_type = SectionRectangle /\ length sec_data = 2%nat /\
       Rmax (nth 0 sec_data 0) (nth 1 sec_data 0) = 0 /\
       Rmin (nth 0 sec_data 0) (nth 1 sec_data 0) <> 0) /\
  (forall e, CalculateMomentOfInertiaOfArea sec_type sec_data = Raise e ->
     e = SystemExit 1 \/ e = AssertionError \/ e = ZeroDivisionError \/
     e = OverflowError).
Proof.
  pose proof (moments_Raise_cases sec_type sec_data) as A.
  repeat split.
  - intros H. destruct (A _ H) as [(_ & N)|[(E & _)|[(E & _)|(E & _)]]];
      [exact N|discriminate..].
  - intros [name ->]. reflexivity.
  - intros H. destruct (A _ H) as [(E & _)|[(_ & N)|[(E & _)|(E & _)]]];
      [discriminate|exact N|discriminate..].
  - intros [(-> & L)|[(-> & L)|(-> & L)]];
      unfold CalculateMomentOfInertiaOfArea;
      match goal with
      | |- context [assert (Nat.eqb ?n ?m)] =>
          destruct (assert_eqb_inv n m _ eq_refl) as [[L' E]|[L' E]];
            [contradiction|rewrite E; reflexivity]
      end.
  - intros H. destruct (A _ H) as [(E & _)|[(E & _)|[(_ & N)|(E & _)]]];
      [discriminate|discriminate|exact N|discriminate].
  - intros e H. destruct (A _ H) as [(E & _)|[(E & _)|[(E & _)|(E & _)]]]; auto.
Qed.

(** X4.  An I-section whose web is as thick as its flanges are wide is a
    solid rectangle of width [w] and height [h].  For [w], [h] and the flange
    thickness between [2 ^ -60] and [2 ^ 60], where no power leaves the range
    of the floats, both branches return and agree on its two moments of
    inertia, [w * h ^ 3 / 12] and [h * w ^ 3 / 12].  They file them under the
    same keys when [h <= w] and under exchanged keys when [w <= h]: the
    I-section branch puts the moment about the axis across the web under
    [SectionKey.It], the rectangle branch puts the smaller moment there. *)
Theorem solid_I_section_moments (w h tf x1 x4 : R) :
  / 2 ^ 60 <= w <= 2 ^ 60 -> / 2 ^ 60 <= h <= 2 ^ 60 ->
  / 2 ^ 60 <= tf <= 2 ^ 60 ->
  exists TorI,
    CalculateMomentOfInertiaOfArea SectionI [w; x1; h; tf; x4; w]
    = Ok (<["SectionKey.It" := w * h ^ 3 / 12]>
            (<["SectionKey.Is" := h * w ^ 3 / 12]>
               (<["SectionKey.Tor" := TorI]> ∅))) /\
    (w <= h -> exists TorR,
       CalculateMomentOfInertiaOfArea SectionRectangle [w; h]
       = Ok (<["SectionKey.It" := h * w ^ 3 / 12]>
               (<["SectionKey.Is" := w * h ^ 3 / 12]>
                  (<["SectionKey.Tor" := TorR]> ∅)))) /\
    (h <= w -> exists TorR,
       CalculateMomentOfInertiaOfArea SectionRectangle [w; h]
       = Ok (<["SectionKey.It" := w * h ^ 3 / 12]>
               (<["SectionKey.Is" := h * w ^ 3 / 12]>
                  (<["SectionKey.Tor" := TorR]> ∅)))).
Proof.
  intros Hw Hh Hf. destruct pow2_60_ge_1 as [P P1].
  set (A := 2 ^ 60) in *.
  assert (Hw0 : 0 < w) by lra. assert (Hh0 : 0 < h) by lra.
  assert (Hf0 : 0 < tf) by lra.
  destruct (Rectangle_branch w h Hw Hh) as (TorR & HR & _).
  unfold CalculateMomentOfInertiaOfArea at 1.
  cbn [length Nat.eqb assert nth mbind result_bind].
  rewrite (fpow_range h 60 3 Hh) by lia. cbn [mbind result_bind].
  destruct (fpow_bounded (h - 2 * tf) 62 3) as [e3 ->]; [|lia|].
  { replace 62%nat with (2 + 60)%nat by reflexivity. rewrite pow_add.
    fold A. replace (2 ^ 2) with 4 by (cbn; lra).
    apply Rabs_le. lra. }
  cbn [mbind result_bind].
  rewrite (fpow_range w 60 3 Hw) by lia. cbn [mbind result_bind].
  rewrite (fpow_range tf 60 3 Hf) by lia. cbn [mbind result_bind].
  rewrite (fpow_range tf 60 4 Hf) by lia. cbn [mbind result_bind].
  rewrite (fpow_range tf 60 8 Hf) by lia. cbn [mbind result_bind].
  rewrite (fpow_range w 60 4 Hw) by lia. cbn [mbind result_bind].
  rewrite (fdiv_Ok _ (w ^ 4)) by (apply pow_nonzero; lra).
  cbn [mbind result_bind].
  rewrite (fpow_range tf 60 2 Hf) by lia. cbn [mbind result_bind].
  rewrite (fdiv_Ok (tf ^ 2 + w * w * (25 / 100)) tf) by lra.
  cbn [mbind result_bind].
  assert (Halpha : exists alpha,
            (if Rlt_dec tf w
             then fdiv tf w ≫= λ r : R, Ok (r * (15 / 100))
             else fdiv w tf ≫= λ r : R, Ok (r * (15 / 100))) = Ok alpha).
  { destruct (Rlt_dec tf w); rewrite fdiv_Ok by lra; eexists; reflexivity. }
  destruct Halpha as [alpha ->]. cbn [mbind result_bind].
  destruct (fpow_bounded ((tf ^ 2 + w * w * (25 / 100)) / tf) 181 4)
    as [D4 ->]; [|lia|].
  { replace 181%nat with (1 + (60 + (60 + 60)))%nat by reflexivity.
    rewrite !pow_add, pow_1. fold A.
    assert (N : 0 <= tf ^ 2 + w * w * (25 / 100) <= 2 * (A * A)).
    { assert (tf ^ 2 <= A * A) by nra. assert (w * w <= A * A) by nra.
      assert (0 <= tf ^ 2) by nra. assert (0 <= w * w) by nra. lra. }
    assert (I : 0 < / tf <= A).
    { split; [apply Rinv_0_lt_compat; lra|].
      rewrite <- (Rinv_inv A). apply Rinv_le_contravar; lra. }
    rewrite Rabs_pos_eq by (apply Rmult_le_pos; lra).
    unfold Rdiv. replace (2 * (A * (A * A))) with (2 * (A * A) * A) by ring.
    apply Rmult_le_compat; lra. }
  cbn [mbind result_bind].
  eexists. split; [apply dict3_ext; [field|field|reflexivity]|].
  split; intros Hle; exists TorR; rewrite HR.
  - rewrite Rmax_right, Rmin_left by exact Hle.
    apply dict3_ext; [field|field|reflexivity].
  - rewrite Rmax_left, Rmin_right by exact Hle.
    apply dict3_ext; [field|field|reflexivity].
Qed.

Lemma solid_I_section_moments_witness :
  exists TorI,
    CalculateMomentOfInertiaOfArea SectionI [1; 1; 2; 1; 1; 1]
    = Ok (<["SectionKey.It" := 1 * 2 ^ 3 / 12]>
            (<["SectionKey.Is" := 2 * 1 ^ 3 / 12]>
               (<["SectionKey.Tor" := TorI]> ∅))) /\
    (1 <= 2 -> exists TorR,
       CalculateMomentOfInertiaOfArea SectionRectangle [1; 2]
       = Ok (<["SectionKey.It" := 2 * 1 ^ 3 / 12]>
               (<["SectionKey.Is" := 1 * 2 ^ 3 / 12]>
                  (<["SectionKey.Tor" := TorR]> ∅)))) /\
    (2 <= 1 -> exists TorR,
       CalculateMomentOfInertiaOfArea SectionRectangle [1; 2]
       = Ok (<["SectionKey.It" := 1 * 2 ^ 3 / 12]>
               (<["SectionKey.Is" := 2 * 1 ^ 3 / 12]>
                  (<["SectionKey.Tor" := TorR]> ∅)))).
Proof.
  apply (solid_I_section_moments 1 2 1 1 1); apply one_two_in_range.
Defined.

(** X5.  [CalEffectiveShearArea] divides by constants only: it returns
    exactly when the section type is one of the three it knows, the number
    of section parameters is the one asserted for that type and, for a solid
    circle, the square of the radius is within the floats; otherwise it
    raises [SystemExit] with code 1 (unknown type), [AssertionError] (wrong
    number of parameters) or [OverflowError] (the square of the radius of a
    solid circle beyond the largest float), and nothing else. *)
Theorem CalEffectiveShearArea_returns (sec_type : BeamSectionType)
    (sec_data : list R) :
  (is_Ok (CalEffectiveShearArea sec_type sec_data) = true <->
     sec_type = SectionRectangle /\ length sec_data = 2%nat \/
     sec_type = SectionCircleSolid /\ length sec_data = 1%nat /\
       Rabs (nth 0 sec_data 0 ^ 2) <= float_max \/
     sec_type = SectionI /\ length sec_data = 6%nat) /\
  (forall e, CalEffectiveShearArea sec_type sec_data = Raise e ->
     (e = SystemExit 1 /\ exists name, sec_type = SectionOther name) \/
     (e = AssertionError /\
        (sec_type = SectionRectangle /\ length sec_data <> 2%nat \/
         sec_type = SectionCircleSolid /\ length sec_data <> 1%nat \/
         sec_type = SectionI /\ length sec_data <> 6%nat)) \/
     (e = OverflowError /\ sec_type = SectionCircleSolid /\
        length sec_data = 1%nat /\
        float_max < Rabs (nth 0 sec_data 0 ^ 2))).
Proof.
  destruct sec_type as [| | |name]; unfold CalEffectiveShearArea; cbv zeta.
  1: destruct (assert_eqb_inv (length sec_data) 6 _ eq_refl) as [[L ->]|[L ->]].
  3: destruct (assert_eqb_inv (length sec_data) 2 _ eq_refl) as [[L ->]|[L ->]].
  5: destruct (assert_eqb_inv (length sec_data) 1 _ eq_refl) as [[L ->]|[L ->]].
  5: { cbn [mbind result_bind].
       destruct (fpow (nth 0 sec_data 0) 2) as [v|e0] eqn:E;
         cbn [mbind result_bind].
       - cbn [is_Ok]. apply fpow_inv in E as [E _]. split.
         + split; [intros _|reflexivity]. right; left. auto.
         + discriminate.
       - apply fpow_Raise in E as [-> E]. cbn [is_Ok]. split.
         + split; [discriminate|].
           intros [(H & _)|[(_ & _ & H)|(H & _)]]; exfalso;
             [discriminate|exact (Rlt_not_le _ _ E H)|discriminate].
         + intros e [= <-]. right; right. auto. }
  all: cbn; split; [split|intros e];
    intuition (first [discriminate | congruence | idtac]).
  all: try (injection H as <-).
  all: eauto 8.
Qed.

(** X6.  The area reported for an I-section is the area of the rectangle
    around it, as the rectangle branch computes it for [(w, h)], less the two
    recesses beside the web; the two branches agree on a section whose web is
    as thick as the flanges are wide. *)
Theorem I_section_area (w x1 h tf x4 tw : R) :
  exists A_I Is_I It_I A_R Is_R It_R,
    CalEffectiveShearArea SectionI [w; x1; h; tf; x4; tw]
    = Ok (<["SectionKey.Area" := A_I]> (<["SectionKey.Is" := Is_I]>
            (<["SectionKey.It" := It_I]> ∅))) /\
    CalEffectiveShearArea SectionRectangle [w; h]
    = Ok (<["SectionKey.Area" := A_R]> (<["SectionKey.Is" := Is_R]>
            (<["SectionKey.It" := It_R]> ∅))) /\
    A_I = A_R - (w - tw) * (h - 2 * tf) /\
    (tw = w -> A_I = A_R).
Proof.
  do 6 eexists. split; [reflexivity|]. split; [reflexivity|].
  cbn [nth]. split; [ring|]. intros ->. ring.
Qed.

Lemma I_section_area_witness :
  exists A_I Is_I It_I A_R Is_R It_R,
    CalEffectiveShearArea SectionI [1; 1; 2; 1 / 4; 1 / 4; 1]
    = Ok (<["SectionKey.Area" := A_I]> (<["SectionKey.Is" := Is_I]>
            (<["SectionKey.It" := It_I]> ∅))) /\
    CalEffectiveShearArea SectionRectangle [1; 2]
    = Ok (<["SectionKey.Area" := A_R]> (<["SectionKey.Is" := Is_R]>
            (<["SectionKey.It" := It_R]> ∅))) /\
    A_I = A_R - (1 - 1) * (2 - 2 * (1 / 4)) /\
    (1 = 1 -> A_I = A_R).
Proof. apply (I_section_area 1 1 2 (1 / 4) (1 / 4) 1). Defined.

(** *** Beam189.ElementStiffness and the exceptions of Beam188.ElementStiffness *)

Ltac entries :=
  repeat match goal with
  | |- @eq (list (list R)) (_ :: _) (_ :: _) => apply (f_equal2 cons)
  | |- @eq (list R) (_ :: _) (_ :: _) => apply (f_equal2 cons)
  | |- @eq (list _) [] [] => reflexivity
  | |- @eq R _ _ => ring
  end.

(** The matrix of lines 253-258 is the outer product of the vector [(c, -c)]
    with itself, [c] being the direction cosines of the beam axis. *)
Lemma bar_matrix_outer (s Cx Cy Cz : R) :
  scale2 s
    [[Cx ^ 2; Cx * Cy; Cx * Cz; - Cx ^ 2; - (Cx * Cy); - (Cx * Cz)];
     [Cx * Cy; Cy ^ 2; Cy * Cz; - (Cx * Cy); - Cy ^ 2; - (Cy * Cz)];
     [Cx * Cz; Cy * Cz; Cz ^ 2; - (Cx * Cz); - (Cy * Cz); - Cz ^ 2];
     [- Cx ^ 2; - (Cx * Cy); - (Cx * Cz); Cx ^ 2; Cx * Cy; Cx * Cz];
     [- (Cx * Cy); - Cy ^ 2; - (Cy * Cz); Cx * Cy; Cy ^ 2; Cy * Cz];
     [- (Cx * Cz); - (Cy * Cz); - Cz ^ 2; Cx * Cz; Cy * Cz; Cz ^ 2]]
  = scale2 s (outer ([Cx; Cy; Cz] ++ (Ropp <$> [Cx; Cy; Cz]))
                    ([Cx; Cy; Cz] ++ (Ropp <$> [Cx; Cy; Cz]))).
Proof.
  unfold scale2, scale1, outer. cbn [fmap list_fmap app]. entries.
Qed.

Lemma has_shape_rows (a : matrix) (m : nat) :
  has_shape a m 3 = true ->
  length a = m /\
  Forall (fun row : vec => exists x y z, row = [x; y; z]) a.
Proof.
  unfold has_shape. intros H. apply andb_prop in H as [H1 H2].
  apply Nat.eqb_eq in H1. split; [exact H1|]. clear H1.
  induction a as [|row a IH]; [constructor|].
  cbn in H2. apply andb_prop in H2 as [Hr H2]. apply Nat.eqb_eq in Hr.
  constructor; [|apply IH, H2].
  destruct row as [|x [|y [|z [|]]]]; try discriminate Hr. eauto.
Qed.

Lemma has_shape_4_3 (a : matrix) :
  has_shape a 4 3 = true ->
  exists x0 y0 z0 x1 y1 z1 x2 y2 z2 x3 y3 z3,
    a = [[x0; y0; z0]; [x1; y1; z1]; [x2; y2; z2]; [x3; y3; z3]].
Proof.
  intros H. apply has_shape_rows in H as [L F].
  destruct a as [|r0 [|r1 [|r2 [|r3 [|]]]]]; try discriminate L.
  repeat match goal with
  | H : Forall _ (_ :: _) |- _ => apply Forall_cons in H as [(? & ? & ? & ->) H]
  end.
  repeat eexists.
Qed.

Lemma has_shape_3_3 (a : matrix) :
  has_shape a 3 3 = true ->
  exists x0 y0 z0 x1 y1 z1 x2 y2 z2,
    a = [[x0; y0; z0]; [x1; y1; z1]; [x2; y2; z2]].
Proof.
  intros H. apply has_shape_rows in H as [L F].
  destruct a as [|r0 [|r1 [|r2 [|]]]]; try discriminate L.
  repeat match goal with
  | H : Forall _ (_ :: _) |- _ => apply Forall_cons in H as [(? & ? & ? & ->) H]
  end.
  repeat eexists.
Qed.

(** Two sample points are enough for the loop of lines 233-246, whatever
    they are. *)
Lemma Beam189_GaussLoop_Ok (L : R) (spt weight : vec) :
  (2 <= length spt)%nat -> (2 <= length weight)%nat ->
  exists K,
    foldM (Beam189_GaussRound L spt weight) (zeros2 6 6) (range 2) = Ok K.
Proof.
  intros Hs Hw.
  destruct spt as [|s0 [|s1 spt]]; cbn in Hs; try lia.
  destruct weight as [|w0 [|w1 weight]]; cbn in Hw; try lia.
  eexists. cbn. reflexivity.
Qed.

Lemma sum_squares_pos (dx dy dz : R) :
  [dx; dy; dz] <> [0; 0; 0] -> 0 < dot [dx; dy; dz] [dx; dy; dz].
Proof.
  intros H. unfold dot. cbn.
  destruct (Req_dec_T dx 0) as [->|Hx]; [|nra].
  destruct (Req_dec_T dy 0) as [->|Hy]; [|nra].
  destruct (Req_dec_T dz 0) as [->|Hz]; [contradiction|nra].
Qed.

Section Beam189_facts.

Variable GetEquivalentCoff : BeamSectionType -> result (R * R).
Variable GetSamplePointAndWeight : nat -> result (vec * vec).

Lemma Beam189_raises (self : Beam189) :
  exists e,
    Beam189_ElementStiffness BeamCalculator_GetEquivalentCoff
      GetSamplePointAndWeight self = Raise e.
Proof.
  unfold Beam189_ElementStiffness, BeamCalculator_GetEquivalentCoff.
  repeat match goal with
  | |- exists e, mbind _ (Raise ?x) = Raise e => eexists; reflexivity
  | |- exists e, mbind _ ?r = Raise e =>
      destruct r as [?|?] eqn:?; cbn; [|eexists; reflexivity]
  end.
  eexists; reflexivity.
Qed.

(** What a call that returns has gone through, and what it returns. *)
Lemma Beam189_ElementStiffness_Ok (self : Beam189) (K : matrix) :
  Beam189_ElementStiffness GetEquivalentCoff GetSamplePointAndWeight self
    = Ok K ->
  exists x0 y0 z0 x1 y1 z1 r2 r3 E A,
    node_coords self = [[x0; y0; z0]; [x1; y1; z1]; r2; r3] /\
    cha_dict self !! "MaterialKey.E" = Some E /\
    cha_dict self !! "PropertyKey.ThicknessOrArea" = Some A /\
    let delta := [x1 - x0; y1 - y0; z1 - z0] in
    let L := sqrt (dot delta delta) in
    let c := (fun x => x / L) <$> delta in
    K = scale2 (E * A / L) (outer (c ++ (Ropp <$> c)) (c ++ (Ropp <$> c))).
Proof.
  unfold Beam189_ElementStiffness. intros H.
  destruct (has_shape (node_coords self) 4 3) eqn:Hs; [|discriminate H].
  apply has_shape_4_3 in Hs
    as (x0 & y0 & z0 & x1 & y1 & z1 & x2 & y2 & z2 & x3 & y3 & z3 & Hn).
  rewrite Hn in H. cbn [assert mbind result_bind diff0 zip_with getitem lookup
    list_lookup of_option] in H.
  unfold dict_getitem in H.
  destruct (cha_dict self !! "MaterialKey.E") as [E|] eqn:HE;
    [|discriminate H].
  destruct (cha_dict self !! "PropertyKey.ThicknessOrArea") as [A|] eqn:HA;
    [|discriminate H].
  destruct (cha_dict self !! "MaterialKey.G") as [G|]; [|discriminate H].
  cbn [of_option mbind result_bind] in H.
  destruct (CalculateMomentOfInertiaOfArea _ _) as [I|]; [|discriminate H].
  cbn [mbind result_bind] in H.
  destruct (GetEquivalentCoff _) as [k|]; [|discriminate H].
  cbn [mbind result_bind] in H.
  destruct (GetSamplePointAndWeight 2) as [[spt weight]|]; [|discriminate H].
  cbn [mbind result_bind] in H.
  destruct (foldM _ _ _) as [K0|]; [|discriminate H].
  cbn [mbind result_bind fmap list_fmap unpack3] in H.
  injection H as <-.
  exists x0, y0, z0, x1, y1, z1, [x2; y2; z2], [x3; y3; z3], E, A.
  repeat split; try assumption. cbv zeta. cbn [fmap list_fmap].
  apply bar_matrix_outer.
Qed.

(** X7.  With the class [BeamCalculator] as this file defines it,
    [Beam189.ElementStiffness] never returns: every call raises, and a call
    on an element with four nodes in space, with the three material and
    property entries and with section data that [CalculateMomentOfInertiaOfArea]
    accepts, raises [AttributeError] at the lookup of
    [BeamCalculator.GetEquivalentCoff]. *)
Theorem Beam189_ElementStiffness_never_returns (self : Beam189) :
  (exists e,
     Beam189_ElementStiffness BeamCalculator_GetEquivalentCoff
       GetSamplePointAndWeight self = Raise e) /\
  (forall E A G I,
     has_shape (node_coords self) 4 3 = true ->
     cha_dict self !! "MaterialKey.E" = Some E ->
     cha_dict self !! "PropertyKey.ThicknessOrArea" = Some A ->
     cha_dict self !! "MaterialKey.G" = Some G ->
     CalculateMomentOfInertiaOfArea (sec_type self) (sec_data self) = Ok I ->
     Beam189_ElementStiffness BeamCalculator_GetEquivalentCoff
       GetSamplePointAndWeight self = Raise AttributeError).
Proof.
  split; [apply Beam189_raises|].
  intros E A G I Hs HE HA HG HI. unfold Beam189_ElementStiffness.
  rewrite Hs. apply has_shape_4_3 in Hs
    as (x0 & y0 & z0 & x1 & y1 & z1 & x2 & y2 & z2 & x3 & y3 & z3 & Hn).
  rewrite Hn. cbn [assert mbind result_bind diff0 zip_with getitem lookup
    list_lookup of_option].
  unfold dict_getitem. rewrite HE, HA, HG. cbn [of_option mbind result_bind].
  rewrite HI. reflexivity.
Qed.

(** X8.  Once the two functions that are missing from this file are there
    and return (the second with at least two sample points and weights), a
    call on an element with four nodes in space whose first two nodes are
    distinct, with the three material and property entries and with
    acceptable section data returns [E * A / L] times the outer product of
    [(c, -c)] with itself, where [L] is the distance between the first two
    nodes and [c] the direction cosines from the first to the second.  The
    matrix accumulated over the sample points, the shear modulus, the section
    moments and the third and fourth node do not enter the result. *)
Theorem Beam189_ElementStiffness_returns (self : Beam189)
    (x0 y0 z0 x1 y1 z1 : R) (r2 r3 : vec) (E A G : R) (I : gmap string R)
    (k : R * R) (spt weight : vec) :
  node_coords self = [[x0; y0; z0]; [x1; y1; z1]; r2; r3] ->
  length r2 = 3%nat -> length r3 = 3%nat ->
  [x0; y0; z0] <> [x1; y1; z1] ->
  cha_dict self !! "MaterialKey.E" = Some E ->
  cha_dict self !! "PropertyKey.ThicknessOrArea" = Some A ->
  cha_dict self !! "MaterialKey.G" = Some G ->
  CalculateMomentOfInertiaOfArea (sec_type self) (sec_data self) = Ok I ->
  GetEquivalentCoff (sec_type self) = Ok k ->
  GetSamplePointAndWeight 2 = Ok (spt, weight) ->
  (2 <= length spt)%nat -> (2 <= length weight)%nat ->
  let delta := [x1 - x0; y1 - y0; z1 - z0] in
  let L := sqrt (dot delta delta) in
  let c := (fun x => x / L) <$> delta in
  Beam189_ElementStiffness GetEquivalentCoff GetSamplePointAndWeight self
  = Ok (scale2 (E * A / L) (outer (c ++ (Ropp <$> c)) (c ++ (Ropp <$> c)))).
Proof.
  intros Hn L2 L3 _ HE HA HG HI Hk Hg Hs Hw. cbv zeta.
  unfold Beam189_ElementStiffness. rewrite Hn.
  assert (Hsh : has_shape [[x0; y0; z0]; [x1; y1; z1]; r2; r3] 4 3 = true).
  { unfold has_shape. cbn. rewrite L2, L3. reflexivity. }
  rewrite Hsh. cbn [assert mbind result_bind diff0 zip_with getitem lookup
    list_lookup of_option].
  unfold dict_getitem. rewrite HE, HA, HG. cbn [of_option mbind result_bind].
  rewrite HI. cbn [mbind result_bind]. rewrite Hk. cbn [mbind result_bind].
  rewrite Hg. cbn [mbind result_bind].
  destruct (Beam189_GaussLoop_Ok
              (sqrt (dot [x1 - x0; y1 - y0; z1 - z0]
                         [x1 - x0; y1 - y0; z1 - z0]))
              spt weight Hs Hw) as [K0 HK0].
  destruct r2 as [|? [|? [|? [|]]]]; try discriminate L2.
  destruct r3 as [|? [|? [|? [|]]]]; try discriminate L3.
  cbn [diff0 zip_with]. rewrite HK0.
  cbn [mbind result_bind fmap list_fmap unpack3]. f_equal.
  apply bar_matrix_outer.
Qed.

(** X9.  Whenever [Beam189.ElementStiffness] returns for an element whose
    first two nodes are distinct, the matrix is symmetric, it maps a rigid
    translation (the same displacement at both nodes) to zero force, and for
    [E * A >= 0] it is positive semidefinite. *)
Theorem Beam189_stiffness_symmetric_psd (self : Beam189) (K : matrix)
    (r0 r1 : vec) :
  node_coords self !! 0%nat = Some r0 ->
  node_coords self !! 1%nat = Some r1 ->
  r0 <> r1 ->
  Beam189_ElementStiffness GetEquivalentCoff GetSamplePointAndWeight self
    = Ok K ->
  transpose K = K /\
  (forall t, length t = 3%nat -> matvec K (t ++ t) = zeros 6) /\
  (forall E A,
     cha_dict self !! "MaterialKey.E" = Some E ->
     cha_dict self !! "PropertyKey.ThicknessOrArea" = Some A ->
     0 <= E * A ->
     forall u, length u = 6%nat -> 0 <= dot u (matvec K u)).
Proof.
  intros H0 H1 Hne H. apply Beam189_ElementStiffness_Ok in H
    as (x0 & y0 & z0 & x1 & y1 & z1 & r2 & r3 & E & A & Hn & HE & HA & HK).
  rewrite Hn in H0, H1. injection H0 as <-. injection H1 as <-.
  cbv zeta in HK. cbn [fmap list_fmap app] in HK.
  set (L := sqrt (dot [x1 - x0; y1 - y0; z1 - z0]
                      [x1 - x0; y1 - y0; z1 - z0])) in HK.
  assert (HL : 0 < L).
  { apply sqrt_lt_R0, sum_squares_pos. intros [= Ex Ey Ez].
    apply Hne. f_equal; [|f_equal; [|f_equal]]; lra. }
  subst K. unfold scale2, scale1, outer. cbn [fmap list_fmap].
  split; [|split].
  - unfold transpose. cbn. entries.
  - intros t Ht. destruct t as [|a [|b [|c [|]]]]; try discriminate Ht.
    unfold matvec, dot, zeros. cbn. entries.
  - intros E' A' HE' HA' Hpos u Hu.
    rewrite HE in HE'. rewrite HA in HA'.
    injection HE' as <-. injection HA' as <-.
    destruct u as [|u1 [|u2 [|u3 [|u4 [|u5 [|u6 [|]]]]]]];
      try discriminate Hu.
    unfold matvec, dot. cbn.
    set (Cx := (x1 - x0) / L). set (Cy := (y1 - y0) / L).
    set (Cz := (z1 - z0) / L).
    assert (Hs : 0 <= E * A / L)
      by (apply Rmult_le_pos; [lra|left; apply Rinv_0_lt_compat; lra]).
    set (s := E * A / L) in *.
    replace (_ + _)
      with (s * (Cx * (u1 - u4) + Cy * (u2 - u5) + Cz * (u3 - u6)) ^ 2)
      by ring.
    apply Rmult_le_pos; [exact Hs|]. apply pow2_ge_0.
Qed.

End Beam189_facts.

(** X10.  The exceptions of [Beam188.ElementStiffness], in the order of the
    statements that raise them: [AssertionError] unless the node coordinates
    have shape (3, 3); then [KeyError] if the Young modulus is missing; for
    an element with the three material and property entries and acceptable
    section data, [AttributeError] at [BeamCalculator.GetEquivalentCoff] with
    the class as this file defines it, and [TypeError] at the product of the
    Young modulus with the dict of section moments were that method
    provided. *)
Theorem Beam188_ElementStiffness_exceptions
    (GetEquivalentCoff : BeamSectionType -> result (R * R)) (self : Beam188) :
  (has_shape (node_coords self) 3 3 = false ->
   ElementStiffness GetEquivalentCoff self = Raise AssertionError) /\
  (has_shape (node_coords self) 3 3 = true ->
   cha_dict self !! "MaterialKey.E" = None ->
   ElementStiffness GetEquivalentCoff self = Raise KeyError) /\
  (forall E A G I,
     has_shape (node_coords self) 3 3 = true ->
     cha_dict self !! "MaterialKey.E" = Some E ->
     cha_dict self !! "PropertyKey.ThicknessOrArea" = Some A ->
     cha_dict self !! "MaterialKey.G" = Some G ->
     CalculateMomentOfInertiaOfArea (sec_type self) (sec_data self) = Ok I ->
     ElementStiffness BeamCalculator_GetEquivalentCoff self
       = Raise AttributeError /\
     (forall k, GetEquivalentCoff (sec_type self) = Ok k ->
        ElementStiffness GetEquivalentCoff self = Raise TypeError)).
Proof.
  split; [|split].
  - intros Hs. unfold ElementStiffness. rewrite Hs. reflexivity.
  - intros Hs HE. unfold ElementStiffness. rewrite Hs.
    apply has_shape_3_3 in Hs
      as (x0 & y0 & z0 & x1 & y1 & z1 & x2 & y2 & z2 & Hn).
    rewrite Hn. cbn [assert mbind result_bind diff0 zip_with getitem lookup
      list_lookup of_option].
    unfold dict_getitem. rewrite HE. reflexivity.
  - intros E A G I Hs HE HA HG HI.
    assert (Hrun : forall GEC,
      ElementStiffness GEC self
      = (GEC (sec_type self) ≫= fun _ : R * R => Raise TypeError)).
    { intros GEC. unfold ElementStiffness. rewrite Hs.
      apply has_shape_3_3 in Hs
        as (x0 & y0 & z0 & x1 & y1 & z1 & x2 & y2 & z2 & Hn).
      rewrite Hn. cbn [assert mbind result_bind diff0 zip_with getitem lookup
        list_lookup of_option].
      unfold dict_getitem. rewrite HE, HA, HG.
      cbn [of_option mbind result_bind]. rewrite HI. cbn [mbind result_bind].
      destruct (GEC (sec_type self)) as [[k1 k2]|]; reflexivity. }
    split; [rewrite Hrun; reflexivity|].
    intros k Hk. rewrite Hrun, Hk. reflexivity.
Qed.

(** The beam along the x axis. *)
Lemma steel_bar_entries :
  steel_bar !! "MaterialKey.E" = Some 210 /\
  steel_bar !! "PropertyKey.ThicknessOrArea" = Some 3 /\
  steel_bar !! "MaterialKey.G" = Some 80.
Proof.
  unfold steel_bar. split; [|split].
  - apply lookup_insert_eq.
  - rewrite lookup_insert_ne by discriminate. apply lookup_insert_eq.
  - rewrite !lookup_insert_ne by discriminate. apply lookup_singleton_eq.
Qed.

Lemma beam189_x_returns :
  exists K, Beam189_ElementStiffness unit_coff two_points beam189_x = Ok K.
Proof.
  destruct steel_bar_entries as (HE & HA & HG).
  unfold Beam189_ElementStiffness, beam189_x, dict_getitem.
  cbn [node_coords cha_dict sec_type sec_data]. rewrite HE, HA, HG.
  rewrite unit_circle_moments. eexists. cbn. reflexivity.
Qed.

Lemma Beam189_ElementStiffness_never_returns_witness :
  Beam189_ElementStiffness BeamCalculator_GetEquivalentCoff two_points
    beam189_x = Raise AttributeError.
Proof.
  destruct steel_bar_entries as (HE & HA & HG).
  eapply (proj2 (Beam189_ElementStiffness_never_returns two_points beam189_x)
            210 3 80);
    [reflexivity|exact HE|exact HA|exact HG|exact unit_circle_moments].
Defined.

Lemma Beam189_ElementStiffness_returns_witness :
  let delta := [2 - 0; 0 - 0; 0 - 0] in
  let L := sqrt (dot delta delta) in
  let c := (fun x => x / L) <$> delta in
  Beam189_ElementStiffness unit_coff two_points beam189_x
  = Ok (scale2 (210 * 3 / L) (outer (c ++ (Ropp <$> c)) (c ++ (Ropp <$> c)))).
Proof.
  destruct steel_bar_entries as (HE & HA & HG).
  eapply (Beam189_ElementStiffness_returns unit_coff two_points beam189_x
            0 0 0 2 0 0 [1; 0; 0] [1; 1; 0] 210 3 80);
    [reflexivity|reflexivity|reflexivity| |exact HE|exact HA|exact HG
    |exact unit_circle_moments|reflexivity|reflexivity|cbn; lia|cbn; lia].
  intros [= H]. lra.
Defined.

Lemma Beam189_stiffness_symmetric_psd_witness :
  exists K,
    Beam189_ElementStiffness unit_coff two_points beam189_x = Ok K /\
    transpose K = K /\
    (forall t, length t = 3%nat -> matvec K (t ++ t) = zeros 6) /\
    (forall E A,
       cha_dict beam189_x !! "MaterialKey.E" = Some E ->
       cha_dict beam189_x !! "PropertyKey.ThicknessOrArea" = Some A ->
       0 <= E * A ->
       forall u, length u = 6%nat -> 0 <= dot u (matvec K u)).
Proof.
  destruct beam189_x_returns as [K HK]. exists K. split; [exact HK|].
  apply (Beam189_stiffness_symmetric_psd unit_coff two_points beam189_x K
           [0; 0; 0] [2; 0; 0]); try reflexivity; [|exact HK].
  intros [= H]. lra.
Defined.

Lemma Beam188_ElementStiffness_exceptions_witness :
  ElementStiffness BeamCalculator_GetEquivalentCoff beam188_x
    = Raise AttributeError /\
  ElementStiffness unit_coff beam188_x = Raise TypeError.
Proof.
  destruct steel_bar_entries as (HE & HA & HG).
  edestruct (proj2 (proj2 (Beam188_ElementStiffness_exceptions unit_coff
                             beam188_x)) 210 3 80) as [H1 H2];
    [reflexivity|exact HE|exact HA|exact HG|exact unit_circle_moments|].
  split; [exact H1|]. apply (H2 (1, 1)). reflexivity.
Defined.

End Beam_facts.

(** ** NLDomain: construction and solver selection *)

Module NLDomain_facts.
Import np NLDomain_py Py_facts np_facts.

Lemma Rabs_zero_iff (x : R) : Rabs x = 0 <-> x = 0.
Proof.
  split; [|intros ->; apply Rabs_R0].
  intros E. destruct (Req_dec_T x 0) as [|n]; [assumption|].
  exfalso. exact (Rabs_no_R0 x n E).
Qed.

(** With solvers that only log their runs, the call logs one run, and which
    one is decided by the flags. *)
Lemma recording_run (CON : SolveControl) (log : list Algorithm) :
  exists a,
    ChooseIncrementalAlgorithm recording CON log = (Ok tt, log ++ [a]) /\
    (a = NewtonRaphson <-> arcln CON = 0 /\ searc CON = false) /\
    (a = LineSearchNewtonRaphson <-> arcln CON = 0 /\ searc CON = true) /\
    (a = ArcLengthNewtonRaphson <-> arcln CON <> 0).
Proof.
  unfold ChooseIncrementalAlgorithm.
  destruct (Req_dec_T (Rabs (arcln CON)) 0) as [E|E];
    rewrite Rabs_zero_iff in E; [destruct (searc CON)|]; cbn;
    eexists; (split; [reflexivity|]);
    intuition (discriminate || congruence).
Qed.

(** C6. [ChooseIncrementalAlgorithm] dispatches by the two flags: zero
    arc-length magnitude without line search runs plain Newton-Raphson, zero
    arc-length magnitude with line search runs the line-search variant, a
    nonzero arc-length magnitude runs the arc-length variant; the call is
    that one driver and nothing else, so with drivers that log their runs the
    log grows by exactly one entry. *)
Theorem ChooseIncrementalAlgorithm_dispatch {W} (S : Solvers W)
    (CON : SolveControl) :
  (arcln CON = 0 -> searc CON = false ->
     ChooseIncrementalAlgorithm S CON = NewtonRaphsonAlgorithm S) /\
  (arcln CON = 0 -> searc CON = true ->
     ChooseIncrementalAlgorithm S CON = LineSearchNewtonRaphsonAlgorithm S) /\
  (arcln CON <> 0 ->
     ChooseIncrementalAlgorithm S CON = ArcLengthNewtonRaphsonAlgorithm S) /\
  (forall log, exists a,
     ChooseIncrementalAlgorithm recording CON log = (Ok tt, log ++ [a])).
Proof.
  split; [|split; [|split]].
  - intros Ha Hs. unfold ChooseIncrementalAlgorithm.
    destruct (Req_dec_T _ _) as [_|E]; [|rewrite Rabs_zero_iff in E; tauto].
    rewrite Hs. reflexivity.
  - intros Ha Hs. unfold ChooseIncrementalAlgorithm.
    destruct (Req_dec_T _ _) as [_|E]; [|rewrite Rabs_zero_iff in E; tauto].
    rewrite Hs. reflexivity.
  - intros Ha. unfold ChooseIncrementalAlgorithm.
    destruct (Req_dec_T _ _) as [E|_]; [rewrite Rabs_zero_iff in E; tauto|].
    reflexivity.
  - intros log. destruct (recording_run CON log) as (a & Ha & _). eauto.
Qed.

Lemma ChooseIncrementalAlgorithm_dispatch_witness :
  ChooseIncrementalAlgorithm recording load_control =
  NewtonRaphsonAlgorithm recording.
Proof.
  apply (proj1 (ChooseIncrementalAlgorithm_dispatch recording load_control));
    reflexivity.
Defined.

Lemma alloc_allocates_only (o : pyobj) : allocates_only (alloc o).
Proof.
  intros h r h' [= <- <-]; cbn. split; [reflexivity|].
  apply prefix_app_r. reflexivity.
Qed.

Lemma plain_classes_well_behaved : well_behaved plain_classes.
Proof.
  unfold well_behaved, plain_classes; cbn.
  split; [|split; [|split]]; apply alloc_allocates_only.
Qed.

Lemma alloc_Ok (o : pyobj) h r h' :
  alloc o h = (Ok r, h') ->
  r = length (objects h) /\ objects h' = objects h ++ [o] /\
  _instance h' = _instance h.
Proof. intros [= <- <-]; cbn. auto. Qed.

(** [__new__]: the reference returned is the one stored in the class
    variable, which is set on the first call and kept afterwards. *)
Lemma NLDomain_new_Ok h r h' :
  instance_in_heap h ->
  NLDomain_new h = (Ok r, h') ->
  _instance h' = Some r /\ (r < length (objects h'))%nat /\
  objects h `prefix_of` objects h' /\
  (forall r0, _instance h = Some r0 -> r = r0 /\ h' = h).
Proof.
  intros Hwf. unfold NLDomain_new. destruct (_instance h) as [r0|] eqn:E.
  - intros [= <- <-]. repeat split; auto. congruence.
  - cbn. intros [= <- <-]; cbn. rewrite length_app; cbn.
    repeat split; try lia; try discriminate.
    apply prefix_app_r. reflexivity.
Qed.

(** [__init__]: the three objects of classes defined in this file are
    allocated by the call, and the attributes of [self] are rebound to the
    objects made by this call. *)
Lemma NLDomain_init_Ok F Dimension self h u h' :
  well_behaved F ->
  (self < length (objects h))%nat ->
  NLDomain_init F Dimension self h = (Ok u, h') ->
  exists a,
    attrs_of h' self = Some a /\
    _instance h' = _instance h /\
    (length (objects h) <= identity_tensor a)%nat /\
    (length (objects h) <= aux_variant a)%nat /\
    (length (objects h) <= global_k a)%nat /\
    objects h' !! identity_tensor a =
      Some (IdentityTensor_obj (IdentityTensor_init Dimension)) /\
    objects h' !! aux_variant a = Some (AuxVariant_obj AuxVariant_init) /\
    objects h' !! global_k a = Some (GlobalK_obj GlobalK_init).
Proof.
  intros (W1 & W2 & W3 & W4) Hself. unfold NLDomain_init. intros E.
  apply bind_Ok in E as (r1 & h1 & E1 & E).
  apply bind_Ok in E as (r2 & h2 & E2 & E).
  apply bind_Ok in E as (r3 & h3 & E3 & E).
  apply bind_Ok in E as (r4 & h4 & E4 & E).
  apply bind_Ok in E as (r5 & h5 & E5 & E).
  apply bind_Ok in E as (r6 & h6 & E6 & E).
  apply bind_Ok in E as (r7 & h7 & E7 & E).
  apply W1 in E1 as [I1 P1]. apply W2 in E3 as [I3 P3].
  apply W3 in E4 as [I4 P4]. apply W4 in E5 as [I5 P5].
  apply alloc_Ok in E2 as (-> & O2 & I2).
  apply alloc_Ok in E6 as (-> & O6 & I6).
  apply alloc_Ok in E7 as (-> & O7 & I7).
  injection E as Eh. subst h'.
  pose proof (prefix_length _ _ P1) as L1.
  pose proof (prefix_length _ _ P3) as L3.
  pose proof (prefix_length _ _ P4) as L4.
  pose proof (prefix_length _ _ P5) as L5.
  assert (L2 : length (objects h2) = S (length (objects h1)))
    by (rewrite O2, length_app; cbn; lia).
  assert (L6 : length (objects h6) = S (length (objects h5)))
    by (rewrite O6, length_app; cbn; lia).
  assert (L7 : length (objects h7) = S (length (objects h6)))
    by (rewrite O7, length_app; cbn; lia).
  eexists. unfold attrs_of; cbn.
  rewrite list_lookup_insert_eq by lia. split; [reflexivity|]. cbn.
  split; [congruence|].
  split; [lia|]. split; [lia|]. split; [lia|].
  rewrite !list_lookup_insert_ne by lia.
  split; [|split].
  - rewrite O7, lookup_app_l by lia. rewrite O6, lookup_app_l by lia.
    eapply prefix_lookup_Some; [|exact P5].
    eapply prefix_lookup_Some; [|exact P4].
    eapply prefix_lookup_Some; [|exact P3].
    rewrite O2. apply list_lookup_middle. reflexivity.
  - rewrite O7, lookup_app_l by lia. rewrite O6.
    apply list_lookup_middle. reflexivity.
  - rewrite O7. apply list_lookup_middle. reflexivity.
Qed.

Lemma attrs_of_in_heap h r a :
  attrs_of h r = Some a -> (r < length (objects h))%nat.
Proof.
  unfold attrs_of. destruct (objects h !! r) as [o|] eqn:E; [|discriminate].
  intros _. eapply lookup_lt_Some, E.
Qed.

(** One evaluation of [NLDomain()]. *)
Lemma NLDomain_call_Ok F Dimension h r h' :
  well_behaved F -> instance_in_heap h ->
  NLDomain F Dimension h = (Ok r, h') ->
  _instance h' = Some r /\
  (forall r0, _instance h = Some r0 -> r = r0) /\
  exists a,
    attrs_of h' r = Some a /\
    (length (objects h) <= identity_tensor a < length (objects h'))%nat /\
    (length (objects h) <= aux_variant a < length (objects h'))%nat /\
    (length (objects h) <= global_k a < length (objects h'))%nat /\
    objects h' !! identity_tensor a =
      Some (IdentityTensor_obj (IdentityTensor_init Dimension)) /\
    objects h' !! aux_variant a = Some (AuxVariant_obj AuxVariant_init) /\
    objects h' !! global_k a = Some (GlobalK_obj GlobalK_init).
Proof.
  intros HF Hwf E. unfold NLDomain in E.
  apply bind_Ok in E as (self & h1 & Enew & E).
  apply bind_Ok in E as (u & h2 & Einit & E).
  injection E as <- <-.
  apply NLDomain_new_Ok in Enew as (Hi & Hlt & Hpre & Hsame); [|assumption].
  apply NLDomain_init_Ok in Einit
    as (a & Ha & Hi2 & L1 & L2 & L3 & O1 & O2 & O3); [|assumption..].
  pose proof (prefix_length _ _ Hpre) as Lp.
  split; [congruence|]. split; [intros r0 Hr0; apply (Hsame r0 Hr0)|].
  exists a. split; [assumption|].
  pose proof (lookup_lt_Some _ _ _ O1). pose proof (lookup_lt_Some _ _ _ O2).
  pose proof (lookup_lt_Some _ _ _ O3).
  repeat split; try assumption; lia.
Qed.

(** C8, as the code has it.  [__new__] keeps the one instance in
    [_instance], "the class variable that stores the unique instance", and
    every evaluation of [NLDomain()] returns it; but [__init__] has no guard
    and runs on it again each time: after a second evaluation the attributes
    [identity_tensor], [aux_variant] and [global_k] refer to objects created
    by that evaluation, different from the ones the first evaluation made,
    and the new [global_k] is a [GlobalK] whose four attributes are
    [None]. *)
Theorem NLDomain_same_instance_new_parts F Dimension h r1 h1 r2 h2 :
  well_behaved F -> instance_in_heap h ->
  NLDomain F Dimension h = (Ok r1, h1) ->
  NLDomain F Dimension h1 = (Ok r2, h2) ->
  r2 = r1 /\
  exists a1 a2,
    attrs_of h1 r1 = Some a1 /\ attrs_of h2 r1 = Some a2 /\
    identity_tensor a2 <> identity_tensor a1 /\
    aux_variant a2 <> aux_variant a1 /\
    global_k a2 <> global_k a1 /\
    (length (objects h1) <= identity_tensor a2)%nat /\
    (length (objects h1) <= aux_variant a2)%nat /\
    (length (objects h1) <= global_k a2)%nat /\
    objects h2 !! identity_tensor a2 =
      Some (IdentityTensor_obj (IdentityTensor_init Dimension)) /\
    objects h2 !! aux_variant a2 = Some (AuxVariant_obj AuxVariant_init) /\
    GlobalK_of h2 (global_k a2) = Some GlobalK_init.
Proof.
  intros HF Hwf E1 E2.
  apply NLDomain_call_Ok in E1
    as (Hi1 & _ & a1 & Ha1 & L1 & L2 & L3 & _); [|assumption..].
  assert (Hwf1 : instance_in_heap h1).
  { intros r Hr. rewrite Hi1 in Hr. injection Hr as <-.
    eapply attrs_of_in_heap, Ha1. }
  apply NLDomain_call_Ok in E2
    as (_ & Hsame & a2 & Ha2 & M1 & M2 & M3 & O1 & O2 & O3); [|assumption..].
  specialize (Hsame r1 Hi1). subst r2.
  split; [reflexivity|]. exists a1, a2.
  unfold GlobalK_of. rewrite O3.
  repeat split; try assumption; lia.
Qed.

Lemma NLDomain_same_instance_new_parts_witness :
  (NLDomain plain_classes 2 heap_after_first).1 = Ok 0%nat /\
  exists a1 a2,
    attrs_of heap_after_first 0%nat = Some a1 /\
    attrs_of heap_after_second 0%nat = Some a2 /\
    global_k a2 <> global_k a1.
Proof.
  destruct (NLDomain_same_instance_new_parts plain_classes 2 empty_heap
              0%nat heap_after_first 0%nat heap_after_second)
    as (_ & a1 & a2 & H1 & H2 & _ & _ & H3 & _).
  - exact plain_classes_well_behaved.
  - intros r; discriminate.
  - reflexivity.
  - reflexivity.
  - split; [reflexivity|]. exists a1, a2. auto.
Defined.

(** C8 at the failing input: in a fresh interpreter the second [NLDomain()]
    returns the same instance, yet the attributes of the instance are not the
    ones the first evaluation left; [global_k] refers to object 7 after the
    first evaluation and to object 14 after the second. *)
Lemma NLDomain_second_call_rebinds :
  (NLDomain plain_classes 2 empty_heap).1 = Ok 0%nat /\
  (NLDomain plain_classes 2 heap_after_first).1 = Ok 0%nat /\
  global_k <$> attrs_of heap_after_first 0%nat = Some 7%nat /\
  global_k <$> attrs_of heap_after_second 0%nat = Some 14%nat /\
  attrs_of heap_after_second 0%nat <> attrs_of heap_after_first 0%nat.
Proof.
  repeat split; try reflexivity.
  intros E. apply (f_equal (fmap global_k)) in E. discriminate E.
Qed.

(** *** IdentityTensor: the loops and the tensors they build *)

Lemma table4_ext (n : nat) (f g : nat -> nat -> nat -> nat -> R) :
  (forall i j k l, (i < n)%nat -> (j < n)%nat -> (k < n)%nat -> (l < n)%nat ->
     f i j k l = g i j k l) ->
  table4 n f = table4 n g.
Proof.
  intros H. unfold table4.
  apply fmap_seq_ext; intros i Hi. apply fmap_seq_ext; intros j Hj.
  apply fmap_seq_ext; intros k Hk. apply fmap_seq_ext; intros l Hl. auto.
Qed.

Lemma getitem4_table4 (n : nat) f (i j k l : nat) :
  (i < n)%nat -> (j < n)%nat -> (k < n)%nat -> (l < n)%nat ->
  getitem4 (table4 n f) i j k l = Ok (f i j k l).
Proof.
  intros Hi Hj Hk Hl. unfold getitem4, getitem, table4.
  rewrite lookup_fmap_seq by exact Hi. cbn.
  rewrite lookup_fmap_seq by exact Hj. cbn.
  rewrite lookup_fmap_seq by exact Hk. cbn.
  rewrite lookup_fmap_seq by exact Hl. reflexivity.
Qed.

Lemma setitem4_table4 (n : nat) f (i j k l : nat) (x : R) :
  (i < n)%nat -> (j < n)%nat -> (k < n)%nat -> (l < n)%nat ->
  setitem4 (table4 n f) i j k l x
  = Ok (table4 n (fun i' j' k' l' =>
                    if at4 i j k l i' j' k' l' then x else f i' j' k' l')).
Proof.
  intros Hi Hj Hk Hl. unfold setitem4, getitem, table4.
  rewrite lookup_fmap_seq by exact Hi. cbn.
  rewrite lookup_fmap_seq by exact Hj. cbn.
  rewrite lookup_fmap_seq by exact Hk. cbn.
  rewrite lookup_fmap_seq by exact Hl. cbn. f_equal.
  rewrite !insert_fmap_seq. unfold at4.
  apply fmap_seq_ext; intros i' _.
  destruct (Nat.eqb_spec i' i) as [->|_]; cbn [andb]; [|reflexivity].
  apply fmap_seq_ext; intros j' _.
  destruct (Nat.eqb_spec j' j) as [->|_]; cbn [andb]; [|reflexivity].
  apply fmap_seq_ext; intros k' _.
  destruct (Nat.eqb_spec k' k) as [->|_]; cbn [andb]; [|reflexivity].
  apply fmap_seq_ext; intros l' _.
  destruct (Nat.eqb_spec l' l) as [->|_]; reflexivity.
Qed.

Lemma partial_table_ext (n : nat) (v v' : nat -> nat -> nat -> nat -> bool) f :
  (forall i j k l, (i < n)%nat -> (j < n)%nat -> (k < n)%nat -> (l < n)%nat ->
     v i j k l = v' i j k l) ->
  partial_table n v f = partial_table n v' f.
Proof.
  intros H. apply table4_ext. intros i j k l Hi Hj Hk Hl.
  rewrite (H i j k l) by assumption. reflexivity.
Qed.

Lemma partial_tables_ext (n : nat) (v v' : nat -> nat -> nat -> nat -> bool) :
  (forall i j k l, (i < n)%nat -> (j < n)%nat -> (k < n)%nat -> (l < n)%nat ->
     v i j k l = v' i j k l) ->
  partial_tables n v = partial_tables n v'.
Proof.
  intros H. unfold partial_tables. f_equal; apply partial_table_ext, H.
Qed.

Lemma getitem2_eye (n i j : nat) :
  (i < n)%nat -> (j < n)%nat ->
  getitem2 (eye n) i j = Ok (entry (eye n) i j) /\
  entry (eye n) i j = kron i j.
Proof.
  intros Hi Hj. unfold getitem2, getitem, entry, eye.
  rewrite lookup_fmap_seq by exact Hi. cbn.
  rewrite lookup_fmap_seq by exact Hj. cbn. auto.
Qed.

Lemma at4_true (i j k l i' j' k' l' : nat) :
  at4 i j k l i' j' k' l' = true -> i' = i /\ j' = j /\ k' = k /\ l' = l.
Proof.
  unfold at4. intros H.
  repeat match type of H with
  | (_ && _)%bool = true => apply andb_prop in H as [H ?H]
  end.
  repeat match goal with
  | H : Nat.eqb _ _ = true |- _ => apply Nat.eqb_eq in H
  end. auto.
Qed.

(** One round of the innermost loop at a position not visited before: the
    position becomes visited. *)
Lemma IdentityTensor_round_visit (n : nat) v (i j k l : nat) :
  (i < n)%nat -> (j < n)%nat -> (k < n)%nat -> (l < n)%nat ->
  v i j k l = false ->
  IdentityTensor_round (eye n) l k j (partial_tables n v) i
  = Ok (partial_tables n
          (fun i' j' k' l' => at4 i j k l i' j' k' l' || v i' j' k' l')).
Proof.
  intros Hi Hj Hk Hl Hv.
  unfold IdentityTensor_round, partial_tables, partial_table.
  rewrite !getitem4_table4 by assumption. rewrite Hv.
  cbn [mbind result_bind].
  rewrite (proj1 (getitem2_eye n i j Hi Hj)). cbn [mbind result_bind].
  rewrite (proj1 (getitem2_eye n k l Hk Hl)). cbn [mbind result_bind].
  rewrite setitem4_table4 by assumption. cbn [mbind result_bind].
  rewrite (proj1 (getitem2_eye n i k Hi Hk)). cbn [mbind result_bind].
  rewrite (proj1 (getitem2_eye n j l Hj Hl)). cbn [mbind result_bind].
  rewrite (proj1 (getitem2_eye n i l Hi Hl)). cbn [mbind result_bind].
  rewrite (proj1 (getitem2_eye n j k Hj Hk)). cbn [mbind result_bind].
  rewrite setitem4_table4 by assumption. cbn [mbind result_bind].
  f_equal. f_equal; apply table4_ext; intros i' j' k' l' _ _ _ _;
    destruct (at4 i j k l i' j' k' l') eqn:E; cbn [orb]; try reflexivity;
    apply at4_true in E as (-> & -> & -> & ->); reflexivity.
Qed.

Ltac bools :=
  unfold visited, at4;
  repeat match goal with
  | |- context [Nat.ltb ?a ?b] => destruct (Nat.ltb_spec a b)
  | |- context [Nat.eqb ?a ?b] => destruct (Nat.eqb_spec a b)
  end; cbn; try reflexivity; try lia.

(** The four loops, innermost first: each takes the positions visited before
    it starts to those visited before the next round of the loop around
    it. *)
Lemma IdentityTensor_loop_i (n l k j : nat) :
  (l < n)%nat -> (k < n)%nat -> (j < n)%nat ->
  foldM (IdentityTensor_round (eye n) l k j)
        (partial_tables n (visited l k j 0)) (range n)
  = Ok (partial_tables n (visited l k (S j) 0)).
Proof.
  intros Hl Hk Hj. unfold range.
  rewrite (foldM_seq_steps _ (fun m => partial_tables n (visited l k j m))).
  - f_equal. apply partial_tables_ext.
    intros i' j' k' l' Hi' Hj' Hk' Hl'; bools.
  - intros m Hm. rewrite IdentityTensor_round_visit by (assumption || bools).
    f_equal. apply partial_tables_ext.
    intros i' j' k' l' Hi' Hj' Hk' Hl'; bools.
Qed.

Lemma IdentityTensor_loop_j (n l k : nat) :
  (l < n)%nat -> (k < n)%nat ->
  foldM (fun acc j =>
           foldM (IdentityTensor_round (eye n) l k j) acc (range n))
        (partial_tables n (visited l k 0 0)) (range n)
  = Ok (partial_tables n (visited l (S k) 0 0)).
Proof.
  intros Hl Hk. unfold range at 2.
  rewrite (foldM_seq_steps _ (fun m => partial_tables n (visited l k m 0))).
  - f_equal. apply partial_tables_ext.
    intros i' j' k' l' Hi' Hj' Hk' Hl'; bools.
  - intros m Hm. apply IdentityTensor_loop_i; assumption.
Qed.

Lemma IdentityTensor_loop_k (n l : nat) :
  (l < n)%nat ->
  foldM (fun acc k =>
           foldM (fun acc j =>
                    foldM (IdentityTensor_round (eye n) l k j) acc (range n))
                 acc (range n))
        (partial_tables n (visited l 0 0 0)) (range n)
  = Ok (partial_tables n (visited (S l) 0 0 0)).
Proof.
  intros Hl. unfold range at 3.
  rewrite (foldM_seq_steps _ (fun m => partial_tables n (visited l m 0 0))).
  - f_equal. apply partial_tables_ext.
    intros i' j' k' l' Hi' Hj' Hk' Hl'; bools.
  - intros m Hm. apply IdentityTensor_loop_j; assumption.
Qed.

Lemma IdentityTensor_loop_l (n : nat) :
  foldM (fun acc l =>
           foldM (fun acc k =>
                    foldM (fun acc j =>
                             foldM (IdentityTensor_round (eye n) l k j) acc
                                   (range n))
                          acc (range n))
                 acc (range n))
        (zeros4 n, zeros4 n) (range n)
  = Ok (table4 n (c1_entry n), table4 n (c2_entry n)).
Proof.
  assert (Z : forall f, zeros4 n = partial_table n (visited 0 0 0 0) f).
  { intros f. unfold zeros4, zeros, partial_table, table4.
    rewrite <- !(fmap_const_seq _ 0 n).
    apply fmap_seq_ext; intros i _; apply fmap_seq_ext; intros j _;
      apply fmap_seq_ext; intros k _; apply fmap_seq_ext; intros l _; bools. }
  rewrite (Z (c1_entry n)) at 1. rewrite (Z (c2_entry n)).
  change (partial_table n (visited 0 0 0 0) (c1_entry n),
          partial_table n (visited 0 0 0 0) (c2_entry n))
    with (partial_tables n (visited 0 0 0 0)).
  unfold range at 4.
  rewrite (foldM_seq_steps _ (fun m => partial_tables n (visited m 0 0 0))).
  - f_equal. unfold partial_tables, partial_table. f_equal; apply table4_ext;
      intros i' j' k' l' Hi' Hj' Hk' Hl';
      replace (visited n 0 0 0 i' j' k' l') with true by (symmetry; bools);
      reflexivity.
  - intros m Hm. apply IdentityTensor_loop_k; assumption.
Qed.

(** The entries of the three arrays. *)
Lemma IdentityTensor_init_entries (d i j k l : nat) :
  (i < d)%nat -> (j < d)%nat -> (k < d)%nat -> (l < d)%nat ->
  getitem2 (I (IdentityTensor_init d)) i j = Ok (kron i j) /\
  getitem4 (c1 (IdentityTensor_init d)) i j k l = Ok (kron i j * kron k l) /\
  getitem4 (c2 (IdentityTensor_init d)) i j k l
    = Ok (kron i k * kron j l + kron i l * kron j k).
Proof.
  intros Hi Hj Hk Hl. unfold IdentityTensor_init. cbn [I c1 c2].
  rewrite !getitem4_table4 by assumption.
  rewrite (proj1 (getitem2_eye d i j Hi Hj)).
  rewrite !(fun a b Ha Hb => proj2 (getitem2_eye d a b Ha Hb)) by assumption.
  repeat split; f_equal; ring.
Qed.

(** X11.  The four nested loops of [IdentityTensor.__init__] run through
    without an index error and leave the arrays of the table form used above:
    [I] is the identity matrix, [c1[i, j, k, l]] is
    [delta(i, j) * delta(k, l)] and [c2[i, j, k, l]] is
    [delta(i, k) * delta(j, l) + delta(i, l) * delta(j, k)]. *)
Theorem IdentityTensor_loops_kronecker (dimension : nat) :
  IdentityTensor_loops dimension = Ok (IdentityTensor_init dimension) /\
  forall i j k l,
    (i < dimension)%nat -> (j < dimension)%nat ->
    (k < dimension)%nat -> (l < dimension)%nat ->
    getitem2 (I (IdentityTensor_init dimension)) i j = Ok (kron i j) /\
    getitem4 (c1 (IdentityTensor_init dimension)) i j k l
      = Ok (kron i j * kron k l) /\
    getitem4 (c2 (IdentityTensor_init dimension)) i j k l
      = Ok (kron i k * kron j l + kron i l * kron j k).
Proof.
  split; [|apply IdentityTensor_init_entries].
  unfold IdentityTensor_loops. cbv zeta. rewrite IdentityTensor_loop_l.
  reflexivity.
Qed.

Lemma IdentityTensor_loops_kronecker_witness :
  IdentityTensor_loops 2 = Ok (IdentityTensor_init 2) /\
  getitem2 (I (IdentityTensor_init 2)) 0 1 = Ok (kron 0 1) /\
  getitem4 (c1 (IdentityTensor_init 2)) 0 1 1 0 = Ok (kron 0 1 * kron 1 0) /\
  getitem4 (c2 (IdentityTensor_init 2)) 0 1 1 0
    = Ok (kron 0 1 * kron 1 0 + kron 0 0 * kron 1 1).
Proof.
  destruct (IdentityTensor_loops_kronecker 2) as [H1 H2].
  split; [exact H1|]. apply (H2 0 1 1 0)%nat; lia.
Defined.

(** X12.  Both fourth-order tensors have the minor symmetries (exchange of
    the first two or of the last two indices) and the major symmetry
    (exchange of the first pair with the last pair). *)
Theorem IdentityTensor_symmetries (d i j k l : nat) :
  (i < d)%nat -> (j < d)%nat -> (k < d)%nat -> (l < d)%nat ->
  let T := IdentityTensor_init d in
  (getitem4 (c1 T) j i k l = getitem4 (c1 T) i j k l /\
   getitem4 (c1 T) i j l k = getitem4 (c1 T) i j k l /\
   getitem4 (c1 T) k l i j = getitem4 (c1 T) i j k l) /\
  (getitem4 (c2 T) j i k l = getitem4 (c2 T) i j k l /\
   getitem4 (c2 T) i j l k = getitem4 (c2 T) i j k l /\
   getitem4 (c2 T) k l i j = getitem4 (c2 T) i j k l).
Proof.
  intros Hi Hj Hk Hl. cbv zeta.
  assert (S : forall a b, kron a b = kron b a).
  { intros a b. unfold kron. rewrite (Nat.eqb_sym a b). reflexivity. }
  destruct (IdentityTensor_init_entries d i j k l Hi Hj Hk Hl) as (_ & -> & ->).
  destruct (IdentityTensor_init_entries d j i k l Hj Hi Hk Hl) as (_ & -> & ->).
  destruct (IdentityTensor_init_entries d i j l k Hi Hj Hl Hk) as (_ & -> & ->).
  destruct (IdentityTensor_init_entries d k l i j Hk Hl Hi Hj) as (_ & -> & ->).
  rewrite (S j i), (S l k), (S k i), (S l j), (S l i), (S k j).
  repeat split; f_equal; ring.
Qed.

Lemma IdentityTensor_symmetries_witness :
  let T := IdentityTensor_init 3 in
  (getitem4 (c1 T) 1 0 2 2 = getitem4 (c1 T) 0 1 2 2 /\
   getitem4 (c1 T) 0 1 2 2 = getitem4 (c1 T) 0 1 2 2 /\
   getitem4 (c1 T) 2 2 0 1 = getitem4 (c1 T) 0 1 2 2) /\
  (getitem4 (c2 T) 1 0 2 2 = getitem4 (c2 T) 0 1 2 2 /\
   getitem4 (c2 T) 0 1 2 2 = getitem4 (c2 T) 0 1 2 2 /\
   getitem4 (c2 T) 2 2 0 1 = getitem4 (c2 T) 0 1 2 2).
Proof. apply (IdentityTensor_symmetries 3 0 1 2 2); lia. Defined.

Lemma entry4_getitem4 (t : tensor4) (i j k l : nat) (x : R) :
  getitem4 t i j k l = Ok x -> entry4 t i j k l = x.
Proof.
  unfold getitem4, entry4, getitem. intros H.
  destruct (t !! i) as [cube|]; [|discriminate]. cbn in *.
  destruct (cube !! j) as [plane|]; [|discriminate]. cbn in *.
  destruct (plane !! k) as [row|]; [|discriminate]. cbn in *.
  destruct (row !! l) as [y|]; [|discriminate]. cbn in *. congruence.
Qed.

Lemma sum_range_ext (n : nat) (f g : nat -> R) :
  (forall k, (k < n)%nat -> f k = g k) -> sum_range n f = sum_range n g.
Proof. intros H. unfold sum_range. f_equal. apply fmap_seq_ext, H. Qed.

Lemma sum_range_S (n : nat) (f : nat -> R) :
  sum_range (S n) f = sum_range n f + f n.
Proof.
  unfold sum_range. rewrite seq_S, fmap_app, foldr_app. cbn.
  generalize (f <$> seq 0 n). intros xs.
  induction xs as [|x xs IH]; cbn; [lra|]. rewrite IH. lra.
Qed.

Lemma sum_range_plus (n : nat) (f g : nat -> R) :
  sum_range n (fun k => f k + g k) = sum_range n f + sum_range n g.
Proof.
  induction n as [|n IH]; [unfold sum_range; cbn; lra|].
  rewrite !sum_range_S, IH. lra.
Qed.

Lemma sum_range_scal (n : nat) (c : R) (f : nat -> R) :
  sum_range n (fun k => c * f k) = c * sum_range n f.
Proof.
  induction n as [|n IH]; [unfold sum_range; cbn; lra|].
  rewrite !sum_range_S, IH. lra.
Qed.

Lemma sum_range_zero (n : nat) (f : nat -> R) :
  (forall k, (k < n)%nat -> f k = 0) -> sum_range n f = 0.
Proof.
  induction n as [|n IH]; intros H; [reflexivity|].
  rewrite sum_range_S, IH, H by (intros; auto with lia). lra.
Qed.

Lemma sum_range_kron (n k : nat) (g : nat -> R) :
  (k < n)%nat -> sum_range n (fun l => kron k l * g l) = g k.
Proof.
  induction n as [|n IH]; intros Hk; [lia|].
  rewrite sum_range_S. destruct (decide (k = n)) as [->|Hne].
  - rewrite sum_range_zero.
    + unfold kron. rewrite Nat.eqb_refl. lra.
    + intros l Hl. unfold kron. destruct (Nat.eqb_spec n l); [lia|lra].
  - rewrite IH by lia. unfold kron. destruct (Nat.eqb_spec k n); [lia|lra].
Qed.

(** X13.  The double contractions of the two tensors with a matrix [A]:
    [c1 : A] is the trace of [A] times the identity, [c2 : A] is [A] plus its
    transpose. *)
Theorem IdentityTensor_contractions (d : nat) (A : matrix) (i j : nat) :
  (i < d)%nat -> (j < d)%nat ->
  let T := IdentityTensor_init d in
  ddot d (c1 T) A i j = kron i j * tr d A /\
  ddot d (c2 T) A i j = entry A i j + entry A j i.
Proof.
  intros Hi Hj. cbv zeta. unfold ddot, tr.
  split.
  - rewrite <- sum_range_scal. apply sum_range_ext. intros k Hk.
    rewrite (sum_range_ext d _ (fun l => kron k l * (kron i j * entry A k l))).
    + apply sum_range_kron, Hk.
    + intros l Hl.
      destruct (IdentityTensor_init_entries d i j k l Hi Hj Hk Hl)
        as (_ & E & _).
      rewrite (entry4_getitem4 _ _ _ _ _ _ E). ring.
  - rewrite (sum_range_ext d _
      (fun k => kron i k * entry A k j + kron j k * entry A k i)).
    + rewrite sum_range_plus, !sum_range_kron by assumption. reflexivity.
    + intros k Hk.
      rewrite (sum_range_ext d _
        (fun l => kron j l * (kron i k * entry A k l)
                  + kron i l * (kron j k * entry A k l))).
      * rewrite sum_range_plus, !sum_range_kron by assumption. ring.
      * intros l Hl.
        destruct (IdentityTensor_init_entries d i j k l Hi Hj Hk Hl)
          as (_ & _ & E).
        rewrite (entry4_getitem4 _ _ _ _ _ _ E). ring.
Qed.

Lemma IdentityTensor_contractions_witness :
  let T := IdentityTensor_init 2 in
  ddot 2 (c1 T) [[1; 2]; [3; 4]] 0 1 = kron 0 1 * tr 2 [[1; 2]; [3; 4]] /\
  ddot 2 (c2 T) [[1; 2]; [3; 4]] 0 1
    = entry [[1; 2]; [3; 4]] 0 1 + entry [[1; 2]; [3; 4]] 1 0.
Proof. apply (IdentityTensor_contractions 2 [[1; 2]; [3; 4]] 0 1); lia. Defined.

(** *** NLDomain.initialisation *)

Section Initialisation_facts.

Context {W : Type} (ext : InitCallees W) (mesh : MeshData).

Lemma call_inv c f (d : Domain W) r d' :
  call c f d = (r, d') ->
  exists w, f (world d) = (r, w) /\
    d' = {| world := w; aux := aux d; calls := calls d ++ [c] |}.
Proof.
  unfold call. destruct (f (world d)) as [r0 w]. intros [= <- <-]. eauto.
Qed.

Lemma call_run c f (d : Domain W) r w :
  f (world d) = (r, w) ->
  call c f d = (r, {| world := w; aux := aux d; calls := calls d ++ [c] |}).
Proof. intros H. unfold call. rewrite H. reflexivity. Qed.

(** Lines 107-124: the three calls after the loop. *)
Lemma after_loop_inv Dimension (d : Domain W) r d' :
  (d0 ← get;
   call (Call_Kinematics_Init Dimension (Mesh_n_nodes_elem mesh)
           (aux_ngauss (aux d0)))
        (Kinematics_Init ext Dimension (Mesh_n_nodes_elem mesh)
           (aux_ngauss (aux d0)));;
   call Call_Geom_InitialVolume (Geom_InitialVolume ext);;
   call Call_ResidualAndStiffnessAssembly
        (run_ResidualAndStiffnessAssembly ext)) d = (r, d') ->
  aux d' = aux d /\
  exists m,
    calls d' = calls d ++
      take m [Call_Kinematics_Init Dimension (Mesh_n_nodes_elem mesh)
                (aux_ngauss (aux d));
              Call_Geom_InitialVolume; Call_ResidualAndStiffnessAssembly] /\
    (1 <= m)%nat /\ (r = Ok tt -> m = 3%nat).
Proof.
  rewrite get_bind. intros H.
  apply bind_inv in H as [(e & H & ->)|([] & d1 & H1 & H)].
  { apply call_inv in H as (w & _ & ->). cbn. split; [reflexivity|].
    exists 1%nat. cbn. repeat split; [lia|discriminate]. }
  apply call_inv in H1 as (w1 & _ & ->).
  apply bind_inv in H as [(e & H & ->)|([] & d2 & H2 & H)].
  { apply call_inv in H as (w & _ & ->). cbn. split; [reflexivity|].
    exists 2%nat. cbn. rewrite <- app_assoc. repeat split; [lia|discriminate]. }
  apply call_inv in H2 as (w2 & _ & ->).
  apply call_inv in H as (w & _ & ->). cbn. split; [reflexivity|].
  exists 3%nat. cbn. rewrite <- !app_assoc. repeat split; lia.
Qed.

(** Lines 98-105: the three ways the body of the loop can end. *)
Lemma AuxFromGroup_inv (item : string * Group) (d : Domain W) r d' :
  AuxFromGroup ext item d = (r, d') ->
  let grp := item.2 in
  let a2 := set_aux_n_dofs_elem (grp_n_dofs_elem grp)
              (set_aux_ngauss (grp_ngauss grp) (aux d)) in
  world d' = world d /\
  ((grp_eles_e_type grp = [] /\ r = Raise IndexError /\
    aux d' = a2 /\ calls d' = calls d) \/
   (exists e_type e,
      grp_eles_e_type grp !! 0%nat = Some e_type /\
      GetElementDNDchi ext e_type = Raise e /\ r = Raise e /\
      aux d' = a2 /\
      calls d' = calls d ++ [Call_GetElementDNDchi e_type]) \/
   (exists e_type weight DN_Dchi,
      grp_eles_e_type grp !! 0%nat = Some e_type /\
      GetElementDNDchi ext e_type = Ok (weight, DN_Dchi) /\ r = Ok Break /\
      aux d' =
        {| aux_ngauss := Some (grp_ngauss grp);
           aux_n_dofs_elem := Some (grp_n_dofs_elem grp);
           aux_weight := Some weight;
           aux_DN_Dchi := Some DN_Dchi;
           aux_n_nodes_element := Some (grp_nodes_count grp);
           aux_n_face_dofs_elem := Some (grp_n_face_dofs_elem grp);
           aux_boundary_ngauss := Some (grp_boundary_ngauss grp) |} /\
      calls d' = calls d ++ [Call_GetElementDNDchi e_type])).
Proof.
  unfold AuxFromGroup, set_aux, call_GetElementDNDchi, getitem. cbv zeta.
  rewrite !modify_bind. cbn [world aux calls].
  destruct (grp_eles_e_type item.2) as [|e_type es] eqn:Ee;
    cbn [lookup list_lookup of_option].
  - rewrite lift_bind_Raise. intros [= <- <-]. cbn. split; [reflexivity|].
    left. auto.
  - rewrite lift_bind_Ok. unfold mbind at 1, ST_bind at 1.
    destruct (GetElementDNDchi ext e_type) as [[weight DN]|e] eqn:Eg.
    + rewrite !modify_bind. intros [= <- <-]. cbn. split; [reflexivity|].
      right; right. exists e_type, weight, DN. auto.
    + intros [= <- <-]. cbn. split; [reflexivity|].
      right; left. exists e_type, e. auto.
Qed.

(** X14.  For a FlagSHyP input with at least one element group, a call that
    returns has filled [aux_variant] from the first group of the hash and
    from what [GetElementDNDchi] returns for the type of that group's first
    element, and has made its six calls in the order of the source;
    [kinematics.Init] was given the number of Gauss points of the first
    group.  The groups after the first are not read. *)
Theorem initialisation_reads_first_group (Dimension : nat) (key : string)
    (grp : Group) (rest : list (string * Group)) (d d' : Domain W) :
  ElementGroupHash mesh = (key, grp) :: rest ->
  initialisation ext mesh FlagSHyP Dimension d = (Ok tt, d') ->
  exists e_type weight DN_Dchi,
    grp_eles_e_type grp !! 0%nat = Some e_type /\
    GetElementDNDchi ext e_type = Ok (weight, DN_Dchi) /\
    aux d' =
      {| aux_ngauss := Some (grp_ngauss grp);
         aux_n_dofs_elem := Some (grp_n_dofs_elem grp);
         aux_weight := Some weight;
         aux_DN_Dchi := Some DN_Dchi;
         aux_n_nodes_element := Some (grp_nodes_count grp);
         aux_n_face_dofs_elem := Some (grp_n_face_dofs_elem grp);
         aux_boundary_ngauss := Some (grp_boundary_ngauss grp) |} /\
    calls d' =
      calls d ++
        [Call_Geom_InitX; Call_RightHandItem_Init (Mesh_n_dofs mesh);
         Call_GetElementDNDchi e_type;
         Call_Kinematics_Init Dimension (Mesh_n_nodes_elem mesh)
           (Some (grp_ngauss grp));
         Call_Geom_InitialVolume; Call_ResidualAndStiffnessAssembly].
Proof.
  intros Hg. unfold initialisation. rewrite Hg. cbn [for_each]. intros H.
  apply bind_Ok in H as ([] & d1 & H1 & H).
  apply call_inv in H1 as (w1 & _ & ->).
  apply bind_Ok in H as ([] & d2 & H2 & H).
  apply call_inv in H2 as (w2 & _ & ->).
  apply bind_Ok in H as ([] & d3 & H3 & H).
  apply bind_Ok in H3 as (f & d4 & H3 & H4).
  apply AuxFromGroup_inv in H3
    as (_ & [(_ & [=] & _)|[(? & ? & _ & _ & [=] & _)|
             (e_type & weight & DN & He & Hc & [= ->] & Ha & Hl)]]).
  injection H4 as <-. cbn [snd] in *.
  apply after_loop_inv in H as (Ha' & m & Hl' & _ & Hm).
  rewrite (Hm eq_refl) in Hl'.
  exists e_type, weight, DN. split; [exact He|]. split; [exact Hc|].
  split; [congruence|].
  rewrite Hl', Ha, Hl. cbn. rewrite <- !app_assoc. reflexivity.
Qed.

(** X15.  For any other kind of input file, and for a FlagSHyP input without
    element groups, [aux_variant] is left as it was, [GetElementDNDchi] is
    not called, and [kinematics.Init] is given the number of Gauss points
    that [aux_variant] held on entry ([None] right after
    [NLDomain.__init__]).  The calls made are an initial part of the five
    remaining calls, all five when the method returns. *)
Theorem initialisation_without_groups (InputFileSuffix : InputFileType)
    (Dimension : nat) (d : Domain W) r d' :
  InputFileSuffix <> FlagSHyP \/ ElementGroupHash mesh = [] ->
  initialisation ext mesh InputFileSuffix Dimension d = (r, d') ->
  aux d' = aux d /\
  exists m,
    calls d' =
      calls d ++
        take m [Call_Geom_InitX; Call_RightHandItem_Init (Mesh_n_dofs mesh);
                Call_Kinematics_Init Dimension (Mesh_n_nodes_elem mesh)
                  (aux_ngauss (aux d));
                Call_Geom_InitialVolume; Call_ResidualAndStiffnessAssembly] /\
    (r = Ok tt -> m = 5%nat).
Proof.
  intros Hno. unfold initialisation.
  assert (Hskip : match InputFileSuffix with
                  | FlagSHyP =>
                      for_each (AuxFromGroup ext) (ElementGroupHash mesh)
                  | OtherInputFile _ => mret tt
                  end = (mret tt : ST (Domain W) unit)).
  { destruct InputFileSuffix; [|reflexivity].
    destruct Hno as [Hno|Hno]; [contradiction|rewrite Hno; reflexivity]. }
  rewrite Hskip. clear Hskip. intros H.
  apply bind_inv in H as [(e & H & ->)|([] & d1 & H1 & H)].
  { apply call_inv in H as (w & _ & ->). cbn. split; [reflexivity|].
    exists 1%nat. split; [reflexivity|discriminate]. }
  apply call_inv in H1 as (w1 & _ & ->).
  apply bind_inv in H as [(e & H & ->)|([] & d2 & H2 & H)].
  { apply call_inv in H as (w & _ & ->). cbn. split; [reflexivity|].
    exists 2%nat. rewrite <- app_assoc. split; [reflexivity|discriminate]. }
  apply call_inv in H2 as (w2 & _ & ->).
  change ((mret tt : ST (Domain W) unit) ≫= ?k) with (k tt) in H.
  apply after_loop_inv in H as (Ha & m & Hl & Hm1 & Hm). cbn in Ha, Hl.
  split; [exact Ha|]. exists (2 + m)%nat. split.
  - rewrite Hl, <- !app_assoc. reflexivity.
  - intros Hr. rewrite (Hm Hr). reflexivity.
Qed.

(** X16.  For a FlagSHyP input whose first element group has no element, the
    method raises [IndexError] at [grp.eles[0]] once the first two calls have
    returned: by then [aux_variant.ngauss] and [aux_variant.n_dofs_elem] hold
    the values of that group while the other five attributes are as they
    were, and neither [kinematics.Init] nor any later call is made. *)
Theorem initialisation_empty_first_group (Dimension : nat) (key : string)
    (grp : Group) (rest : list (string * Group)) (d : Domain W) (w1 w2 : W) :
  ElementGroupHash mesh = (key, grp) :: rest ->
  grp_eles_e_type grp = [] ->
  Geom_InitX ext (world d) = (Ok tt, w1) ->
  RightHandItem_Init ext (Mesh_n_dofs mesh) w1 = (Ok tt, w2) ->
  initialisation ext mesh FlagSHyP Dimension d
  = (Raise IndexError,
     {| world := w2;
        aux := set_aux_n_dofs_elem (grp_n_dofs_elem grp)
                 (set_aux_ngauss (grp_ngauss grp) (aux d));
        calls := calls d ++ [Call_Geom_InitX;
                             Call_RightHandItem_Init (Mesh_n_dofs mesh)] |}).
Proof.
  intros Hg He H1 H2. unfold initialisation. rewrite Hg. cbn [for_each].
  rewrite (bind_step _ _ _ _ _ (call_run _ _ _ _ _ H1)).
  rewrite (bind_step _ _ _ tt
             {| world := w2; aux := aux d;
                calls := (calls d ++ [Call_Geom_InitX])
                         ++ [Call_RightHandItem_Init (Mesh_n_dofs mesh)] |})
    by (unfold call; cbn [world aux calls]; rewrite H2; reflexivity).
  unfold AuxFromGroup, set_aux, getitem. cbn [snd]. rewrite He.
  cbn. rewrite <- app_assoc. reflexivity.
Qed.

End Initialisation_facts.

Lemma mixed_mesh_initialisation_returns :
  (initialisation quiet_callees mixed_mesh FlagSHyP 2 fresh_domain).1 = Ok tt.
Proof. reflexivity. Qed.

Lemma initialisation_reads_first_group_witness :
  exists e_type weight DN_Dchi,
    grp_eles_e_type quad_group !! 0%nat = Some e_type /\
    GetElementDNDchi quiet_callees e_type = Ok (weight, DN_Dchi) /\
    aux (initialisation quiet_callees mixed_mesh FlagSHyP 2 fresh_domain).2 =
      {| aux_ngauss := Some 4%nat;
         aux_n_dofs_elem := Some 8%nat;
         aux_weight := Some weight;
         aux_DN_Dchi := Some DN_Dchi;
         aux_n_nodes_element := Some 4%nat;
         aux_n_face_dofs_elem := Some 4%nat;
         aux_boundary_ngauss := Some 2%nat |} /\
    calls (initialisation quiet_callees mixed_mesh FlagSHyP 2 fresh_domain).2 =
      [] ++
        [Call_Geom_InitX; Call_RightHandItem_Init 12;
         Call_GetElementDNDchi e_type;
         Call_Kinematics_Init 2 4 (Some 4%nat);
         Call_Geom_InitialVolume; Call_ResidualAndStiffnessAssembly].
Proof.
  apply (initialisation_reads_first_group quiet_callees mixed_mesh 2 "1"
           quad_group [("2", tria_group)] fresh_domain); [reflexivity|].
  rewrite <- mixed_mesh_initialisation_returns. apply surjective_pairing.
Defined.

Lemma initialisation_without_groups_witness :
  aux (initialisation quiet_callees bare_mesh FlagSHyP 2 fresh_domain).2
    = AuxVariant_init /\
  exists m,
    calls (initialisation quiet_callees bare_mesh FlagSHyP 2 fresh_domain).2 =
      [] ++
        take m [Call_Geom_InitX; Call_RightHandItem_Init 12;
                Call_Kinematics_Init 2 4 None;
                Call_Geom_InitialVolume; Call_ResidualAndStiffnessAssembly] /\
    ((initialisation quiet_callees bare_mesh FlagSHyP 2 fresh_domain).1 = Ok tt
     -> m = 5%nat).
Proof.
  apply (initialisation_without_groups quiet_callees bare_mesh FlagSHyP 2
           fresh_domain); [right; reflexivity|apply surjective_pairing].
Defined.

Lemma initialisation_empty_first_group_witness :
  initialisation quiet_callees hollow_mesh FlagSHyP 2 fresh_domain
  = (Raise IndexError,
     {| world := tt;
        aux := set_aux_n_dofs_elem 8 (set_aux_ngauss 4 AuxVariant_init);
        calls := [] ++ [Call_Geom_InitX; Call_RightHandItem_Init 12] |}).
Proof.
  apply (initialisation_empty_first_group quiet_callees hollow_mesh 2 "1"
           empty_group [("2", quad_group)] fresh_domain tt tt); reflexivity.
Defined.

End NLDomain_facts.

(** ** ElementForceAndStiffness *)

Module EFS_facts.
Import np EFS Py_facts np_facts.

Section Facts.

Context {PlastGauss KinOther : Type}.
Context (db : Database) (ext : Callees PlastGauss KinOther).

Abbreviation Store := (EFS.Store KinOther).
Abbreviation cursor s := (NLDomain_py.counter (GLOBAL_K s)).

(** Symbolic execution of a hypothesis [H : m s = (r, s')]. *)
Ltac exec H :=
  repeat first
    [ rewrite get_bind in H
    | rewrite modify_bind in H
    | rewrite lift_bind_Ok in H
    | rewrite lift_bind_Raise in H
    | rewrite raise_bind in H
    | progress cbn beta iota zeta in H
    | match type of H with
      | (lift ?r ≫= _) _ = _ => destruct r eqn:?
      | (let '(_, _) := ?p in _) _ = _ => destruct p
      | (let '(_, _) := ?p in _) = _ => destruct p
      end ].

(** *** The shared cursor *)

Lemma PairBlock_cursor ele DN_x_mean ve kappa_bar bnode counter anode
    (s : Store) r s' :
  PairBlock db ele DN_x_mean ve kappa_bar bnode counter anode s = (r, s') ->
  cursor s' = cursor s.
Proof.
  unfold PairBlock, set_GLOBAL_K. intros H. exec H.
  all: try (injection H as <- <-; reflexivity).
  all: unfold lift in H; injection H as <- <-; reflexivity.
Qed.

Lemma MeanDilatationStiffness_cursor mat grp ele DN_x_mean ve kappa_bar
    (s : Store) r s' :
  MeanDilatationStiffness db mat grp ele DN_x_mean ve kappa_bar s = (r, s') ->
  cursor s' = cursor s.
Proof.
  unfold MeanDilatationStiffness. rewrite get_bind.
  destruct (isinstance_HyperElasticPlasticInPrincipal mat); unfold mark;
    rewrite modify_bind; [|intros [= <- <-]; reflexivity].
  intros H. apply bind_inv in H as [(e & H & ->)|(a & s1 & H & [= <- <-])].
  all: change (cursor s) with
         (cursor {| KINEMATICS := KINEMATICS s; GLOBAL_K := GLOBAL_K s;
                    trace := trace s ++ [Arm 130 true] |}).
  all: revert H;
    apply (foldM_rel (fun s0 s1 : Store => cursor s1 = cursor s0));
    try congruence.
  all: intros acc bnode s0 r0 s0';
    apply (foldM_rel (fun s0 s1 : Store => cursor s1 = cursor s0));
    try congruence.
  all: intros; eapply PairBlock_cursor; eassumption.
Qed.

(** One round of the Gauss loop moves the cursor by what its two helper calls
    add. *)
Lemma GaussLoopBody_cursor cm gm mat mat_id grp ele press acc igauss
    (s : Store) acc' s' :
  cursor_steps ext cm gm ->
  GaussLoopBody db ext mat mat_id grp ele press acc igauss s = (Ok acc', s') ->
  cursor s' = (fun k => (k + (cm grp + gm grp))%Z) <$> cursor s.
Proof.
  intros [Hcm Hgm]. unfold GaussLoopBody. destruct acc as [T P]. intros H.
  exec H; try discriminate.
  apply bind_Ok in H as ([] & s1 & E1 & H).
  exec H; try discriminate.
  apply bind_Ok in H as ([] & s2 & E2 & H).
  injection H as <- <-.
  unfold call_ConstitutiveMatrix in E1. unfold call_GeometricMatrix in E2.
  destruct (ConstitutiveMatrix _ _ _ _ _ _ _ _) as [r1 g1] eqn:C1.
  destruct (GeometricMatrix _ _ _ _ _ _ _) as [r2 g2] eqn:C2.
  injection E1 as -> <-. injection E2 as -> <-. cbn in *.
  rewrite (Hgm _ _ _ _ _ _ _ C2), (Hcm _ _ _ _ _ _ _ _ C1).
  destruct (NLDomain_py.counter (GLOBAL_K s)); cbn; [f_equal; lia | reflexivity].
Qed.

Lemma GaussLoop_cursor cm gm mat mat_id grp ele press :
  cursor_steps ext cm gm ->
  forall gs acc (s : Store) acc' s',
  foldM (GaussLoopBody db ext mat mat_id grp ele press) acc gs s
    = (Ok acc', s') ->
  cursor s' =
    (fun k => (k + Z.of_nat (length gs) * (cm grp + gm grp))%Z) <$> cursor s.
Proof.
  intros Hsteps. induction gs as [|g gs IH]; intros acc s acc' s' H.
  - injection H as <- <-. destruct (cursor s); cbn; [f_equal; lia | reflexivity].
  - cbn [foldM] in H. apply bind_Ok in H as (a & s1 & E1 & H).
    rewrite (IH _ _ _ _ H), (GaussLoopBody_cursor _ _ _ _ _ _ _ _ _ _ _ _ Hsteps E1).
    destruct (cursor s); cbn; [f_equal; lia | reflexivity].
Qed.

Lemma MeanLoopBody_store grp acc ii (s : Store) r s' :
  MeanLoopBody grp acc ii s = (r, s') -> s' = s.
Proof.
  unfold MeanLoopBody. destruct acc as [ve DN]. intros H. exec H.
  all: injection H as <- <-; reflexivity.
Qed.

Lemma MeanLoop_store grp gs acc (s : Store) r s' :
  foldM (MeanLoopBody grp) acc gs s = (r, s') -> s' = s.
Proof.
  revert acc s r s'. apply (foldM_rel (fun s0 s1 : Store => s1 = s0));
    try congruence.
  intros. eapply MeanLoopBody_store; eassumption.
Qed.

(** The mean dilatation block only extends the trace. *)
Lemma MeanDilatation_frame mat grp Ve (s : Store) r s' :
  MeanDilatation db mat grp Ve s = (r, s') ->
  KINEMATICS s' = KINEMATICS s /\ GLOBAL_K s' = GLOBAL_K s.
Proof.
  unfold MeanDilatation, mark.
  destruct (isinstance_HyperElasticPlasticInPrincipal mat);
    rewrite modify_bind; [|intros [= <- <-]; auto].
  intros H. apply bind_inv in H as [(e & H & ->)|([ve DN] & s1 & H & H2)].
  - apply MeanLoop_store in H as ->. auto.
  - apply MeanLoop_store in H as ->. exec H2.
    all: injection H2 as <- <-; auto.
Qed.

Lemma ElementPlasticState_frame mat grp ele_idx (s : Store) r s' :
  ElementPlasticState mat grp ele_idx s = (r, s') ->
  KINEMATICS s' = KINEMATICS s /\ GLOBAL_K s' = GLOBAL_K s.
Proof.
  unfold ElementPlasticState, mark.
  destruct (isinstance_HyperElasticPlasticInPrincipal mat);
    rewrite modify_bind; [|intros [= <- <-]; auto].
  intros H. exec H. all: injection H as <- <-; auto.
Qed.

Lemma call_ComputeGradients_frame xlocal Xlocal DN_chi (s : Store) r s' :
  call_ComputeGradients ext xlocal Xlocal DN_chi s = (r, s') ->
  GLOBAL_K s' = GLOBAL_K s /\ trace s' = trace s.
Proof.
  unfold call_ComputeGradients. destruct (ComputeGradients _ _ _ _ _).
  intros [= <- <-]. auto.
Qed.


(** *** The trace *)

Lemma extends_refl P (s : Store) : extends P s s.
Proof. exists []. rewrite app_nil_r. auto. Qed.

Lemma extends_trans P (s1 s2 s3 : Store) :
  extends P s1 s2 -> extends P s2 s3 -> extends P s1 s3.
Proof.
  intros (e1 & E1 & F1) (e2 & E2 & F2). exists (e1 ++ e2).
  rewrite E2, E1, app_assoc. split; [reflexivity|]. apply Forall_app; auto.
Qed.

Lemma PairBlock_trace ele DN_x_mean ve kappa_bar bnode counter anode
    (s : Store) r s' :
  PairBlock db ele DN_x_mean ve kappa_bar bnode counter anode s = (r, s') ->
  trace s' = trace s /\ KINEMATICS s' = KINEMATICS s.
Proof.
  unfold PairBlock, set_GLOBAL_K. intros H. exec H.
  all: try (injection H as <- <-; auto).
  all: unfold lift in H; injection H as <- <-; auto.
Qed.

Lemma MeanDilatationStiffness_trace mat grp ele DN_x_mean ve kappa_bar
    (s : Store) r s' :
  MeanDilatationStiffness db mat grp ele DN_x_mean ve kappa_bar s = (r, s') ->
  trace s' =
    trace s ++ [Arm 130 (isinstance_HyperElasticPlasticInPrincipal mat)] /\
  KINEMATICS s' = KINEMATICS s.
Proof.
  unfold MeanDilatationStiffness. rewrite get_bind.
  destruct (isinstance_HyperElasticPlasticInPrincipal mat); unfold mark;
    rewrite modify_bind; [|intros [= <- <-]; auto].
  assert (Hrel : forall xs acc (s0 : Store) r0 s1,
    foldM (fun counter bnode =>
             foldM (PairBlock db ele DN_x_mean ve kappa_bar bnode) counter
                   (range (n_nodes_elem (element_info grp))))
          acc xs s0 = (r0, s1) ->
    trace s1 = trace s0 /\ KINEMATICS s1 = KINEMATICS s0).
  { apply (foldM_rel (fun s0 s1 : Store =>
             trace s1 = trace s0 /\ KINEMATICS s1 = KINEMATICS s0));
      try (intuition congruence).
    intros acc bnode s2 r0 s2'.
    apply (foldM_rel (fun s0 s1 : Store =>
             trace s1 = trace s0 /\ KINEMATICS s1 = KINEMATICS s0));
      try (intuition congruence).
    intros; eapply PairBlock_trace; eassumption. }
  intros H. apply bind_inv in H as [(e & H & ->)|(a & s1 & H & [= <- <-])];
    apply Hrel in H; exact H.
Qed.

Lemma GaussLoopBody_extends mat mat_id grp ele press acc igauss
    (s : Store) r s' :
  GaussLoopBody db ext mat mat_id grp ele press acc igauss s = (r, s') ->
  extends is_call s s' /\ KINEMATICS s' = KINEMATICS s.
Proof.
  unfold GaussLoopBody. destruct acc as [T P]. intros H.
  exec H; try (injection H as <- <-; split; [apply extends_refl|reflexivity]).
  apply bind_inv in H as [(e & H & ->)|([] & s1 & E1 & H)];
    [unfold call_ConstitutiveMatrix in H | unfold call_ConstitutiveMatrix in E1].
  { destruct (ConstitutiveMatrix _ _ _ _ _ _ _ _) as [r1 g1].
    injection H as _ <-. cbn. split; [|reflexivity].
    eexists; split; [reflexivity|]. repeat constructor. }
  destruct (ConstitutiveMatrix _ _ _ _ _ _ _ _) as [r1 g1].
  injection E1 as _ <-.
  exec H.
  2: { injection H as <- <-; cbn. split; [|reflexivity].
       eexists; split; [reflexivity|]. repeat constructor. }
  apply bind_inv in H as [(e & H & ->)|([] & s2 & E2 & H)];
    [unfold call_GeometricMatrix in H | unfold call_GeometricMatrix in E2].
  { destruct (GeometricMatrix _ _ _ _ _ _ _) as [r2 g2].
    injection H as _ <-. cbn. split; [|reflexivity].
    rewrite <- app_assoc. eexists; split; [reflexivity|]. repeat constructor. }
  destruct (GeometricMatrix _ _ _ _ _ _ _) as [r2 g2].
  injection E2 as _ <-. injection H as <- <-. cbn. split; [|reflexivity].
  rewrite <- app_assoc. eexists; split; [reflexivity|]. repeat constructor.
Qed.

Lemma GaussLoop_extends mat mat_id grp ele press gs acc (s : Store) r s' :
  foldM (GaussLoopBody db ext mat mat_id grp ele press) acc gs s = (r, s') ->
  extends is_call s s' /\ KINEMATICS s' = KINEMATICS s.
Proof.
  revert gs acc s r s'.
  apply (foldM_rel (fun s0 s1 : Store =>
           extends is_call s0 s1 /\ KINEMATICS s1 = KINEMATICS s0)).
  - intros s. split; [apply extends_refl|reflexivity].
  - intros s1 s2 s3 [E1 K1] [E2 K2]. split; [|congruence].
    eapply extends_trans; eassumption.
  - intros. eapply GaussLoopBody_extends; eassumption.
Qed.

Lemma ElementPlasticState_trace mat grp ele_idx (s : Store) r s' :
  ElementPlasticState mat grp ele_idx s = (r, s') ->
  trace s' =
    trace s ++ [Arm 78 (isinstance_HyperElasticPlasticInPrincipal mat)] /\
  (isinstance_HyperElasticPlasticInPrincipal mat = false ->
   r = Raise (NoImplSuchMaterial (GetName mat))).
Proof.
  unfold ElementPlasticState, mark.
  destruct (isinstance_HyperElasticPlasticInPrincipal mat);
    rewrite modify_bind; [|intros [= <- <-]; auto].
  intros H. exec H.
  all: injection H as <- <-; cbn; split; [reflexivity|discriminate].
Qed.

(** How the mean dilatation block can end: the material is not supported and
    the block raises at line 69; or the check of line 43 passes and the loop
    of lines 46-53 raises; or the check of line 60 is reached and takes its
    first arm. *)
Lemma MeanDilatation_trace mat grp Ve (s : Store) r s' :
  MeanDilatation db mat grp Ve s = (r, s') ->
  (isinstance_HyperElasticPlasticInPrincipal mat = false /\
   r = Raise (NoImplSuchMaterial (GetName mat)) /\
   trace s' = trace s ++ [Arm 43 false]) \/
  (isinstance_HyperElasticPlasticInPrincipal mat = true /\
   (exists e, r = Raise e) /\ trace s' = trace s ++ [Arm 43 true]) \/
  (isinstance_HyperElasticPlasticInPrincipal mat = true /\
   trace s' = trace s ++ [Arm 43 true; Arm 60 true]).
Proof.
  unfold MeanDilatation, mark.
  destruct (isinstance_HyperElasticPlasticInPrincipal mat);
    rewrite modify_bind; [|intros [= <- <-]; auto].
  intros H. apply bind_inv in H as [(e & H & ->)|([ve DN] & s1 & H & H2)].
  - apply MeanLoop_store in H as ->. right; left. cbn. eauto.
  - apply MeanLoop_store in H as ->. right; right. exec H2.
    all: injection H2 as <- <-; cbn; rewrite <- app_assoc; auto.
Qed.

Lemma extends_weaken (P Q : event -> Prop) (s s' : Store) :
  (forall e, P e -> Q e) -> extends P s s' -> extends Q s s'.
Proof.
  intros HPQ (evs & E & F). exists evs. split; [assumption|].
  eapply Forall_impl; eassumption.
Qed.

(** From line 78 to the end no conditional of line 60 is met. *)
Lemma after_line_69_extends mat mat_id grp ele ele_idx DN_x_mean ve kappa_bar
    press T0 (s : Store) r s' :
  (PLAST_element ← ElementPlasticState mat grp ele_idx;
   '(T_internal, PLAST_element) ←
      foldM (GaussLoopBody db ext mat mat_id grp ele press)
            (T0, PLAST_element) (range (ngauss (element_info grp)));
   MeanDilatationStiffness db mat grp ele DN_x_mean ve kappa_bar;;
   mret (T_internal, PLAST_element)) s = (r, s') ->
  extends (fun e => forall b, e <> Arm 60 b) s s'.
Proof.
  set (P := fun e : event => forall b, e <> Arm 60 b).
  assert (Hone : forall (s0 s1 : Store) n b,
            trace s1 = trace s0 ++ [Arm n b] -> n <> 60%nat ->
            extends P s0 s1).
  { intros s0 s1 n b E Hn. eexists; split; [exact E|].
    constructor; [|constructor]. intros b' [= -> _]. contradiction. }
  revert s r s'. apply bind_rel.
  - apply extends_trans.
  - intros s r s' H. apply ElementPlasticState_trace in H as [H _].
    eapply Hone; [exact H | discriminate].
  - intros P0. apply bind_rel.
    + apply extends_trans.
    + intros s r s' H. apply GaussLoop_extends in H as [H _].
      revert H. apply extends_weaken. intros [n b| |] He b'; try discriminate.
      destruct He.
    + intros [T P1]. apply bind_rel.
      * apply extends_trans.
      * intros s r s' H. apply MeanDilatationStiffness_trace in H as [H _].
        eapply Hone; [exact H | discriminate].
      * intros [] s r s' [= <- <-]. apply extends_refl.
Qed.

(** C7.  The check of line 60 repeats the check of line 43 on the same
    object, so it always takes its first arm: in every execution the second
    arm (zero pressure, zero bulk modulus) is never entered, and whenever the
    check of line 43 passes and the loop in between does not raise, the
    pressure and bulk modulus are computed.  Every call that returns has gone
    through the first arm of both. *)
Theorem inner_check_takes_first_arm xlocal Xlocal mat_id Ve ele grp ele_idx
    (s : Store) r s' :
  ElementForceAndStiffness db ext xlocal Xlocal mat_id Ve ele grp ele_idx s
    = (r, s') ->
  exists evs, trace s' = trace s ++ evs /\
    ((evs = [] /\ exists e, r = Raise e) \/
     (evs = [Arm 43 false] /\ exists e, r = Raise e) \/
     (evs = [Arm 43 true] /\ exists e, r = Raise e) \/
     (exists rest, evs = Arm 43 true :: Arm 60 true :: rest /\
        Forall (fun e => forall b, e <> Arm 60 b) rest)).
Proof.
  unfold ElementForceAndStiffness. intros H.
  apply bind_inv in H as [(e & H & ->)|([] & s0 & E0 & H)].
  { apply call_ComputeGradients_frame in H as [_ ->].
    exists []. rewrite app_nil_r. eauto. }
  apply call_ComputeGradients_frame in E0 as [_ <-].
  exec H.
  2: { injection H as <- <-. exists []. rewrite app_nil_r. eauto. }
  apply bind_inv in H as [(e & H & ->)|([[[DN ve] kb] press] & s1 & E1 & H)].
  { apply MeanDilatation_trace in H
      as [(_ & _ & ->)|[(_ & _ & ->)|(_ & ->)]];
      eexists; (split; [reflexivity|]); eauto 10. }
  apply MeanDilatation_trace in E1
    as [(_ & [=] & _)|[(_ & (e & [=]) & _)|(_ & E1)]].
  apply after_line_69_extends in H as (rest & H & F).
  exists ([Arm 43 true; Arm 60 true] ++ rest).
  rewrite H, E1, <- app_assoc. split; [reflexivity|].
  right; right; right. eauto.
Qed.

(** C5, as the code has it.  A call for a material that is not an instance of
    [HyperElasticPlasticInPrincipal] never returns and leaves the triplet
    store as it found it.  The kinematics update of line 37 runs before the
    material is looked at: when it returns, the exception is
    [NoImplSuchMaterial] with the name of the material, raised at line 69
    before any helper was called; when it raises, its exception is the one
    the call raises, and no branch has been entered. *)
Theorem unsupported_material_raises xlocal Xlocal mat_id Ve ele grp ele_idx
    (s : Store) mat r s' :
  Material_Mat db !! mat_id = Some mat ->
  isinstance_HyperElasticPlasticInPrincipal mat = false ->
  ElementForceAndStiffness db ext xlocal Xlocal mat_id Ve ele grp ele_idx s
    = (r, s') ->
  (exists e, r = Raise e) /\
  GLOBAL_K s' = GLOBAL_K s /\
  (forall kin,
     ComputeGradients ext xlocal Xlocal (interpolation_element_DN_chi grp)
       (KINEMATICS s) = (Ok tt, kin) ->
     r = Raise (NoImplSuchMaterial (GetName mat)) /\
     trace s' = trace s ++ [Arm 43 false]) /\
  (forall e kin,
     ComputeGradients ext xlocal Xlocal (interpolation_element_DN_chi grp)
       (KINEMATICS s) = (Raise e, kin) ->
     r = Raise e /\ trace s' = trace s).
Proof.
  intros Hmat Hcls. unfold ElementForceAndStiffness. intros H.
  apply bind_inv in H as [(e & H & ->)|([] & s0 & E0 & H)].
  { split; [eauto|]. split; [eapply call_ComputeGradients_frame, H|].
    split.
    - intros kin Hk. unfold call_ComputeGradients in H. rewrite Hk in H.
      discriminate H.
    - intros e' kin Hk. split; [|eapply call_ComputeGradients_frame, H].
      unfold call_ComputeGradients in H. rewrite Hk in H. congruence. }
  rewrite Hmat in H. cbn [of_option] in H. rewrite lift_bind_Ok in H.
  apply bind_inv in H as [(e & H & ->)|(v & s1 & E1 & H)].
  - pose proof (MeanDilatation_frame _ _ _ _ _ _ H) as [_ G].
    pose proof E0 as E0'.
    apply call_ComputeGradients_frame in E0 as [G0 T0].
    split; [eauto|]. split; [congruence|]. split.
    + intros kin _.
      apply MeanDilatation_trace in H
        as [(_ & Hr & Ht)|[(Hc & _)|(Hc & _)]]; [|congruence..].
      injection Hr as ->. rewrite Ht, T0. auto.
    + intros e' kin Hk. unfold call_ComputeGradients in E0'.
      rewrite Hk in E0'. discriminate E0'.
  - apply MeanDilatation_trace in E1
      as [(_ & [=] & _)|[(Hc & _)|(Hc & _)]]; congruence.
Qed.

(** *** The Gauss loop of a call that returns *)

Lemma GaussLoopBody_Ok mat mat_id grp ele press T P igauss (s : Store)
    T' P' s' :
  GaussLoopBody db ext mat mat_id grp ele press (T, P) igauss s
    = (Ok (T', P'), s') ->
  KINEMATICS s' = KINEMATICS s /\
  exists c DN_sigma_DN tw,
    trace s' = trace s ++ [Call_ConstitutiveMatrix igauss c tw.2;
                           Call_GeometricMatrix DN_sigma_DN tw.2] /\
    pressure_added db ext mat mat_id press (KINEMATICS s)
      (Call_ConstitutiveMatrix igauss c tw.2) /\
    pressure_added db ext mat mat_id press (KINEMATICS s)
      (Call_GeometricMatrix DN_sigma_DN tw.2) /\
    round_force db ext mat grp press (KINEMATICS s) igauss tw /\
    iadd1 T tw.1 = Ok T'.
Proof.
  unfold GaussLoopBody. intros H. exec H; try discriminate.
  apply bind_Ok in H as ([] & s1 & E1 & H).
  unfold call_ConstitutiveMatrix in E1.
  destruct (ConstitutiveMatrix _ _ _ _ _ _ _ _) as [r1 g1].
  injection E1 as -> <-.
  exec H; try discriminate.
  apply bind_Ok in H as ([] & s2 & E2 & H).
  unfold call_GeometricMatrix in E2.
  destruct (GeometricMatrix _ _ _ _ _ _ _) as [r2 g2].
  injection E2 as -> <-. injection H as <- <- <-. cbn.
  split; [reflexivity|].
  match goal with
  | H1 : add4 _ _ = Ok ?c, H2 : matmul (transpose _) _ = Ok ?dsd,
    H3 : iadd1 _ (flatten (transpose ?Tm)) = Ok _,
    H4 : integration_multiplier _ _ _ = Ok ?jw
    |- _ => exists c, dsd, (flatten (transpose Tm), jw)
  end.
  cbn. rewrite <- app_assoc. split; [reflexivity|].
  split; [repeat eexists; eassumption|].
  split; [repeat eexists; eassumption|]. split; [|assumption].
  unfold round_force. cbn. repeat eexists; eassumption.
Qed.

Lemma GaussLoop_Ok mat mat_id grp ele press gs :
  forall T P (s : Store) T' P' s',
  foldM (GaussLoopBody db ext mat mat_id grp ele press) (T, P) gs s
    = (Ok (T', P'), s') ->
  KINEMATICS s' = KINEMATICS s /\
  exists evs tws,
    trace s' = trace s ++ evs /\
    Forall (pressure_added db ext mat mat_id press (KINEMATICS s)) evs /\
    omap constitutive_call_index evs = gs /\
    Forall2 (round_force db ext mat grp press (KINEMATICS s)) gs tws /\
    plain_sum T tws = Ok T'.
Proof.
  induction gs as [|g gs IH]; intros T P s T' P' s' H.
  - injection H as <- <- <-. split; [reflexivity|]. exists [], [].
    rewrite app_nil_r. repeat split; constructor.
  - cbn [foldM] in H. apply bind_Ok in H as ([T1 P1] & s1 & E1 & H).
    apply GaussLoopBody_Ok in E1
      as (K1 & c & dsd & tw & Tr1 & A1 & A2 & F1 & S1).
    apply IH in H as (K2 & evs & tws & Tr2 & A & Ix & F & S2).
    rewrite K1 in *. split; [assumption|].
    exists (Call_ConstitutiveMatrix g c tw.2 :: Call_GeometricMatrix dsd tw.2
              :: evs), (tw :: tws).
    split; [rewrite Tr2, Tr1, <- app_assoc; reflexivity|].
    split; [repeat (constructor; [assumption|]); assumption|].
    split; [cbn; congruence|].
    split; [constructor; assumption|].
    unfold plain_sum in *. cbn [foldM]. rewrite S1. exact S2.
Qed.

(** *** The mean dilatation block of a call that returns *)

Lemma MeanLoopBody_Ok grp ve DN ii (s : Store) ve' DN' s' :
  MeanLoopBody grp (ve, DN) ii s = (Ok (ve', DN'), s') ->
  exists JW,
    integration_multiplier (KINEMATICS s) (quadrature_element_w grp) ii
      = Ok JW /\
    ve' = ve + JW /\
    forall m n, shaped m n DN -> shaped m n DN'.
Proof.
  unfold MeanLoopBody. intros H. exec H; try discriminate.
  injection H as <- <- <-. eexists. split; [reflexivity|].
  split; [reflexivity|]. intros m n. eapply iadd2_shaped. eassumption.
Qed.

Lemma MeanLoop_Ok grp gs :
  forall ve DN (s : Store) ve' DN' s',
  foldM (MeanLoopBody grp) (ve, DN) gs s = (Ok (ve', DN'), s') ->
  exists JWs,
    mapM (integration_multiplier (KINEMATICS s) (quadrature_element_w grp)) gs
      = Ok JWs /\
    ve' = fold_left Rplus JWs ve /\
    forall m n, shaped m n DN -> shaped m n DN'.
Proof.
  induction gs as [|g gs IH]; intros ve DN s ve' DN' s' H.
  - injection H as <- <- <-. exists []. auto.
  - cbn [foldM] in H. apply bind_Ok in H as ([ve1 DN1] & s1 & E1 & H).
    pose proof (MeanLoopBody_store _ _ _ _ _ _ E1) as ->.
    apply MeanLoopBody_Ok in E1 as (JW & HJ & -> & Sh1).
    apply IH in H as (JWs & HJs & -> & Sh).
    exists (JW :: JWs). cbn. rewrite HJ. cbn. rewrite HJs. cbn. auto.
Qed.

Lemma MeanDilatation_Ok mat grp Ve (s : Store) DN ve kappa_bar press s' :
  MeanDilatation db mat grp Ve s = (Ok (DN, ve, kappa_bar, press), s') ->
  isinstance_HyperElasticPlasticInPrincipal mat = true /\
  shaped (dim db) (n_nodes_elem (element_info grp)) DN /\
  exists kappa JWs,
    value_dict mat !! "MaterialKey.Kappa" = Some kappa /\
    mapM (integration_multiplier (KINEMATICS s) (quadrature_element_w grp))
         (range (ngauss (element_info grp))) = Ok JWs /\
    ve = fold_left Rplus JWs 0 /\
    press = kappa * ln (ve / Ve) / (ve / Ve) /\
    kappa_bar = kappa / (ve / Ve) - press.
Proof.
  unfold MeanDilatation, mark.
  destruct (isinstance_HyperElasticPlasticInPrincipal mat);
    rewrite modify_bind; [|discriminate].
  intros H. apply bind_Ok in H as ([ve1 DN1] & s1 & E1 & H).
  apply MeanLoop_Ok in E1 as (JWs & HJ & -> & Sh). cbn in HJ.
  exec H; try discriminate. injection H as <- <- <- <- <-.
  split; [reflexivity|].
  split; [apply div2_shaped, Sh, zeros2_shaped|].
  unfold dict_getitem in *.
  destruct (value_dict mat !! "MaterialKey.Kappa") as [kappa|] eqn:Ek;
    [|discriminate].
  match goal with Hk : of_option _ _ = Ok _ |- _ => injection Hk as <- end.
  exists kappa, JWs. auto.
Qed.

(** The phases of a call that returns. *)
Lemma ElementForceAndStiffness_Ok xlocal Xlocal mat_id Ve ele grp ele_idx
    (s : Store) T P s' :
  ElementForceAndStiffness db ext xlocal Xlocal mat_id Ve ele grp ele_idx s
    = (Ok (T, P), s') ->
  exists mat s0 DN ve kappa_bar press s1 P0 s2 s3,
    call_ComputeGradients ext xlocal Xlocal
      (interpolation_element_DN_chi grp) s = (Ok tt, s0) /\
    Material_Mat db !! mat_id = Some mat /\
    MeanDilatation db mat grp Ve s0 = (Ok (DN, ve, kappa_bar, press), s1) /\
    ElementPlasticState mat grp ele_idx s1 = (Ok P0, s2) /\
    foldM (GaussLoopBody db ext mat mat_id grp ele press)
          (zeros (n_dofs_elem (element_info grp)), P0)
          (range (ngauss (element_info grp))) s2 = (Ok (T, P), s3) /\
    MeanDilatationStiffness db mat grp ele DN ve kappa_bar s3 = (Ok tt, s').
Proof.
  unfold ElementForceAndStiffness. intros H.
  apply bind_Ok in H as ([] & s0 & E0 & H).
  destruct (Material_Mat db !! mat_id) as [mat|] eqn:Em; [|discriminate].
  cbn [of_option] in H. rewrite lift_bind_Ok in H.
  apply bind_Ok in H as ([[[DN ve] kb] press] & s1 & E1 & H).
  apply bind_Ok in H as (P0 & s2 & E2 & H).
  apply bind_Ok in H as ([T1 P1] & s3 & E3 & H).
  apply bind_Ok in H as ([] & s4 & E4 & H).
  injection H as <- <- <-.
  exists mat, s0, DN, ve, kb, press, s1, P0, s2, s3. auto 10.
Qed.

Lemma call_ComputeGradients_Ok xlocal Xlocal DN_chi (s : Store) s0 :
  call_ComputeGradients ext xlocal Xlocal DN_chi s = (Ok tt, s0) ->
  GLOBAL_K s0 = GLOBAL_K s /\ trace s0 = trace s /\
  ComputeGradients ext xlocal Xlocal DN_chi (KINEMATICS s)
    = (Ok tt, KINEMATICS s0).
Proof.
  unfold call_ComputeGradients.
  destruct (ComputeGradients _ _ _ _ _) as [r k]. intros [= -> <-]. auto.
Qed.

(** C1, as the code has it.  In a call that returns, [T_internal] is the zero
    vector to which every Gauss point has added the flattened product of the
    Cauchy stress with the shape derivatives as it is: the integration
    multiplier [JW] of the Gauss point, computed in the same round, does not
    enter the sum. *)
Theorem internal_force_is_plain_sum xlocal Xlocal mat_id Ve ele grp ele_idx
    (s : Store) T P s' :
  ElementForceAndStiffness db ext xlocal Xlocal mat_id Ve ele grp ele_idx s
    = (Ok (T, P), s') ->
  exists mat press tws,
    Material_Mat db !! mat_id = Some mat /\
    Forall2 (round_force db ext mat grp press (KINEMATICS s'))
            (range (ngauss (element_info grp))) tws /\
    plain_sum (zeros (n_dofs_elem (element_info grp))) tws = Ok T.
Proof.
  intros H. apply ElementForceAndStiffness_Ok in H
    as (mat & s0 & DN & ve & kb & press & s1 & P0 & s2 & s3
        & E0 & Em & E1 & E2 & E3 & E4).
  pose proof (MeanDilatation_frame _ _ _ _ _ _ E1) as [K1 _].
  pose proof (ElementPlasticState_frame _ _ _ _ _ _ E2) as [K2 _].
  apply GaussLoop_Ok in E3 as (K3 & evs & tws & _ & _ & _ & F & S).
  pose proof (MeanDilatationStiffness_trace _ _ _ _ _ _ _ _ _ E4) as [_ K4].
  exists mat, press, tws. rewrite K4, K3. auto.
Qed.

(** *** The blocks of the mean dilatation term *)

Lemma dof_column_length (k : Z) (c : column Z) :
  dof_column db k = Ok c -> length (entries c) = length (MESH_dof_nodes db).
Proof.
  unfold dof_column. destruct (colZ _ _) as [v|] eqn:E; [|discriminate].
  cbn. intros [= <-]. apply mapM_Ok_length in E.
  destruct (MESH_dof_nodes_is_matrix db); exact E.
Qed.

Lemma PairTriplets_Ok ele DN ve kb b a rows cols values :
  PairTriplets db ele DN ve kb b a = Ok (rows, cols, values) ->
  exists DN_a DN_b node_a node_b dofs_a dofs_b,
    col DN a = Ok DN_a /\ col DN b = Ok DN_b /\
    getitem (node_ids ele) a = Ok node_a /\
    getitem (node_ids ele) b = Ok node_b /\
    dof_column db (node_a - 1) = Ok dofs_a /\
    dof_column db (node_b - 1) = Ok dofs_b /\
    rows = flatten (tile_1 dofs_a (dim db)) /\
    cols = concat (replicate (dim db) (entries dofs_b)) /\
    values = scale1 (kb * ve) (flatten (outer DN_a DN_b)).
Proof.
  unfold PairTriplets. intros H.
  destruct (col DN a) as [DN_a|] eqn:E1; [|discriminate]. cbn in H.
  destruct (col DN b) as [DN_b|] eqn:E2; [|discriminate]. cbn in H.
  destruct (getitem (node_ids ele) a) as [na|] eqn:E3; [|discriminate]. cbn in H.
  destruct (dof_column db (na - 1)) as [ca|] eqn:E4; [|discriminate]. cbn in H.
  destruct (getitem (node_ids ele) b) as [nb|] eqn:E5; [|discriminate]. cbn in H.
  destruct (dof_column db (nb - 1)) as [cb|] eqn:E6; [|discriminate]. cbn in H.
  injection H as <- <- <-. rewrite flatten_transpose_tile.
  exists DN_a, DN_b, na, nb, ca, cb. auto 12.
Qed.

Lemma PairTriplets_lengths ele DN ve kb b a rows cols values :
  length DN = dim db -> length (MESH_dof_nodes db) = dim db ->
  PairTriplets db ele DN ve kb b a = Ok (rows, cols, values) ->
  length rows = (dim db ^ 2)%nat /\ length cols = (dim db ^ 2)%nat /\
  length values = (dim db ^ 2)%nat.
Proof.
  intros HDN Hdof H. apply PairTriplets_Ok in H
    as (DN_a & DN_b & na & nb & ca & cb & E1 & E2 & _ & _ & E4 & E6 & -> & -> & ->).
  apply col_length in E1, E2. apply dof_column_length in E4, E6.
  rewrite length_flatten_tile, length_concat_replicate.
  unfold scale1. rewrite length_fmap, length_flatten_outer.
  rewrite E1, E2, E4, E6, HDN, Hdof. cbn [Nat.pow]. lia.
Qed.

Lemma dof_column_lookup (node : Z) (c : column Z) (i : nat) :
  dof_column db (node - 1) = Ok c -> (i < length (MESH_dof_nodes db))%nat ->
  exists x, entries c !! i = Some x /\ dof_of_node db i node = Ok x.
Proof.
  unfold dof_column. destruct (colZ _ _) as [v|] eqn:E; [|discriminate].
  cbn. intros [= <-] Hi. unfold colZ in E. apply mapM_Ok in E.
  destruct (lookup_lt_is_Some_2 _ i Hi) as [row Hrow].
  destruct (Forall2_lookup_l _ _ _ _ _ E Hrow) as (x & Hx & Hg).
  exists x. split.
  - destruct (MESH_dof_nodes_is_matrix db); exact Hx.
  - unfold dof_of_node. unfold getitem. rewrite Hrow. exact Hg.
Qed.

(** *** The entries of a node-pair block *)

Lemma PairTriplets_lookup ele DN ve kb b a rows cols values (i j : nat) :
  length DN = dim db -> length (MESH_dof_nodes db) = dim db ->
  PairTriplets db ele DN ve kb b a = Ok (rows, cols, values) ->
  (i < dim db)%nat -> (j < dim db)%nat ->
  exists x_a x_b node_a node_b r_i r_j c_j,
    getitem2 DN i a = Ok x_a /\ getitem2 DN j b = Ok x_b /\
    getitem (node_ids ele) a = Ok node_a /\
    getitem (node_ids ele) b = Ok node_b /\
    dof_of_node db i node_a = Ok r_i /\
    dof_of_node db j node_a = Ok r_j /\
    dof_of_node db j node_b = Ok c_j /\
    values !! (i * dim db + j)%nat = Some (kb * ve * (x_a * x_b)) /\
    cols !! (i * dim db + j)%nat = Some c_j /\
    rows !! (i * dim db + j)%nat
      = Some (if MESH_dof_nodes_is_matrix db then r_i else r_j).
Proof.
  intros HDN Hdof H Hi Hj. apply PairTriplets_Ok in H
    as (DN_a & DN_b & na & nb & ca & cb & E1 & E2 & E3 & E5 & E4 & E6
        & -> & -> & ->).
  pose proof (col_length _ _ _ E1) as La. pose proof (col_length _ _ _ E2) as Lb.
  pose proof (dof_column_length _ _ E4) as Lca.
  pose proof (dof_column_length _ _ E6) as Lcb.
  destruct (col_lookup _ _ i _ E1) as (x_a & Hxa & Ga); [lia|].
  destruct (col_lookup _ _ j _ E2) as (x_b & Hxb & Gb); [lia|].
  destruct (dof_column_lookup _ _ i E4) as (r_i & Hri & Gri); [lia|].
  destruct (dof_column_lookup _ _ j E4) as (r_j & Hrj & Grj); [lia|].
  destruct (dof_column_lookup _ _ j E6) as (c_j & Hcj & Gcj); [lia|].
  exists x_a, x_b, na, nb, r_i, r_j, c_j.
  repeat (split; [assumption|]).
  split; [|split].
  - unfold scale1. rewrite list_lookup_fmap.
    rewrite (lookup_flatten_outer (dim db) _ _ _ _ x_a x_b) by (assumption || lia).
    reflexivity.
  - rewrite (lookup_concat_replicate (dim db) (dim db)) by lia. exact Hcj.
  - unfold dof_column in E4. destruct (colZ _ _) as [v|]; [|discriminate].
    cbn in E4. injection E4 as <-.
    destruct (MESH_dof_nodes_is_matrix db); cbn [tile_1 entries] in *;
      unfold flatten.
    + rewrite lookup_concat_upright by exact Hj. exact Hri.
    + cbn [concat]. rewrite app_nil_r.
      rewrite (lookup_concat_replicate (dim db) (dim db)) by lia. exact Hrj.
Qed.











(** A call that raises makes the pass raise: the driver does not go on to the
    elements after it. *)
Lemma pass_aborts before e after (s : Store) s0 s1 x :
  foldM (fun (_ : unit) e => run_call db ext e;; mret tt) tt before s
    = (Ok tt, s0) ->
  run_call db ext e s0 = (Raise x, s1) ->
  foldM (fun (_ : unit) e => run_call db ext e;; mret tt) tt
        (before ++ e :: after) s = (Raise x, s1).
Proof.
  intros Hb He. rewrite foldM_app, (bind_step _ _ _ _ _ Hb). cbn [foldM].
  apply bind_Raise. apply bind_Raise. exact He.
Qed.


End Facts.

(** *** The sums of the mean dilatation block, the blocks of a call, and the
    shared cursor *)


Section Claims.

Context {PlastGauss KinOther : Type}.
Context (db : Database) (ext : Callees PlastGauss KinOther).

Abbreviation Store := (EFS.Store KinOther).
Abbreviation cursor s := (NLDomain_py.counter (GLOBAL_K s)).

Ltac exec H :=
  repeat first
    [ rewrite get_bind in H
    | rewrite modify_bind in H
    | rewrite lift_bind_Ok in H
    | rewrite lift_bind_Raise in H
    | rewrite raise_bind in H
    | progress cbn beta iota zeta in H
    | match type of H with
      | (lift ?r ≫= _) _ = _ => destruct r eqn:?
      | (let '(_, _) := ?p in _) _ = _ => destruct p
      | (let '(_, _) := ?p in _) = _ => destruct p
      end ].

Lemma integration_multiplier_Ok (KIN : Kinematics KinOther) (w : vec) (ii : nat)
    (JW : R) :
  integration_multiplier KIN w ii = Ok JW <->
  exists Jx wi, Jx_chi KIN !! ii = Some Jx /\ w !! ii = Some wi /\ JW = Jx * wi.
Proof.
  unfold integration_multiplier, getitem.
  destruct (Jx_chi KIN !! ii) as [Jx|]; cbn.
  2: { split; [discriminate|]. intros (? & ? & [=] & _). }
  destruct (w !! ii) as [wi|]; cbn.
  2: { split; [discriminate|]. intros (? & ? & _ & [=] & _). }
  split.
  - intros [= <-]. eauto.
  - intros (? & ? & [= <-] & [= <-] & ->). reflexivity.
Qed.

Lemma gauss_multipliers_S (KIN : Kinematics KinOther) (w : vec) (k : nat) Jx wi :
  Jx_chi KIN !! k = Some Jx -> w !! k = Some wi ->
  gauss_multipliers KIN w (S k) = gauss_multipliers KIN w k ++ [Jx * wi].
Proof.
  intros HJ Hw. unfold gauss_multipliers.
  rewrite (take_S_r _ _ _ HJ), (take_S_r _ _ _ Hw).
  apply lookup_lt_Some in HJ, Hw.
  rewrite zip_with_app by (rewrite !length_take; lia). reflexivity.
Qed.


Lemma multipliers_Ok (KIN : Kinematics KinOther) (w : vec) (n : nat) (JWs : vec) :
  mapM (integration_multiplier KIN w) (range n) = Ok JWs ->
  (n <= length (Jx_chi KIN))%nat /\ (n <= length w)%nat /\
  JWs = gauss_multipliers KIN w n.
Proof.
  unfold range. revert JWs. induction n as [|n IH]; intros JWs H.
  - injection H as <-. repeat split; lia.
  - apply mapM_Ok in H. rewrite seq_S in H. cbn in H.
    apply Forall2_app_inv_l in H as (J1 & J2 & F1 & F2 & ->).
    apply Forall2_cons_inv_l in F2 as (JW & J3 & HJW & F3 & ->).
    apply Forall2_nil_inv_l in F3 as ->.
    apply integration_multiplier_Ok in HJW as (Jx & wi & EJ & Ew & ->).
    assert (H1 : mapM (integration_multiplier KIN w) (seq 0 n) = Ok J1).
    { clear -F1. induction F1 as [|x y l k Hx _ IHF]; [reflexivity|].
      cbn. rewrite Hx. cbn. rewrite IHF. reflexivity. }
    apply IH in H1 as (_ & _ & ->).
    pose proof (lookup_lt_Some _ _ _ EJ). pose proof (lookup_lt_Some _ _ _ Ew).
    split; [lia|]. split; [lia|].
    symmetry. apply gauss_multipliers_S; assumption.
Qed.





(** C3.  In a call that returns, the material has a bulk modulus [kappa];
    with [ve] the sum over the Gauss points of [Jx_chi[ii] * element_w[ii]],
    Jacobian determinant times quadrature weight, and [Jbar = ve / Ve], the
    pressure is [press = kappa * ln Jbar / Jbar] and the effective bulk
    modulus is [kappa_bar = kappa / Jbar - press], both computed once, before
    the Gauss loop.  The loop then calls the stiffness helpers once for each
    Gauss point, in order, and what it hands them is built from the Cauchy
    stress of the constitutive law plus [press * I] and from its elasticity
    tensor plus [press * (c1 - c2)].  The mean dilatation term is then
    assembled with that [ve] and [kappa_bar]. *)
Theorem pressure_added_at_every_gauss_point xlocal Xlocal mat_id Ve ele grp
    ele_idx (s : Store) T P s' :
  ElementForceAndStiffness db ext xlocal Xlocal mat_id Ve ele grp ele_idx s
    = (Ok (T, P), s') ->
  exists mat kappa evs,
    Material_Mat db !! mat_id = Some mat /\
    value_dict mat !! "MaterialKey.Kappa" = Some kappa /\
    (ngauss (element_info grp) <= length (Jx_chi (KINEMATICS s')))%nat /\
    (ngauss (element_info grp) <= length (quadrature_element_w grp))%nat /\
    let ve :=
      fold_left Rplus
        (zip_with Rmult
           (take (ngauss (element_info grp)) (Jx_chi (KINEMATICS s')))
           (take (ngauss (element_info grp)) (quadrature_element_w grp))) 0 in
    let Jbar := ve / Ve in
    let press := kappa * ln Jbar / Jbar in
    let kappa_bar := kappa / Jbar - press in
    trace s' =
      trace s ++ [Arm 43 true; Arm 60 true; Arm 78 true] ++ evs
              ++ [Arm 130 true] /\
    Forall (pressure_added db ext mat mat_id press (KINEMATICS s')) evs /\
    omap constitutive_call_index evs = range (ngauss (element_info grp)) /\
    exists DN_x_mean s3,
      shaped (dim db) (n_nodes_elem (element_info grp)) DN_x_mean /\
      MeanDilatationStiffness db mat grp ele DN_x_mean ve kappa_bar s3
        = (Ok tt, s').
Proof.
  intros H. apply ElementForceAndStiffness_Ok in H
    as (mat & s0 & DN & ve & kb & press & s1 & P0 & s2 & s3
        & E0 & Em & E1 & E2 & E3 & E4).
  apply call_ComputeGradients_Ok in E0 as (_ & T0 & _).
  pose proof (MeanDilatation_frame _ _ _ _ _ _ _ E1) as [K1 _].
  pose proof (MeanDilatation_trace _ _ _ _ _ _ _ E1)
    as [(_ & [=] & _)|[(_ & (e & [=]) & _)|(_ & T1)]].
  apply MeanDilatation_Ok in E1
    as (Hc & Sh & kappa & JWs & Hk & HJ & -> & -> & ->).
  apply multipliers_Ok in HJ as (LJ & Lw & ->).
  pose proof (ElementPlasticState_frame _ _ _ _ _ _ E2) as [K2 _].
  apply ElementPlasticState_trace in E2 as [T2 _]. rewrite Hc in T2.
  apply GaussLoop_Ok in E3 as (K3 & evs & tws & T3 & F3 & Ix & _).
  pose proof (MeanDilatationStiffness_trace _ _ _ _ _ _ _ _ _ _ E4) as [T4 K4].
  rewrite Hc in T4.
  assert (K : KINEMATICS s' = KINEMATICS s0) by congruence.
  exists mat, kappa, evs. rewrite K.
  split; [assumption|]. split; [assumption|].
  split; [assumption|]. split; [assumption|]. cbn zeta.
  fold (gauss_multipliers (KINEMATICS s0) (quadrature_element_w grp)
          (ngauss (element_info grp))).
  split.
  { rewrite T4, T3, T2, T1, T0. rewrite <- !app_assoc. reflexivity. }
  split; [rewrite K2, K1 in F3; exact F3|].
  split; [assumption|]. eauto.
Qed.

(** *** The shared cursor *)

Lemma helper_moves_trans (g1 g2 g3 : GlobalK) :
  helper_moves ext g1 g2 -> helper_moves ext g2 g3 -> helper_moves ext g1 g3.
Proof.
  intros H12 H23. induction H23 as [|g g' ? ? ? ? ? ? ? _ IH E
                                    |g g' ? ? ? ? ? ? _ IH E].
  - exact H12.
  - eapply moves_ConstitutiveMatrix; [exact IH|exact E].
  - eapply moves_GeometricMatrix; [exact IH|exact E].
Qed.

Lemma call_ConstitutiveMatrix_moves grp ele igauss c JW (s : Store) r s' :
  call_ConstitutiveMatrix ext grp ele igauss c JW s = (r, s') ->
  helper_moves ext (GLOBAL_K s) (GLOBAL_K s').
Proof.
  unfold call_ConstitutiveMatrix.
  destruct (ConstitutiveMatrix _ _ _ _ _ _ _ _) as [r1 g1] eqn:E.
  intros [= <- <-]. cbn. eapply moves_ConstitutiveMatrix; [constructor|exact E].
Qed.

Lemma call_GeometricMatrix_moves grp ele D JW (s : Store) r s' :
  call_GeometricMatrix ext grp ele D JW s = (r, s') ->
  helper_moves ext (GLOBAL_K s) (GLOBAL_K s').
Proof.
  unfold call_GeometricMatrix.
  destruct (GeometricMatrix _ _ _ _ _ _ _) as [r1 g1] eqn:E.
  intros [= <- <-]. cbn. eapply moves_GeometricMatrix; [constructor|exact E].
Qed.

Lemma GaussLoopBody_moves mat mat_id grp ele press acc igauss (s : Store) r s' :
  GaussLoopBody db ext mat mat_id grp ele press acc igauss s = (r, s') ->
  helper_moves ext (GLOBAL_K s) (GLOBAL_K s').
Proof.
  unfold GaussLoopBody. destruct acc as [T P]. intros H. exec H.
  all: try (injection H as <- <-; constructor).
  apply bind_inv in H as [(e & H & ->)|([] & s1 & E1 & H)];
    [eapply call_ConstitutiveMatrix_moves, H|].
  apply call_ConstitutiveMatrix_moves in E1.
  eapply helper_moves_trans; [exact E1|]. exec H.
  all: try (injection H as <- <-; constructor).
  apply bind_inv in H as [(e & H & ->)|([] & s2 & E2 & H)];
    [eapply call_GeometricMatrix_moves, H|].
  apply call_GeometricMatrix_moves in E2. injection H as <- <-. exact E2.
Qed.

Lemma GaussLoop_moves mat mat_id grp ele press gs acc (s : Store) r s' :
  foldM (GaussLoopBody db ext mat mat_id grp ele press) acc gs s = (r, s') ->
  helper_moves ext (GLOBAL_K s) (GLOBAL_K s').
Proof.
  revert gs acc s r s'.
  apply (foldM_rel (fun s0 s1 : Store =>
                      helper_moves ext (GLOBAL_K s0) (GLOBAL_K s1))).
  - intros; constructor.
  - intros ? ? ?; apply helper_moves_trans.
  - intros; eapply GaussLoopBody_moves; eassumption.
Qed.

(** C10, as the code has it.  Whatever a call does to the shared cursor is
    done by the calls of [ConstitutiveMatrix] and [GeometricMatrix] it makes:
    the cursor
    after the call, returning or raising, is the cursor of a triplet store
    that a sequence of calls of the two helpers makes of the store the call
    was given.  The function itself never assigns to it; in particular the
    mean dilatation loop leaves the shared cursor where it found it, however
    the loop ends, because it advances a local copy. *)
Theorem shared_cursor_moved_by_helpers_only xlocal Xlocal mat_id Ve ele grp
    ele_idx (s : Store) r s' :
  ElementForceAndStiffness db ext xlocal Xlocal mat_id Ve ele grp ele_idx s
    = (r, s') ->
  (exists g, helper_moves ext (GLOBAL_K s) g /\ cursor s' = NLDomain_py.counter g) /\
  forall mat DN_x_mean ve kappa_bar (s0 : Store) r0 s1,
    MeanDilatationStiffness db mat grp ele DN_x_mean ve kappa_bar s0 = (r0, s1) ->
    cursor s1 = cursor s0.
Proof.
  intros H. split.
  2: { intros. eapply MeanDilatationStiffness_cursor. eassumption. }
  unfold ElementForceAndStiffness in H.
  apply bind_inv in H as [(e & H & ->)|([] & s0 & E0 & H)].
  { apply call_ComputeGradients_frame in H as [-> _]. eexists.
    split; [constructor|reflexivity]. }
  apply call_ComputeGradients_frame in E0 as [G0 _]. rewrite <- G0.
  destruct (Material_Mat db !! mat_id) as [mat|]; cbn [of_option] in H.
  2: { rewrite lift_bind_Raise in H. injection H as <- <-. eexists.
       split; [constructor|reflexivity]. }
  rewrite lift_bind_Ok in H.
  apply bind_inv in H as [(e & H & ->)|([[[DN ve] kb] press] & s1 & E1 & H)].
  { apply MeanDilatation_frame in H as [_ ->]. eexists.
    split; [constructor|reflexivity]. }
  apply MeanDilatation_frame in E1 as [_ G1]. rewrite <- G1.
  apply bind_inv in H as [(e & H & ->)|(P0 & s2 & E2 & H)].
  { apply ElementPlasticState_frame in H as [_ ->]. eexists.
    split; [constructor|reflexivity]. }
  apply ElementPlasticState_frame in E2 as [_ G2]. rewrite <- G2.
  apply bind_inv in H as [(e & H & ->)|([T P] & s3 & E3 & H)].
  { apply GaussLoop_moves in H. eauto. }
  apply GaussLoop_moves in E3. exists (GLOBAL_K s3). split; [exact E3|].
  apply bind_inv in H as [(e & H & ->)|([] & s4 & E4 & H)].
  { eapply MeanDilatationStiffness_cursor, H. }
  injection H as <- <-. eapply MeanDilatationStiffness_cursor, E4.
Qed.





End Claims.

(** *** The bar element *)

Ltac run :=
  with_strategy transparent [gmap_empty]
    (lazy -[Rplus Rmult Rminus Rdiv Rinv Ropp ln sqrt IZR PI]).

Ltac run_in H :=
  with_strategy transparent [gmap_empty]
    (lazy -[Rplus Rmult Rminus Rdiv Rinv Ropp ln sqrt IZR PI] in H).

Lemma silent_callees_steps :
  cursor_steps silent_callees (fun _ => 0%Z) (fun _ => 0%Z).
Proof.
  split; cbn; intros;
    match goal with H : (_, _) = (_, _) |- _ => injection H as <- end;
    destruct (NLDomain_py.counter g); cbn;
    first [reflexivity | f_equal; lia].
Qed.


Lemma bar_call_returns :
  is_Ok (run_call bar_db silent_callees bar_call bar_store).1 = true.
Proof. run. reflexivity. Qed.

(** The bar in the evaluation: the Gauss point has stress 3, shape derivative
    1 and integration multiplier [JW = 2 * 1]; the reference volume equals
    the deformed one, so [Jbar = 1] and the pressure is zero. *)
Lemma bar_pressure : 5 * ln ((0 + 2 * 1) / 2) / ((0 + 2 * 1) / 2) = 0.
Proof.
  replace ((0 + 2 * 1) / 2) with 1 by lra. rewrite ln_1. lra.
Qed.

Lemma bar_internal_force :
  (run_call bar_db silent_callees bar_call bar_store).1
  = Ok ([3], {| epbar := [0]; invCp := [[[1]]] |}).
Proof.
  run. rewrite bar_pressure. do 3 f_equal. lra.
Qed.

(** C1 at the bar: the code returns the force [3]; the Gauss-weighted sum the
    spec describes is [JW * 3 = 6]. *)
Lemma bar_internal_force_not_weighted :
  exists T P,
    (run_call bar_db silent_callees bar_call bar_store).1 = Ok (T, P) /\
    integration_multiplier (KINEMATICS bar_store)
      (interpolation_quadrature_element_w bar_grp) 0 = Ok (2 * 1) /\
    plain_sum (zeros 1) [([3], 2 * 1)] = Ok [0 + 3] /\
    weighted_sum (zeros 1) [([3], 2 * 1)] = Ok [0 + 2 * 1 * 3] /\
    T = [3] /\ T <> [0 + 2 * 1 * 3].
Proof.
  eexists _, _. split; [apply bar_internal_force|].
  repeat split. intros [= E]. lra.
Qed.

Lemma internal_force_is_plain_sum_witness :
  exists mat press tws,
    Material_Mat bar_db !! 1%Z = Some mat /\
    Forall2 (round_force bar_db silent_callees mat bar_grp press
               (KINEMATICS
                  (run_call bar_db silent_callees bar_call bar_store).2))
            (range 1) tws /\
    plain_sum (zeros 1) tws = Ok [3].
Proof.
  apply (internal_force_is_plain_sum bar_db silent_callees
           [[0]] [[0]] 1%Z 2 bar_ele bar_grp 0%Z bar_store [3]
           {| epbar := [0]; invCp := [[[1]]] |}).
  rewrite <- bar_internal_force. apply surjective_pairing.
Defined.

(** The bar with reference volume 1: [Jbar = 2], and the pressure that is
    added at the Gauss point is [5 * ln 2 / 2], which is positive. *)
Lemma swollen_call_returns :
  exists T P,
    (run_call bar_db silent_callees swollen_call bar_store).1 = Ok (T, P).
Proof. run. eexists _, _. reflexivity. Qed.

Lemma swollen_pressure_positive :
  let ve := fold_left Rplus (zip_with Rmult (take 1 [2]) (take 1 [1])) 0 in
  0 < 5 * ln (ve / 1) / (ve / 1).
Proof.
  cbn. replace ((0 + 2 * 1) / 1) with 2 by lra.
  assert (0 < ln 2) by (rewrite <- ln_1; apply ln_increasing; lra).
  apply Rdiv_lt_0_compat; lra.
Qed.

Lemma pressure_added_at_every_gauss_point_witness :
  exists mat kappa evs,
    Material_Mat bar_db !! 1%Z = Some mat /\
    value_dict mat !! "MaterialKey.Kappa" = Some kappa /\
    (1 <= length (Jx_chi (KINEMATICS
            (run_call bar_db silent_callees swollen_call bar_store).2)))%nat /\
    (1 <= length (quadrature_element_w bar_grp))%nat /\
    let ve :=
      fold_left Rplus
        (zip_with Rmult
           (take 1 (Jx_chi (KINEMATICS
              (run_call bar_db silent_callees swollen_call bar_store).2)))
           (take 1 (quadrature_element_w bar_grp))) 0 in
    let Jbar := ve / 1 in
    let press := kappa * ln Jbar / Jbar in
    let kappa_bar := kappa / Jbar - press in
    trace (run_call bar_db silent_callees swollen_call bar_store).2 =
      trace bar_store ++ [Arm 43 true; Arm 60 true; Arm 78 true] ++ evs
                      ++ [Arm 130 true] /\
    Forall (pressure_added bar_db silent_callees mat 1%Z press
              (KINEMATICS
                 (run_call bar_db silent_callees swollen_call bar_store).2))
           evs /\
    omap constitutive_call_index evs = range 1 /\
    exists DN_x_mean s3,
      shaped 1 1 DN_x_mean /\
      MeanDilatationStiffness bar_db mat bar_grp bar_ele DN_x_mean ve
        kappa_bar s3
      = (Ok tt, (run_call bar_db silent_callees swollen_call bar_store).2).
Proof.
  destruct swollen_call_returns as (T & P & H).
  apply (pressure_added_at_every_gauss_point bar_db silent_callees
           [[0]] [[0]] 1%Z 1 bar_ele bar_grp 0%Z bar_store T P
           (run_call bar_db silent_callees swollen_call bar_store).2).
  rewrite <- H. apply surjective_pairing.
Defined.

Lemma inner_check_takes_first_arm_witness :
  exists evs,
    trace (run_call bar_db silent_callees bar_call bar_store).2
      = trace bar_store ++ evs /\
    ((evs = [] /\
      exists e, (run_call bar_db silent_callees bar_call bar_store).1
                = Raise e) \/
     (evs = [Arm 43 false] /\
      exists e, (run_call bar_db silent_callees bar_call bar_store).1
                = Raise e) \/
     (evs = [Arm 43 true] /\
      exists e, (run_call bar_db silent_callees bar_call bar_store).1
                = Raise e) \/
     (exists rest, evs = Arm 43 true :: Arm 60 true :: rest /\
        Forall (fun e => forall b, e <> Arm 60 b) rest)).
Proof.
  apply (inner_check_takes_first_arm bar_db silent_callees
           [[0]] [[0]] 1%Z 2 bar_ele bar_grp 0%Z bar_store).
  apply surjective_pairing.
Defined.

Lemma foam_lookup : Material_Mat bar_db !! 2%Z = Some foam.
Proof.
  unfold bar_db; cbn. rewrite lookup_insert_ne by discriminate.
  apply lookup_singleton_eq.
Qed.

Lemma unsupported_material_raises_witness :
  (run_call bar_db silent_callees foam_call bar_store).1
    = Raise (NoImplSuchMaterial "foam") /\
  GLOBAL_K (run_call bar_db silent_callees foam_call bar_store).2
    = GLOBAL_K bar_store /\
  trace (run_call bar_db silent_callees foam_call bar_store).2
    = [Arm 43 false].
Proof.
  destruct (unsupported_material_raises bar_db silent_callees
              [[0]] [[0]] 2%Z 2 bar_ele bar_grp 0%Z bar_store foam
              (run_call bar_db silent_callees foam_call bar_store).1
              (run_call bar_db silent_callees foam_call bar_store).2
              foam_lookup eq_refl (surjective_pairing _))
    as (_ & G & H & _).
  destruct (H _ eq_refl) as [Hr Ht]. auto.
Defined.

(** C5 as stated fails where the kinematics update raises: the call for the
    unsupported material [foam] then raises the exception of the kinematics
    update, not [NoImplSuchMaterial]. *)
Lemma unsupported_material_other_exception :
  Material_Mat bar_db !! 2%Z = Some foam /\
  isinstance_HyperElasticPlasticInPrincipal foam = false /\
  (run_call bar_db inverting_callees foam_call bar_store).1
    = Raise (Foreign "ElementInversion") /\
  (run_call bar_db inverting_callees foam_call bar_store).1
    <> Raise (NoImplSuchMaterial (GetName foam)).
Proof.
  split; [exact foam_lookup|]. split; [reflexivity|].
  split; [reflexivity|]. discriminate.
Qed.



(** The block of the node pair (bnode, anode) = (1, 0) in the plane, for unit
    [kappa_bar * ve].  The values are the outer product of [1, 3] with
    [2, 4], row by row, and the column indices cycle through the degrees of
    freedom of node 2.  The row indices are degrees of freedom of node 1 in
    either case; their order depends on the class of the DOF table. *)
Example plane_block_ndarray :
  PairTriplets (plane_db false) plane_ele plane_DN_x_mean 1 1 1 0
  = Ok ([0; 1; 0; 1]%Z, [2; 3; 2; 3]%Z,
        [1 * 1 * (1 * 2); 1 * 1 * (1 * 4); 1 * 1 * (3 * 2); 1 * 1 * (3 * 4)]).
Proof. run. reflexivity. Qed.

Example plane_block_matrix :
  PairTriplets (plane_db true) plane_ele plane_DN_x_mean 1 1 1 0
  = Ok ([0; 0; 1; 1]%Z, [2; 3; 2; 3]%Z,
        [1 * 1 * (1 * 2); 1 * 1 * (1 * 4); 1 * 1 * (3 * 2); 1 * 1 * (3 * 4)]).
Proof. run. reflexivity. Qed.




Lemma shared_cursor_moved_by_helpers_only_witness :
  (exists g,
     helper_moves counting_callees (GLOBAL_K bar_store) g /\
     NLDomain_py.counter
       (GLOBAL_K (run_call bar_db counting_callees bar_call bar_store).2)
     = NLDomain_py.counter g) /\
  forall mat DN_x_mean ve kappa_bar (s0 : Store unit) r0 s1,
    MeanDilatationStiffness bar_db mat bar_grp bar_ele DN_x_mean ve kappa_bar
      s0 = (r0, s1) ->
    NLDomain_py.counter (GLOBAL_K s1) = NLDomain_py.counter (GLOBAL_K s0).
Proof.
  apply (shared_cursor_moved_by_helpers_only bar_db counting_callees
           [[0]] [[0]] 1%Z 2 bar_ele bar_grp 0%Z bar_store
           (run_call bar_db counting_callees bar_call bar_store).1
           (run_call bar_db counting_callees bar_call bar_store).2).
  apply surjective_pairing.
Defined.

(** C10 as stated fails with helpers that advance the cursor, as the spec has
    them do when they accumulate their triplets: the call on the bar returns
    and the shared cursor has moved from 0 to 1. *)
Lemma shared_cursor_moved_by_counting_helper :
  is_Ok (run_call bar_db counting_callees bar_call bar_store).1 = true /\
  NLDomain_py.counter (GLOBAL_K bar_store) = Some 0%Z /\
  NLDomain_py.counter
    (GLOBAL_K (run_call bar_db counting_callees bar_call bar_store).2)
  = Some 1%Z.
Proof. run. repeat split. Qed.

(** ** Further properties of the element evaluation *)

Section Further.

Context {PlastGauss KinOther : Type}.
Context (db : Database) (ext : Callees PlastGauss KinOther).

Abbreviation Store := (EFS.Store KinOther).
Abbreviation cursor s := (NLDomain_py.counter (GLOBAL_K s)).

(** X17.  With a [mat_id] that is not a key of [fem_db.Material.Mat] the call
    raises [KeyError] at line 38.  [KINEMATICS.ComputeGradients] has run by
    then, so the kinematics are the updated ones; the triplet store and the
    record of branches are as they were. *)
Theorem missing_material_raises_KeyError xlocal Xlocal mat_id Ve ele grp
    ele_idx (s : Store) kin :
  Material_Mat db !! mat_id = None ->
  ComputeGradients ext xlocal Xlocal (interpolation_element_DN_chi grp)
    (KINEMATICS s) = (Ok tt, kin) ->
  ElementForceAndStiffness db ext xlocal Xlocal mat_id Ve ele grp ele_idx s
  = (Raise KeyError,
     {| KINEMATICS := kin; GLOBAL_K := GLOBAL_K s; trace := trace s |}).
Proof.
  intros Hm Hk. unfold ElementForceAndStiffness.
  rewrite (bind_step _ _ _ tt
             {| KINEMATICS := kin; GLOBAL_K := GLOBAL_K s; trace := trace s |})
    by (unfold call_ComputeGradients; rewrite Hk; reflexivity).
  rewrite Hm. reflexivity.
Qed.

(** X18.  The sign of the mean dilatation pressure, for a positive bulk
    modulus and a positive volume ratio [Jbar = ve / Ve]: the pressure is
    zero and [kappa_bar] is [kappa] when the deformed volume equals the
    reference volume, the pressure is positive when the element has grown
    and negative when it has shrunk. *)
Theorem pressure_follows_volume_change mat grp Ve (s : Store) DN ve kappa_bar
    press s' kappa :
  MeanDilatation db mat grp Ve s = (Ok (DN, ve, kappa_bar, press), s') ->
  value_dict mat !! "MaterialKey.Kappa" = Some kappa ->
  0 < kappa -> 0 < ve / Ve ->
  (ve = Ve -> press = 0 /\ kappa_bar = kappa) /\
  (1 < ve / Ve -> 0 < press) /\
  (ve / Ve < 1 -> press < 0).
Proof.
  intros H Hk Hpos HJ. apply MeanDilatation_Ok in H
    as (_ & _ & kappa' & JWs & Hk' & _ & _ & -> & ->).
  rewrite Hk in Hk'. injection Hk' as <-.
  set (Jbar := ve / Ve) in *.
  split; [|split].
  - intros E. assert (EJ : Jbar = 1).
    { unfold Jbar. rewrite E. apply Rdiv_diag. intros Z. unfold Jbar in HJ.
      rewrite E, Z in HJ. unfold Rdiv in HJ. rewrite Rmult_0_l in HJ. lra. }
    rewrite EJ, ln_1. split; lra.
  - intros H1. assert (0 < ln Jbar) by (rewrite <- ln_1; apply ln_increasing; lra).
    apply Rdiv_lt_0_compat; [nra|assumption].
  - intros H1. assert (ln Jbar < 0) by (rewrite <- ln_1; apply ln_increasing; lra).
    unfold Rdiv. assert (0 < / Jbar) by (apply Rinv_0_lt_compat; assumption).
    assert (0 < kappa * (- ln Jbar) * / Jbar)
      by (apply Rmult_lt_0_compat; [apply Rmult_lt_0_compat; lra|assumption]).
    replace (kappa * ln Jbar * / Jbar) with (- (kappa * (- ln Jbar) * / Jbar))
      by ring. lra.
Qed.

Lemma plain_sum_length (tws : list (vec * R)) :
  forall T0 T, plain_sum T0 tws = Ok T -> length T = length T0.
Proof.
  unfold plain_sum. induction tws as [|tw tws IH]; intros T0 T H.
  - injection H as <-. reflexivity.
  - cbn [foldM] in H. destruct (iadd1 T0 tw.1) as [T1|] eqn:E; [|discriminate].
    cbn in H. apply IH in H. rewrite H. eapply iadd1_length, E.
Qed.

(** X20.  The force vector of a call that returns has [n_dofs_elem] entries,
    whatever the number of Gauss points: every round adds to the vector in
    place and none changes its length. *)
Theorem internal_force_length xlocal Xlocal mat_id Ve ele grp ele_idx
    (s : Store) T P s' :
  ElementForceAndStiffness db ext xlocal Xlocal mat_id Ve ele grp ele_idx s
    = (Ok (T, P), s') ->
  length T = n_dofs_elem (element_info grp).
Proof.
  intros H. apply ElementForceAndStiffness_Ok in H
    as (mat & s0 & DN & ve & kb & press & s1 & P0 & s2 & s3
        & _ & _ & _ & _ & E3 & _).
  apply GaussLoop_Ok in E3 as (_ & evs & tws & _ & _ & _ & _ & S).
  apply plain_sum_length in S. rewrite S. apply length_replicate.
Qed.

(** *** Indices out of range *)

(** X21.  When [ele_idx] is out of range for the array
    [global_plasticity.epbar] the call does not return; the exception comes
    before the Gauss loop, so neither stiffness helper has been called and
    the triplet store is as it was. *)
Theorem plastic_state_index_out_of_range xlocal Xlocal mat_id Ve ele grp
    ele_idx (s : Store) r s' :
  Exists (fun row : vec =>
            ~ (- Z.of_nat (length row) <= ele_idx < Z.of_nat (length row))%Z)
         (global_plasticity_epbar grp) ->
  ElementForceAndStiffness db ext xlocal Xlocal mat_id Ve ele grp ele_idx s
    = (r, s') ->
  (exists e, r = Raise e) /\
  GLOBAL_K s' = GLOBAL_K s /\
  exists evs, trace s' = trace s ++ evs /\ Forall (fun e => ~ is_call e) evs.
Proof.
  intros Hbad. unfold ElementForceAndStiffness. intros H.
  assert (Harm : forall n b, ~ is_call (Arm n b)) by (intros n b []).
  apply bind_inv in H as [(e & H & ->)|([] & s0 & E0 & H)].
  { apply call_ComputeGradients_frame in H as [G T]. split; [eauto|].
    split; [exact G|]. exists []. rewrite app_nil_r. auto. }
  apply call_ComputeGradients_frame in E0 as [G0 T0].
  destruct (Material_Mat db !! mat_id) as [mat|]; cbn [of_option] in H.
  2: { rewrite lift_bind_Raise in H. injection H as <- <-. split; [eauto|].
       split; [exact G0|]. exists []. rewrite app_nil_r. auto. }
  rewrite lift_bind_Ok in H.
  apply bind_inv in H as [(e & H & ->)|([[[DN ve] kb] press] & s1 & E1 & H)].
  { pose proof (MeanDilatation_frame _ _ _ _ _ _ _ H) as [_ G1].
    apply MeanDilatation_trace in H as [(_ & _ & T)|[(_ & _ & T)|(_ & T)]];
      (split; [eauto|]); (split; [congruence|]);
      eexists; (split; [rewrite T, T0; reflexivity|]); repeat constructor;
      apply Harm. }
  pose proof (MeanDilatation_frame _ _ _ _ _ _ _ E1) as [_ G1].
  apply MeanDilatation_trace in E1
    as [(_ & [=] & _)|[(_ & (e & [=]) & _)|(_ & T1)]].
  apply bind_inv in H as [(e & H & ->)|(P0 & s2 & E2 & H)].
  { pose proof (ElementPlasticState_frame _ _ _ _ _ _ H) as [_ G2].
    apply ElementPlasticState_trace in H as [T2 _].
    split; [eauto|]. split; [congruence|].
    eexists. split; [rewrite T2, T1, T0, <- app_assoc; reflexivity|].
    repeat constructor; apply Harm. }
  exfalso. unfold ElementPlasticState in E2.
  destruct (isinstance_HyperElasticPlasticInPrincipal mat);
    unfold mark in E2; rewrite modify_bind in E2; [|discriminate E2].
  destruct (colZ (global_plasticity_epbar grp) ele_idx) as [v|] eqn:Ec.
  - apply colZ_Ok in Ec. apply Exists_exists in Hbad as (row & Hin & Hrow).
    rewrite Forall_forall in Ec. apply Hrow, Ec, Hin.
  - rewrite lift_bind_Raise in E2. discriminate E2.
Qed.

(** *** A cursor that was never set *)

Lemma PairBlock_unset_cursor ele DN ve kb b a (s : Store) r s' :
  PairBlock db ele DN ve kb b None a s = (r, s') ->
  (exists e, r = Raise e) /\ s' = s.
Proof.
  unfold PairBlock. intros H.
  destruct (PairTriplets db ele DN ve kb b a) as [[[rows cols] values]|].
  - rewrite lift_bind_Ok in H. cbn beta iota in H. rewrite get_bind in H.
    unfold write_block in H. rewrite lift_bind_Raise in H.
    injection H as <- <-. eauto.
  - rewrite lift_bind_Raise in H. injection H as <- <-. eauto.
Qed.

Lemma MeanDilatationStiffness_unset_cursor mat grp ele DN ve kb (s : Store) r s' :
  cursor s = None ->
  isinstance_HyperElasticPlasticInPrincipal mat = true ->
  (1 <= n_nodes_elem (element_info grp))%nat ->
  MeanDilatationStiffness db mat grp ele DN ve kb s = (r, s') ->
  exists e, r = Raise e.
Proof.
  intros Hc Hm Hn. unfold MeanDilatationStiffness. rewrite get_bind, Hm, Hc.
  unfold mark. rewrite modify_bind.
  destruct (n_nodes_elem (element_info grp)) as [|n]; [lia|].
  unfold range. cbn [seq foldM]. intros H.
  apply bind_inv in H as [(e & _ & ->)|(a & s1 & H & _)]; [eauto|].
  apply bind_inv in H as [(e & _ & [=])|(a1 & s2 & H & _)].
  apply bind_inv in H as [(e & _ & [=])|(a2 & s3 & H & _)].
  apply PairBlock_unset_cursor in H as [[e [=]] _].
Qed.

(** X25.  With the cursor [global_k.counter] still [None], as
    [GlobalK.__init__] leaves it, a call for an element with at least one
    node does not return: helpers that only move the cursor leave it [None],
    and the first slice [counter:counter + dim ** 2] of the mean dilatation
    term raises. *)
Theorem unset_cursor_never_returns cm gm xlocal Xlocal mat_id Ve ele grp
    ele_idx (s : Store) r s' :
  cursor_steps ext cm gm ->
  cursor s = None ->
  (1 <= n_nodes_elem (element_info grp))%nat ->
  ElementForceAndStiffness db ext xlocal Xlocal mat_id Ve ele grp ele_idx s
    = (r, s') ->
  exists e, r = Raise e.
Proof.
  intros Hsteps Hc Hn H. destruct r as [[T P]|e]; [|eauto]. exfalso.
  apply ElementForceAndStiffness_Ok in H
    as (mat & s0 & DN & ve & kb & press & s1 & P0 & s2 & s3
        & E0 & Em & E1 & E2 & E3 & E4).
  apply call_ComputeGradients_frame in E0 as [G0 _].
  pose proof (MeanDilatation_frame _ _ _ _ _ _ _ E1) as [_ G1].
  apply MeanDilatation_Ok in E1 as (Hm & _).
  apply ElementPlasticState_frame in E2 as [_ G2].
  apply (GaussLoop_cursor _ _ _ _ _ _ _ _ _ Hsteps) in E3.
  rewrite G2, G1, G0, Hc in E3. cbn in E3.
  apply (MeanDilatationStiffness_unset_cursor _ _ _ _ _ _ _ _ _ E3 Hm Hn) in E4
    as [e [=]].
Qed.

(** *** Buffers that are too short *)

(** X26.  In two or more dimensions, a block that does not fit into what is
    left of the row buffer raises [ValueError] (the slice is cut at the end
    of the buffer and the [dim ** 2] values cannot be broadcast into it);
    nothing has been written at that point. *)
Theorem block_overflow_raises ele DN ve kb b a c (s : Store) bi rows cols values :
  PairTriplets db ele DN ve kb b a = Ok (rows, cols, values) ->
  length DN = dim db -> length (MESH_dof_nodes db) = dim db ->
  (2 <= dim db)%nat ->
  (0 <= c)%Z ->
  NLDomain_py.indexi (GLOBAL_K s) = Some bi ->
  (length bi < Z.to_nat c + dim db ^ 2)%nat ->
  PairBlock db ele DN ve kb b (Some c) a s = (Raise ValueError, s).
Proof.
  intros HT HDN Hdof Hd Hc Hbi Hlen. unfold PairBlock. rewrite HT.
  rewrite lift_bind_Ok. cbn beta iota. rewrite get_bind, Hbi.
  destruct (PairTriplets_lengths _ _ _ _ _ _ _ _ _ _ HDN Hdof HT) as (Lr & _ & _).
  assert (Hsq : (4 <= dim db ^ 2)%nat).
  { change 4%nat with (2 ^ 2)%nat. apply Nat.pow_le_mono_l. exact Hd. }
  unfold write_block, slice_assign, clip.
  destruct (decide (c < 0)%Z) as [|_]; [lia|].
  destruct (decide (c + Z.of_nat (dim db ^ 2) < 0)%Z) as [|_]; [lia|].
  destruct (decide (length rows = _)) as [E|_].
  { exfalso. rewrite Lr in E. lia. }
  destruct rows as [|x [|y rows]]; cbn in Lr; try lia.
  reflexivity.
Qed.


(** X23.  Entry [i * dim + j] of the block of the node pair
    [(bnode, anode)] holds the value
    [kappa_bar * ve * DN_x_mean[i, anode] * DN_x_mean[j, bnode]] and the
    column index [dof_nodes[j, node_ids[bnode] - 1]].  Its row index is
    [dof_nodes[i, node_ids[anode] - 1]] when the DOF table is an [np.matrix];
    when it is an [ndarray] the row index is
    [dof_nodes[j, node_ids[anode] - 1]]. *)
Theorem pair_block_positions ele DN ve kb b a rows cols values (i j : nat) :
  length DN = dim db -> length (MESH_dof_nodes db) = dim db ->
  PairTriplets db ele DN ve kb b a = Ok (rows, cols, values) ->
  (i < dim db)%nat -> (j < dim db)%nat ->
  exists x_a x_b node_a node_b,
    getitem2 DN i a = Ok x_a /\ getitem2 DN j b = Ok x_b /\
    getitem (node_ids ele) a = Ok node_a /\
    getitem (node_ids ele) b = Ok node_b /\
    getitem values (i * dim db + j) = Ok (kb * ve * (x_a * x_b)) /\
    getitem cols (i * dim db + j) = dof_of_node db j node_b /\
    getitem rows (i * dim db + j)
      = dof_of_node db (if MESH_dof_nodes_is_matrix db then i else j) node_a.
Proof.
  intros HDN Hdof H Hi Hj.
  destruct (PairTriplets_lookup _ _ _ _ _ _ _ _ _ _ i j HDN Hdof H Hi Hj)
    as (x_a & x_b & na & nb & r_i & r_j & c_j & G1 & G2 & G3 & G4 & D1 & D2 & D3
        & Hv & Hc & Hr).
  exists x_a, x_b, na, nb. repeat (split; [assumption|]).
  unfold getitem at 1 2 3. rewrite Hv, Hc, Hr, D3.
  destruct (MESH_dof_nodes_is_matrix db); [rewrite D1|rewrite D2]; auto.
Qed.

(** X24.  With the DOF table an [np.matrix] the mean dilatation term is
    symmetric: entry [(i, j)] of the block of the pair [(bnode, anode)] and
    entry [(j, i)] of the block of the pair [(anode, bnode)] hold the same
    value, with row and column index exchanged. *)
Theorem mean_dilatation_term_symmetric ele DN ve kb b a rows cols values
    rows' cols' values' (i j : nat) :
  MESH_dof_nodes_is_matrix db = true ->
  length DN = dim db -> length (MESH_dof_nodes db) = dim db ->
  PairTriplets db ele DN ve kb b a = Ok (rows, cols, values) ->
  PairTriplets db ele DN ve kb a b = Ok (rows', cols', values') ->
  (i < dim db)%nat -> (j < dim db)%nat ->
  exists r c v,
    rows !! (i * dim db + j)%nat = Some r /\
    cols !! (i * dim db + j)%nat = Some c /\
    values !! (i * dim db + j)%nat = Some v /\
    rows' !! (j * dim db + i)%nat = Some c /\
    cols' !! (j * dim db + i)%nat = Some r /\
    values' !! (j * dim db + i)%nat = Some v.
Proof.
  intros Hm HDN Hdof H H' Hi Hj.
  destruct (PairTriplets_lookup _ _ _ _ _ _ _ _ _ _ i j HDN Hdof H Hi Hj)
    as (x_a & x_b & na & nb & r_i & r_j & c_j & G1 & G2 & G3 & G4 & D1 & D2 & D3
        & Hv & Hc & Hr).
  destruct (PairTriplets_lookup _ _ _ _ _ _ _ _ _ _ j i HDN Hdof H' Hj Hi)
    as (y_b & y_a & nb' & na' & r_j' & r_i' & c_i' & G1' & G2' & G3' & G4'
        & D1' & D2' & D3' & Hv' & Hc' & Hr').
  rewrite Hm in Hr, Hr'.
  assert (nb' = nb) by congruence. assert (na' = na) by congruence. subst.
  assert (y_a = x_a) by congruence. assert (y_b = x_b) by congruence. subst.
  assert (r_j' = c_j) by congruence. assert (c_i' = r_i) by congruence. subst.
  exists r_i, c_j, (kb * ve * (x_a * x_b)).
  repeat (split; [assumption|]). rewrite Hv'. f_equal. ring.
Qed.


Lemma MeanLoop_constant grp (D : matrix) (gs : list nat) :
  Forall (fun ii => slice3 (interpolation_element_DN_chi grp) ii = Ok D) gs ->
  forall v (s : Store) ve DN s',
    foldM (MeanLoopBody grp) (v, rscale2 D v) gs s = (Ok (ve, DN), s') ->
    DN = rscale2 D ve.
Proof.
  induction 1 as [|ii gs Hs _ IH]; intros v s ve DN s' H.
  - injection H as <- <- <-. reflexivity.
  - cbn [foldM] in H. apply bind_Ok in H as ([v1 DN1] & s1 & E1 & H).
    unfold MeanLoopBody in E1. rewrite get_bind in E1.
    destruct (integration_multiplier (KINEMATICS s) (quadrature_element_w grp)
                ii) as [JW|];
      [|rewrite lift_bind_Raise in E1; discriminate E1].
    rewrite lift_bind_Ok, Hs, lift_bind_Ok, iadd2_rscale2, lift_bind_Ok in E1.
    injection E1 as <- <- <-. eapply IH, H.
Qed.

(** X19.  Where the shape derivatives [element_DN_chi[:, :, ii]] are the same
    matrix [D] at every Gauss point, the averaged derivatives [DN_x_mean] of
    a call that returns with a deformed volume [ve] other than zero are [D]
    again: the weights [JW] cancel in [DN_x_mean / ve]. *)
Theorem mean_of_constant_gradient mat grp Ve (s : Store) (D : matrix)
    DN_x_mean ve kappa_bar press s' :
  shaped (dim db) (n_nodes_elem (element_info grp)) D ->
  (forall ii, (ii < ngauss (element_info grp))%nat ->
     slice3 (interpolation_element_DN_chi grp) ii = Ok D) ->
  MeanDilatation db mat grp Ve s
    = (Ok (DN_x_mean, ve, kappa_bar, press), s') ->
  ve <> 0 ->
  DN_x_mean = D.
Proof.
  intros HD Hs H Hve. unfold MeanDilatation, mark in H.
  destruct (isinstance_HyperElasticPlasticInPrincipal mat);
    rewrite modify_bind in H; [|discriminate H].
  rewrite (zeros2_rscale2 _ _ D HD) in H.
  apply bind_Ok in H as ([ve1 DN1] & s1 & E1 & H).
  apply MeanLoop_constant in E1.
  2: { apply Forall_forall. intros ii Hii. apply elem_of_seq in Hii.
       apply Hs. lia. }
  subst DN1. cbn beta iota zeta in H. rewrite modify_bind in H.
  destruct (dict_getitem (value_dict mat) "MaterialKey.Kappa") as [kappa|];
    [|rewrite lift_bind_Raise in H; discriminate H].
  rewrite lift_bind_Ok in H. injection H as <- <- _ _ _.
  apply div2_rscale2, Hve.
Qed.

(** *** The helper calls of the Gauss loop *)

Lemma GaussLoop_calls mat mat_id grp ele press gs :
  forall T P (s : Store) T' P' s',
  foldM (GaussLoopBody db ext mat mat_id grp ele press) (T, P) gs s
    = (Ok (T', P'), s') ->
  exists ps,
    Forall2 (fun igauss (p : tensor4 * matrix * R) =>
               integration_multiplier (KINEMATICS s)
                 (interpolation_quadrature_element_w grp) igauss = Ok p.2)
            gs ps /\
    trace s' = trace s ++ concat (zip_with round_calls gs ps).
Proof.
  induction gs as [|g gs IH]; intros T P s T' P' s' H.
  - injection H as <- <- <-. exists []. split; [constructor|].
    cbn. rewrite app_nil_r. reflexivity.
  - cbn [foldM] in H. apply bind_Ok in H as ([T1 P1] & s1 & E1 & H).
    apply GaussLoopBody_Ok in E1
      as (K1 & c & dsd & tw & Tr1 & _ & _ & F1 & _).
    apply IH in H as (ps & F & Tr). rewrite K1 in F.
    destruct F1 as (? & ? & ? & ? & ? & ? & ? & _ & _ & _ & _ & _ & HJW).
    exists ((c, dsd, tw.2) :: ps). split; [constructor; assumption|].
    rewrite Tr, Tr1, <- app_assoc. reflexivity.
Qed.

(** X22.  In a call that returns, the two stiffness helpers are called in
    pairs and nowhere else: for each Gauss point in order,
    [ConstitutiveMatrix] with the index of the point and then
    [GeometricMatrix], both with the same multiplier
    [JW = Jx_chi[igauss] * grp.interpolation.quadrature.element_w[igauss]].
    The pairs sit between the three branch marks of lines 43, 60 and 78 and
    the one of line 130. *)
Theorem helper_calls_in_pairs xlocal Xlocal mat_id Ve ele grp ele_idx
    (s : Store) T P s' :
  ElementForceAndStiffness db ext xlocal Xlocal mat_id Ve ele grp ele_idx s
    = (Ok (T, P), s') ->
  exists ps : list (tensor4 * matrix * R),
    Forall2 (fun igauss p =>
               exists Jx w,
                 Jx_chi (KINEMATICS s') !! igauss = Some Jx /\
                 interpolation_quadrature_element_w grp !! igauss = Some w /\
                 p.2 = Jx * w)
            (range (ngauss (element_info grp))) ps /\
    trace s' =
      trace s ++ [Arm 43 true; Arm 60 true; Arm 78 true]
              ++ concat (zip_with round_calls
                           (range (ngauss (element_info grp))) ps)
              ++ [Arm 130 true].
Proof.
  intros H. apply ElementForceAndStiffness_Ok in H
    as (mat & s0 & DN & ve & kb & press & s1 & P0 & s2 & s3
        & E0 & Em & E1 & E2 & E3 & E4).
  apply call_ComputeGradients_Ok in E0 as (_ & T0 & _).
  pose proof (MeanDilatation_frame _ _ _ _ _ _ _ E1) as [K1 _].
  pose proof (MeanDilatation_trace _ _ _ _ _ _ _ E1)
    as [(_ & [=] & _)|[(_ & (e & [=]) & _)|(_ & T1)]].
  apply MeanDilatation_Ok in E1 as (Hc & _).
  pose proof (ElementPlasticState_frame _ _ _ _ _ _ E2) as [K2 _].
  apply ElementPlasticState_trace in E2 as [T2 _]. rewrite Hc in T2.
  pose proof (GaussLoop_Ok _ _ _ _ _ _ _ _ _ _ _ _ _ _ E3) as (K3 & _).
  apply GaussLoop_calls in E3 as (ps & F & T3).
  pose proof (MeanDilatationStiffness_trace _ _ _ _ _ _ _ _ _ _ E4) as [T4 K4].
  rewrite Hc in T4.
  exists ps. split.
  - replace (KINEMATICS s') with (KINEMATICS s2) by congruence.
    eapply Forall2_impl; [exact F|]. intros igauss p Hp.
    apply integration_multiplier_Ok in Hp. exact Hp.
  - rewrite T4, T3, T2, T1, T0. rewrite <- !app_assoc. reflexivity.
Qed.

End Further.

(** *** The bar and the plane again *)

Lemma no_material_3 : Material_Mat bar_db !! 3%Z = None.
Proof.
  unfold bar_db; cbn. rewrite lookup_insert_ne by discriminate.
  apply lookup_singleton_ne. discriminate.
Qed.

Lemma steel_kappa : value_dict steel !! "MaterialKey.Kappa" = Some 5.
Proof. apply lookup_singleton_eq. Qed.

Lemma bar_mean_dilatation :
  exists DN kappa_bar press,
    (MeanDilatation bar_db steel bar_grp 2 bar_store).1
    = Ok (DN, 0 + 2 * 1, kappa_bar, press).
Proof. run. eexists _, _, _. reflexivity. Qed.

Lemma rod_call_returns :
  exists T P,
    (run_call rod_db silent_callees rod_call rod_store).1 = Ok (T, P).
Proof. run. eexists _, _. reflexivity. Qed.

Lemma missing_material_raises_KeyError_witness :
  ElementForceAndStiffness bar_db silent_callees [[0]] [[0]] 3%Z 2 bar_ele
    bar_grp 0%Z bar_store
  = (Raise KeyError,
     {| KINEMATICS := KINEMATICS bar_store; GLOBAL_K := GLOBAL_K bar_store;
        trace := trace bar_store |}).
Proof.
  apply (missing_material_raises_KeyError bar_db silent_callees [[0]] [[0]]
           3%Z 2 bar_ele bar_grp 0%Z bar_store (KINEMATICS bar_store));
    [exact no_material_3|reflexivity].
Defined.

Lemma pressure_follows_volume_change_witness :
  exists DN kappa_bar press,
    (MeanDilatation bar_db steel bar_grp 2 bar_store).1
      = Ok (DN, 0 + 2 * 1, kappa_bar, press) /\
    (0 + 2 * 1 = 2 -> press = 0 /\ kappa_bar = 5) /\
    (1 < (0 + 2 * 1) / 2 -> 0 < press) /\
    ((0 + 2 * 1) / 2 < 1 -> press < 0).
Proof.
  destruct bar_mean_dilatation as (DN & kappa_bar & press & H).
  exists DN, kappa_bar, press. split; [exact H|].
  apply (pressure_follows_volume_change bar_db steel bar_grp 2 bar_store DN
           (0 + 2 * 1) kappa_bar press
           (MeanDilatation bar_db steel bar_grp 2 bar_store).2 5);
    [rewrite <- H; apply surjective_pairing|exact steel_kappa|lra|lra].
Defined.

Lemma mean_of_constant_gradient_witness :
  exists DN kappa_bar press,
    (MeanDilatation bar_db steel bar_grp 2 bar_store).1
      = Ok (DN, 0 + 2 * 1, kappa_bar, press) /\
    DN = [[1]].
Proof.
  destruct bar_mean_dilatation as (DN & kappa_bar & press & H).
  exists DN, kappa_bar, press. split; [exact H|].
  apply (mean_of_constant_gradient bar_db steel bar_grp 2 bar_store [[1]] DN
           (0 + 2 * 1) kappa_bar press
           (MeanDilatation bar_db steel bar_grp 2 bar_store).2).
  - split; [reflexivity|repeat constructor].
  - intros [|ii] Hii; [reflexivity|cbn in Hii; lia].
  - rewrite <- H. apply surjective_pairing.
  - lra.
Defined.

Lemma internal_force_length_witness :
  length [3] = n_dofs_elem (element_info bar_grp).
Proof.
  apply (internal_force_length bar_db silent_callees [[0]] [[0]] 1%Z 2
           bar_ele bar_grp 0%Z bar_store [3]
           {| epbar := [0]; invCp := [[[1]]] |}
           (run_call bar_db silent_callees bar_call bar_store).2).
  rewrite <- bar_internal_force. apply surjective_pairing.
Defined.

Lemma plastic_state_index_out_of_range_witness :
  (exists e,
     (ElementForceAndStiffness bar_db silent_callees [[0]] [[0]] 1%Z 2 bar_ele
        bar_grp 5%Z bar_store).1 = Raise e) /\
  GLOBAL_K (ElementForceAndStiffness bar_db silent_callees [[0]] [[0]] 1%Z 2
              bar_ele bar_grp 5%Z bar_store).2 = GLOBAL_K bar_store /\
  exists evs,
    trace (ElementForceAndStiffness bar_db silent_callees [[0]] [[0]] 1%Z 2
             bar_ele bar_grp 5%Z bar_store).2 = trace bar_store ++ evs /\
    Forall (fun e => ~ is_call e) evs.
Proof.
  apply (plastic_state_index_out_of_range bar_db silent_callees [[0]] [[0]]
           1%Z 2 bar_ele bar_grp 5%Z bar_store).
  - apply Exists_cons_hd. cbn. lia.
  - apply surjective_pairing.
Defined.

Lemma helper_calls_in_pairs_witness :
  exists ps : list (tensor4 * matrix * R),
    Forall2 (fun igauss p =>
               exists Jx w,
                 Jx_chi (KINEMATICS
                   (run_call rod_db silent_callees rod_call rod_store).2)
                   !! igauss = Some Jx /\
                 interpolation_quadrature_element_w rod_grp !! igauss
                   = Some w /\
                 p.2 = Jx * w) (range 3) ps /\
    trace (run_call rod_db silent_callees rod_call rod_store).2 =
      trace rod_store ++ [Arm 43 true; Arm 60 true; Arm 78 true]
        ++ concat (zip_with round_calls (range 3) ps) ++ [Arm 130 true].
Proof.
  destruct rod_call_returns as (T & P & H).
  apply (helper_calls_in_pairs rod_db silent_callees [[0]; [2]] [[0]; [1]]
           1%Z 4 rod_ele rod_grp 0%Z rod_store T P).
  rewrite <- H. apply surjective_pairing.
Defined.

Lemma plane_block_matrix_swapped :
  PairTriplets (plane_db true) plane_ele plane_DN_x_mean 1 1 0 1
  = Ok ([2; 2; 3; 3]%Z, [0; 1; 0; 1]%Z,
        [1 * 1 * (2 * 1); 1 * 1 * (2 * 3); 1 * 1 * (4 * 1); 1 * 1 * (4 * 3)]).
Proof. run. reflexivity. Qed.

Lemma pair_block_positions_witness :
  exists x_a x_b node_a node_b,
    getitem2 plane_DN_x_mean 0 0 = Ok x_a /\
    getitem2 plane_DN_x_mean 1 1 = Ok x_b /\
    getitem (node_ids plane_ele) 0 = Ok node_a /\
    getitem (node_ids plane_ele) 1 = Ok node_b /\
    getitem [1 * 1 * (1 * 2); 1 * 1 * (1 * 4); 1 * 1 * (3 * 2);
             1 * 1 * (3 * 4)] (0 * 2 + 1) = Ok (1 * 1 * (x_a * x_b)) /\
    getitem [2; 3; 2; 3]%Z (0 * 2 + 1) = dof_of_node (plane_db true) 1 node_b /\
    getitem [0; 0; 1; 1]%Z (0 * 2 + 1) = dof_of_node (plane_db true) 0 node_a.
Proof.
  apply (pair_block_positions (plane_db true) plane_ele plane_DN_x_mean 1 1
           1 0 _ _ _ 0 1);
    [reflexivity|reflexivity|exact plane_block_matrix|cbn; lia|cbn; lia].
Defined.

Lemma mean_dilatation_term_symmetric_witness :
  exists r c v,
    [0; 0; 1; 1]%Z !! (0 * 2 + 1)%nat = Some r /\
    [2; 3; 2; 3]%Z !! (0 * 2 + 1)%nat = Some c /\
    [1 * 1 * (1 * 2); 1 * 1 * (1 * 4); 1 * 1 * (3 * 2); 1 * 1 * (3 * 4)]
      !! (0 * 2 + 1)%nat = Some v /\
    [2; 2; 3; 3]%Z !! (1 * 2 + 0)%nat = Some c /\
    [0; 1; 0; 1]%Z !! (1 * 2 + 0)%nat = Some r /\
    [1 * 1 * (2 * 1); 1 * 1 * (2 * 3); 1 * 1 * (4 * 1); 1 * 1 * (4 * 3)]
      !! (1 * 2 + 0)%nat = Some v.
Proof.
  apply (mean_dilatation_term_symmetric (plane_db true) plane_ele
           plane_DN_x_mean 1 1 1 0 _ _ _ _ _ _ 0 1);
    [reflexivity|reflexivity|reflexivity|exact plane_block_matrix
    |exact plane_block_matrix_swapped|cbn; lia|cbn; lia].
Defined.

Lemma unset_cursor_never_returns_witness :
  exists e,
    (ElementForceAndStiffness bar_db silent_callees [[0]] [[0]] 1%Z 2 bar_ele
       bar_grp 0%Z
       {| KINEMATICS := KINEMATICS bar_store;
          GLOBAL_K := NLDomain_py.GlobalK_init; trace := [] |}).1 = Raise e.
Proof.
  apply (unset_cursor_never_returns bar_db silent_callees (fun _ => 0%Z)
           (fun _ => 0%Z) [[0]] [[0]] 1%Z 2 bar_ele bar_grp 0%Z
           {| KINEMATICS := KINEMATICS bar_store;
              GLOBAL_K := NLDomain_py.GlobalK_init; trace := [] |} _
           (ElementForceAndStiffness bar_db silent_callees [[0]] [[0]] 1%Z 2
              bar_ele bar_grp 0%Z
              {| KINEMATICS := KINEMATICS bar_store;
                 GLOBAL_K := NLDomain_py.GlobalK_init; trace := [] |}).2);
    [exact silent_callees_steps|reflexivity|cbn; lia
    |apply surjective_pairing].
Defined.

Lemma block_overflow_raises_witness :
  PairBlock (plane_db true) plane_ele plane_DN_x_mean 1 1 1 (Some 0%Z) 0
    {| KINEMATICS := KINEMATICS bar_store;
       GLOBAL_K := NLDomain_py.set_indexi [0; 0]%Z (GLOBAL_K bar_store);
       trace := [] |}
  = (Raise ValueError,
     {| KINEMATICS := KINEMATICS bar_store;
        GLOBAL_K := NLDomain_py.set_indexi [0; 0]%Z (GLOBAL_K bar_store);
        trace := [] |}).
Proof.
  apply (block_overflow_raises (plane_db true) plane_ele plane_DN_x_mean 1 1
           1 0 0%Z _ [0; 0]%Z _ _ _ plane_block_matrix);
    [reflexivity|reflexivity|cbn; lia|lia|reflexivity|cbn; lia].
Defined.

End EFS_facts.
